(** * PSPTrace: the decode-and-correlate pipeline of [psptrace/psptrace.py]

    A shallow embedding of the flash-access decoder ([count_data_bytes],
    [find_read_accesses]), of the address classifier ([RangeDict]) and of
    the post-processing stages ([aggregate_duplicates],
    [collapse_entry_types], [do_normalize_timestamps],
    [get_overview_read_accesses]), followed by the properties of the
    design document that concern them.

    Python integers are unbounded: they are [Z].  A Python [dict] keeps
    insertion order and has unique keys: it is an association list that is
    only ever changed through [dict_set] and [dict_del].  Exceptions are
    explicit: every function that can raise returns a [result].

    The post-processing stages update the access records in place.  The
    decoder makes a new record for every access and no stage stores one
    record under two keys, so within a collection no two entries share a
    record, and a stage is modelled by the collection it returns. *)

From Stdlib Require Import ZArith List Bool String Ascii Lia Sorted.
From Stdlib Require Import DecimalString.
Import ListNotations.
Open Scope string_scope.
Open Scope list_scope.
Open Scope Z_scope.

Set Implicit Arguments.

(** ** Exceptions *)

Inductive exn : Type :=
| IndexError
| KeyError
| ValueError.

(** [OutOfFuel] is not a Python outcome: it marks a loop of the model that
    was given too little fuel.  The loops below are shown never to end that
    way with the fuel the model gives them. *)
Inductive result (A : Type) : Type :=
| Ok (a : A)
| Raise (e : exn)
| OutOfFuel.

Arguments Ok {A} a.
Arguments Raise {A} e.
Arguments OutOfFuel {A}.

Definition bind {A B : Type} (m : result A) (f : A -> result B) : result B :=
  match m with
  | Ok a => f a
  | Raise e => Raise e
  | OutOfFuel => OutOfFuel
  end.

Notation "x <- m ;; k" := (bind m (fun x => k))
  (at level 61, m at next level, right associativity).

(** ** Python lists *)

Definition len {A : Type} (l : list A) : Z := Z.of_nat (List.length l).

(** [l[i]]: a negative index counts from the end, an index outside the list
    raises [IndexError]. *)
Definition getitem {A : Type} (l : list A) (i : Z) : result A :=
  let j := if i <? 0 then len l + i else i in
  if j <? 0 then Raise IndexError
  else match nth_error l (Z.to_nat j) with
       | Some a => Ok a
       | None => Raise IndexError
       end.

(** [l[lo:hi]] for non-negative bounds: the bounds are clipped, nothing is
    raised. *)
Definition slice {A : Type} (l : list A) (lo hi : Z) : list A :=
  firstn (Z.to_nat (hi - lo)) (skipn (Z.to_nat lo) l).

(** [bytes(l)]: every element must be in [range(0, 256)]. *)
Definition py_bytes (l : list Z) : result (list Z) :=
  if forallb (fun b => (0 <=? b) && (b <? 256)) l then Ok l
  else Raise ValueError.

(** [int.from_bytes(bs, byteorder='big')]. *)
Definition from_bytes_big (bs : list Z) : Z :=
  fold_left (fun acc b => acc * 256 + b) bs 0.

(** ** Python dicts *)

Section Dict.
Variables K V : Type.
Variable eqb : K -> K -> bool.

Definition dict : Type := list (K * V).

Fixpoint dict_find (k : K) (d : dict) : option V :=
  match d with
  | [] => None
  | (k', v) :: d' => if eqb k k' then Some v else dict_find k d'
  end.

(** [k in d] *)
Definition dict_mem (k : K) (d : dict) : bool :=
  match dict_find k d with Some _ => true | None => false end.

(** [d[k]] *)
Definition dict_get (k : K) (d : dict) : result V :=
  match dict_find k d with Some v => Ok v | None => Raise KeyError end.

(** [d[k] = v]: an existing key keeps its place. *)
Fixpoint dict_set (k : K) (v : V) (d : dict) : dict :=
  match d with
  | [] => [(k, v)]
  | (k', v') :: d' =>
      if eqb k k' then (k', v) :: d' else (k', v') :: dict_set k v d'
  end.

Fixpoint dict_remove (k : K) (d : dict) : dict :=
  match d with
  | [] => []
  | (k', v') :: d' => if eqb k k' then d' else (k', v') :: dict_remove k d'
  end.

(** [del d[k]] *)
Definition dict_del (k : K) (d : dict) : result dict :=
  if dict_mem k d then Ok (dict_remove k d) else Raise KeyError.

Definition keys (d : dict) : list K := map fst d.
Definition values (d : dict) : list V := map snd d.
End Dict.

Arguments dict_find {K V} eqb k d.
Arguments dict_mem {K V} eqb k d.
Arguments dict_get {K V} eqb k d.
Arguments dict_set {K V} eqb k v d.
Arguments dict_remove {K V} eqb k d.
Arguments dict_del {K V} eqb k d.

(** ** The opcode catalog *)

Module Winbond.
Record instruction : Type := Instruction {
  name : string;
  size : Z;
  expects_data : bool
}.
End Winbond.
Import Winbond (Instruction).

(** The table of [psptrace.py], in source order. *)
Definition WINBOND_INSTRUCTIONS : dict Z Winbond.instruction := [
  (0x06, Instruction "Write Enable" 1 false);
  (0x50, Instruction "Volatile SR Write Enable" 1 false);
  (0x04, Instruction "Write Disable" 1 false);
  (0xAB, Instruction "Release Power-down / ID" 4 true);
  (0x90, Instruction "Manufacturer/Device ID" 4 true);
  (0x9F, Instruction "JEDEC ID" 1 true);
  (0x4B, Instruction "Manufacturer/Device ID" 5 true);
  (0x03, Instruction "Read Data" 4 true);
  (0x0B, Instruction "Fast Read" 5 true);
  (0x02, Instruction "Page Program" 6 false);
  (0x20, Instruction "Sector Erase (4KB)" 4 false);
  (0x52, Instruction "Block Erase (32KB)" 4 false);
  (0xD8, Instruction "Block Erase (64KB)" 4 false);
  (0xC7, Instruction "Chip Erase (0xC7)" 1 false);
  (0x60, Instruction "Chip Erase (0x60)" 1 false);
  (0x05, Instruction "Read Status Register-1 (0x05)" 1 true);
  (0x01, Instruction "Read Status Register-1 (0x01)" 1 true);
  (0x35, Instruction "Read Status Register-2 (0x35)" 1 true);
  (0x31, Instruction "Read Status Register-2 (0x31)" 1 true);
  (0x15, Instruction "Read Status Register-3 (0x15)" 1 true);
  (0x11, Instruction "Read Status Register-3 (0x11" 1 true);
  (0x5A, Instruction "Read SFDP Register" 5 true);
  (0x44, Instruction "Erase Security Register" 4 false);
  (0x42, Instruction "Program Security Register" 6 false);
  (0x48, Instruction "Read Security Register" 5 true);
  (0x7E, Instruction "Global Block Lock" 1 false);
  (0x98, Instruction "Global Block Unlock" 1 false);
  (0x3D, Instruction "Read Block Lock" 4 true);
  (0x36, Instruction "Individual Block Lock" 4 false);
  (0x39, Instruction "Individual Block Unlock" 4 false);
  (0x75, Instruction "Erase / Program Suspend" 1 false);
  (0x7A, Instruction "Erase / Program Resume" 1 false);
  (0xB9, Instruction "Power-down" 1 false);
  (0x66, Instruction "Enable Reset" 1 false);
  (0x99, Instruction "Reset Device" 1 false);
  (0xEB, Instruction "Fast Read Quad I/O" 4 true);
  (0xE7, Instruction "Word Read Quad I/O" 4 true);
  (0xE3, Instruction "Octal Word Read Quad I/O" 4 true);
  (0x94, Instruction "Mftr./Device ID Quad I/O" 4 true)
].

(** [b in WINBOND_INSTRUCTIONS] *)
Definition is_instruction (b : Z) : bool := dict_mem Z.eqb b WINBOND_INSTRUCTIONS.

(** ** The data-length heuristic *)

(** The [while] loop of [count_data_bytes]; [IndexError] ends the count. *)
Fixpoint count_data_bytes_loop (fuel : nat) (base_addr : Z) (s : list Z)
    (data_bytes : Z) : result Z :=
  match fuel with
  | O => OutOfFuel
  | S fuel' =>
      match getitem s (base_addr + data_bytes) with
      | Ok b =>
          if negb (is_instruction b)
          then count_data_bytes_loop fuel' base_addr s (data_bytes + 1)
          else Ok data_bytes
      | Raise IndexError => Ok data_bytes
      | Raise e => Raise e
      | OutOfFuel => OutOfFuel
      end
  end.

(** The index [base_addr + data_bytes] grows by one per iteration and the
    list ends, so this fuel is enough ([count_data_bytes_total]). *)
Definition count_data_bytes (base_addr : Z) (s : list Z) : result Z :=
  count_data_bytes_loop (S (List.length s + Z.to_nat (- base_addr)))
    base_addr s 1.

(** ** The address classifier *)

(** A region type: psptool's numeric entry type, or one of the labels that
    [find_read_accesses] makes up. *)
Inductive region_type : Type :=
| EntryType (n : Z)
| Label (s : string).

Definition region_type_eqb (a b : region_type) : bool :=
  match a, b with
  | EntryType n, EntryType m => n =? m
  | Label s, Label t => String.eqb s t
  | _, _ => false
  end.

(** [a == b] on values that may be [None]. *)
Definition option_eqb {A : Type} (eqb : A -> A -> bool) (a b : option A) : bool :=
  match a, b with
  | Some x, Some y => eqb x y
  | None, None => true
  | _, _ => false
  end.

(** [range(start, stop)] *)
Record range : Type := Range { start : Z; stop : Z }.

(** [item in r] *)
Definition range_contains (r : range) (item : Z) : bool :=
  (start r <=? item) && (item <? stop r).

Definition range_len (r : range) : Z := Z.max 0 (stop r - start r).

(** [r1 == r2]: ranges compare as sequences, so all empty ranges are equal. *)
Definition range_eqb (r1 r2 : range) : bool :=
  (range_len r1 =? range_len r2)
  && ((range_len r1 =? 0) || (start r1 =? start r2)).

Definition RangeDict : Type := dict range region_type.

(** The [for key in self] loop of [RangeDict.__getitem__]. *)
Fixpoint first_key_containing (item : Z) (d : RangeDict) : option range :=
  match d with
  | [] => None
  | (key, _) :: d' =>
      if range_contains key item then Some key
      else first_key_containing item d'
  end.

(** [RangeDict.__getitem__] at an integer: the value of the first key that
    contains it, [None] when the loop finds none. *)
Definition RangeDict_getitem (d : RangeDict) (item : Z) : option region_type :=
  match first_key_containing item d with
  | Some key => dict_find range_eqb key d
  | None => None
  end.

(** What [find_read_accesses] reads of psptool's firmware layout. *)
Record Entry : Type := {
  entry_address : Z;       (* entry.get_address() *)
  buffer_size : Z;
  entry_type : region_type
}.

Record Directory : Type := {
  directory_address : Z;   (* directory.get_address() *)
  directory_len : Z;       (* len(directory) *)
  magic : string;          (* str(directory.magic, 'ascii') *)
  entries : list Entry
}.

(** The three parts of the dict display, in the order they are written. *)
Definition entry_items (all_entries : list Entry) : list (range * region_type) :=
  map (fun entry =>
         (Range (entry_address entry) (entry_address entry + buffer_size entry),
          entry_type entry))
      (filter (fun entry => negb (buffer_size entry =? 0xffffffff)) all_entries).

Definition directory_items (directories : list Directory)
    : list (range * region_type) :=
  map (fun directory =>
         (Range (directory_address directory)
                (directory_address directory + directory_len directory),
          Label (String.append "Directory: " (magic directory))))
      directories.

Definition registered (directories : list Directory)
    : list (range * region_type) :=
  let all_entries := flat_map entries directories in
  entry_items all_entries
  ++ directory_items directories
  ++ [(Range 0x20000 0x20040, Label "Firmware Entry Table")].

(** A dict display or comprehension: the items are set one after the other. *)
Definition RangeDict_of (items : list (range * region_type)) : RangeDict :=
  fold_left (fun d kv => dict_set range_eqb (fst kv) (snd kv) d) items [].

Definition type_at_address_range (directories : list Directory) : RangeDict :=
  RangeDict_of (registered directories).

(** ** Access records *)

(** The dict that Case 1 of [find_read_accesses] stores per read, and that
    the post-processing stages read and rebuild.  ['duplicate_count'] is
    absent until [aggregate_duplicates] sets it. *)
Record ReadAccess : Type := {
  instr_index : Z;
  start_time : Z;
  end_time : Z;
  duration : Z;
  latency : Z;
  address : Z;
  size : Z;
  type_ : option region_type;
  info : list string;
  duplicate_count : option Z
}.

(** The dict that Case 2 stores: ['size'], ['end_time'], ['duration'] and
    ['latency'] are absent until the access is finalized. *)
Record QAccess : Type := {
  q_instr_index : Z;
  q_start_time : Z;
  q_last_end_time : Z;
  q_address : Z;
  q_type : option region_type;
  q_info : list string;
  q_size : option Z;
  q_end_time : option Z;
  q_duration : option Z;
  q_latency : option Z
}.

(** [data['raw']]: ['time'] and one of ['mosi'] and ['value']. *)
Record raw : Type := {
  time : list Z;
  mosi : option (list Z);
  value : option (list Z)
}.

(** ** The access decoder, Case 1: the single-line stream *)

(** The local variables of [find_read_accesses] that Case 1 uses.
    [st_trace] is a ghost variable: it records, for every decoded
    instruction in decoding order, its frame length and its counted data
    length, the two summands by which [index] advances. *)
Record state : Type := {
  st_read_accesses : dict Z ReadAccess;
  st_last_end_time : Z;
  st_unparsable_instructions : dict string Z;
  st_invalid_instructions : dict Z Z;
  st_index : Z;
  st_instr_index : Z;
  st_end_time : Z;
  st_trace : list (Z * Z)
}.

(** [{instr['name']: 0 for instr in WINBOND_INSTRUCTIONS.values()}] *)
Definition unparsable_instructions_init : dict string Z :=
  fold_left (fun d instr => dict_set String.eqb (Winbond.name instr) 0 d)
            (values WINBOND_INSTRUCTIONS) [].

(** [d[k] += 1] *)
Definition dict_incr {K : Type} (eqb : K -> K -> bool) (k : K) (d : dict K Z)
    : result (dict K Z) :=
  n <- dict_get eqb k d ;;
  Ok (dict_set eqb k (n + 1) d).

(** One iteration of [while index < len(data['mosi'])]. *)
Definition mosi_step (time mosi : list Z) (type_at : RangeDict) (st : state)
    : result state :=
  let index := st_index st in
  instr <- getitem mosi index ;;
  if (instr =? 0x03) || (instr =? 0x0b) then
    ins <- dict_get Z.eqb instr WINBOND_INSTRUCTIONS ;;
    let instr_size := Winbond.size ins in
    data_bytes <- count_data_bytes (index + instr_size) mosi ;;
    start_time <- getitem time index ;;
    end_time <- getitem time (index + data_bytes) ;;
    let duration := end_time - start_time in
    let latency := start_time - st_last_end_time st in
    bs <- py_bytes (slice mosi (index + 1) (index + 4)) ;;
    let address := from_bytes_big bs in
    let size := data_bytes in
    let type_ := RangeDict_getitem type_at address in
    Ok {| st_read_accesses :=
            dict_set Z.eqb start_time
              {| instr_index := st_instr_index st;
                 start_time := start_time;
                 end_time := end_time;
                 duration := duration;
                 latency := latency;
                 address := address;
                 size := size;
                 type_ := type_;
                 info := [];
                 duplicate_count := None |}
              (st_read_accesses st);
          st_last_end_time := end_time;
          st_unparsable_instructions := st_unparsable_instructions st;
          st_invalid_instructions := st_invalid_instructions st;
          st_index := index + (Winbond.size ins + data_bytes);
          st_instr_index := st_instr_index st + 1;
          st_end_time := end_time;
          st_trace := st_trace st ++ [(Winbond.size ins, data_bytes)] |}
  else if is_instruction instr then
    ins <- dict_get Z.eqb instr WINBOND_INSTRUCTIONS ;;
    unparsable <- dict_incr String.eqb (Winbond.name ins)
                    (st_unparsable_instructions st) ;;
    data_bytes <- (if Winbond.expects_data ins
                   then count_data_bytes (index + Winbond.size ins) mosi
                   else Ok 0) ;;
    Ok {| st_read_accesses := st_read_accesses st;
          st_last_end_time := st_end_time st;
          st_unparsable_instructions := unparsable;
          st_invalid_instructions := st_invalid_instructions st;
          st_index := index + (Winbond.size ins + data_bytes);
          st_instr_index := st_instr_index st + 1;
          st_end_time := st_end_time st;
          st_trace := st_trace st ++ [(Winbond.size ins, data_bytes)] |}
  else
    invalid <- (if dict_mem Z.eqb instr (st_invalid_instructions st)
                then dict_incr Z.eqb instr (st_invalid_instructions st)
                else Ok (dict_set Z.eqb instr 0 (st_invalid_instructions st))) ;;
    Ok {| st_read_accesses := st_read_accesses st;
          st_last_end_time := st_last_end_time st;
          st_unparsable_instructions := st_unparsable_instructions st;
          st_invalid_instructions := invalid;
          st_index := index + 1;
          st_instr_index := st_instr_index st + 1;
          st_end_time := st_end_time st;
          st_trace := st_trace st ++ [(1, 0)] |}.

Fixpoint mosi_loop (fuel : nat) (time mosi : list Z) (type_at : RangeDict)
    (st : state) : result state :=
  if st_index st <? len mosi then
    match fuel with
    | O => OutOfFuel
    | S fuel' =>
        st' <- mosi_step time mosi type_at st ;;
        mosi_loop fuel' time mosi type_at st'
    end
  else Ok st.

(** The state in which the loop starts; [end_time] is [data['time'][0]]. *)
Definition initial_state (end_time : Z) : state :=
  {| st_read_accesses := [];
     st_last_end_time := 0;
     st_unparsable_instructions := unparsable_instructions_init;
     st_invalid_instructions := [];
     st_index := 0;
     st_instr_index := 0;
     st_end_time := end_time;
     st_trace := [] |}.

(** Case 1 as a whole.  Every iteration advances [index] by at least one,
    so [len(data['mosi'])] iterations are enough
    ([mosi_loop_not_OutOfFuel]). *)
Definition decode_mosi (time mosi : list Z) (type_at : RangeDict)
    (end_time : Z) : result state :=
  mosi_loop (List.length mosi) time mosi type_at (initial_state end_time).

(** ** The access decoder, Case 2: the interleaved quad-I/O stream *)

Record qstate : Type := {
  qs_read_accesses : dict Z QAccess;
  qs_last_start_time : Z;
  qs_last_end_time : Z;
  qs_index : Z;
  qs_last_index : Z;
  qs_instr_index : Z
}.

(** The block that sets ['size'], ['end_time'], ['duration'] and
    ['latency'] of [read_accesses[last_start_time]]; it occurs twice in the
    source, inside the loop and after it.  Also yields
    [previous_end_time]. *)
Definition finalize_previous (time : list Z) (read_accesses : dict Z QAccess)
    (last_start_time index last_index : Z) : result (dict Z QAccess * Z) :=
  previous <- dict_get Z.eqb last_start_time read_accesses ;;
  let previous_start_time := q_start_time previous in
  let previous_last_end_time := q_last_end_time previous in
  previous_end_time <- getitem time (index - 1) ;;
  let previous_duration := previous_end_time - previous_start_time in
  let previous_latency := previous_start_time - previous_last_end_time in
  Ok (dict_set Z.eqb last_start_time
        {| q_instr_index := q_instr_index previous;
           q_start_time := q_start_time previous;
           q_last_end_time := q_last_end_time previous;
           q_address := q_address previous;
           q_type := q_type previous;
           q_info := q_info previous;
           q_size := Some (index - last_index - 2);
           q_end_time := Some previous_end_time;
           q_duration := Some previous_duration;
           q_latency := Some previous_latency |}
        read_accesses,
      previous_end_time).

Definition is_read_command (value : Z) : bool :=
  existsb (Z.eqb value) [0x03; 0x0B; 0xEB; 0xE7; 0xE3; 0xEC].

Definition is_quad_command (value : Z) : bool :=
  existsb (Z.eqb value) [0xEB; 0xE7; 0xE3].

(** One iteration of [while index < len(data['value']) - 1]. *)
Definition value_step (time values : list Z) (type_at : RangeDict)
    (st : qstate) : result qstate :=
  let index := qs_index st in
  value <- getitem values index ;;
  next_value <- getitem values (index + 1) ;;
  if is_read_command value && (0xFF <? next_value) then
    let address := next_value in
    start_time <- getitem time index ;;
    let type_ := RangeDict_getitem type_at address in
    fin <- (if 0 <? qs_instr_index st
            then finalize_previous time (qs_read_accesses st)
                   (qs_last_start_time st) index (qs_last_index st)
            else Ok (qs_read_accesses st, 0)) ;;
    Ok {| qs_read_accesses :=
            dict_set Z.eqb start_time
              {| q_instr_index := qs_instr_index st;
                 q_start_time := start_time;
                 q_last_end_time := qs_last_end_time st;
                 q_address := address;
                 q_type := type_;
                 q_info := if is_quad_command value then ["QSPI"] else [];
                 q_size := None;
                 q_end_time := None;
                 q_duration := None;
                 q_latency := None |}
              (fst fin);
          qs_last_start_time := start_time;
          qs_last_end_time := snd fin;
          qs_index := index + 2;
          qs_last_index := index;
          qs_instr_index := qs_instr_index st + 1 |}
  else
    Ok {| qs_read_accesses := qs_read_accesses st;
          qs_last_start_time := qs_last_start_time st;
          qs_last_end_time := qs_last_end_time st;
          qs_index := index + 1;
          qs_last_index := qs_last_index st;
          qs_instr_index := qs_instr_index st |}.

Fixpoint value_loop (fuel : nat) (time values : list Z) (type_at : RangeDict)
    (st : qstate) : result qstate :=
  if qs_index st <? len values - 1 then
    match fuel with
    | O => OutOfFuel
    | S fuel' =>
        st' <- value_step time values type_at st ;;
        value_loop fuel' time values type_at st'
    end
  else Ok st.

Definition initial_qstate : qstate :=
  {| qs_read_accesses := [];
     qs_last_start_time := 0;
     qs_last_end_time := 0;
     qs_index := 0;
     qs_last_index := 0;
     qs_instr_index := 0 |}.

(** Case 2 as a whole: the loop, then the last access is finalized. *)
Definition decode_value (time values : list Z) (type_at : RangeDict)
    : result (dict Z QAccess) :=
  st <- value_loop (List.length values) time values type_at initial_qstate ;;
  fin <- finalize_previous time (qs_read_accesses st)
           (qs_last_start_time st) (qs_index st) (qs_last_index st) ;;
  Ok (fst fin).

(** ** [find_read_accesses] *)

(** What [find_read_accesses] returns: the records of Case 1, or those of
    Case 2, which carry ['last_end_time'] as well. *)
Inductive accesses : Type :=
| Accesses (read_accesses : dict Z ReadAccess)
| QuadAccesses (read_accesses : dict Z QAccess).

Definition find_read_accesses (data : raw) (psptool : list Directory)
    : result accesses :=
  let type_at_address_range := type_at_address_range psptool in
  end_time <- getitem (time data) 0 ;;
  match mosi data with
  | Some data_mosi =>
      st <- decode_mosi (time data) data_mosi type_at_address_range end_time ;;
      Ok (Accesses (st_read_accesses st))
  | None =>
      match value data with
      | Some data_value =>
          read_accesses <-
            decode_value (time data) data_value type_at_address_range ;;
          Ok (QuadAccesses read_accesses)
      | None => Ok (Accesses [])
      end
  end.

(** ** Post-processing *)

Definition MAXIMUM_AGGREGATION_COUNT : Z := 8.
Definition TIME_BLOCK_LATENCY_THRESHOLD : Z := 50.

(** [sorted(read_accesses.items())]: the keys of a dict are distinct, so the
    items are ordered by key alone. *)
Fixpoint insert_item {V : Type} (kv : Z * V) (l : list (Z * V)) : list (Z * V) :=
  match l with
  | [] => [kv]
  | x :: l' => if fst kv <? fst x then kv :: l else x :: insert_item kv l'
  end.

Definition sorted_items {V : Type} (d : dict Z V) : list (Z * V) :=
  fold_right insert_item [] d.

(** ['%d' % n] *)
Definition string_of_Z (n : Z) : string := NilZero.string_of_int (Z.to_int n).

(** *** [aggregate_duplicates] *)

(** [deque.append] with [maxlen]: a full deque drops its leftmost element. *)
Definition deque_append {A : Type} (maxlen : nat) (x : A) (q : list A) : list A :=
  if (maxlen <=? List.length q)%nat then tl q ++ [x] else q ++ [x].

(** [q.index(x)] *)
Fixpoint deque_index (x : Z) (q : list Z) : result Z :=
  match q with
  | [] => Raise ValueError
  | y :: q' => if x =? y then Ok 0 else i <- deque_index x q' ;; Ok (i + 1)
  end.

(** [del q[i]] for [0 <= i] *)
Definition deque_del {A : Type} (i : Z) (q : list A) : result (list A) :=
  _ <- getitem q i ;;
  Ok (firstn (Z.to_nat i) q ++ skipn (S (Z.to_nat i)) q).

Definition set_duplicate_count (values : ReadAccess) (n : Z) : ReadAccess :=
  {| instr_index := instr_index values;
     start_time := start_time values;
     end_time := end_time values;
     duration := duration values;
     latency := latency values;
     address := address values;
     size := size values;
     type_ := type_ values;
     info := info values;
     duplicate_count := Some n |}.

Definition set_info (values : ReadAccess) (i : list string) : ReadAccess :=
  {| instr_index := instr_index values;
     start_time := start_time values;
     end_time := end_time values;
     duration := duration values;
     latency := latency values;
     address := address values;
     size := size values;
     type_ := type_ values;
     info := i;
     duplicate_count := duplicate_count values |}.

(** [values['duplicate_count']] *)
Definition get_duplicate_count (values : ReadAccess) : result Z :=
  match duplicate_count values with
  | Some n => Ok n
  | None => Raise KeyError
  end.

Record agg_state : Type := {
  aggregated_accesses : dict Z ReadAccess;
  recent_addresses : list Z;
  recent_originals : list Z
}.

(** The body of the first [for] loop of [aggregate_duplicates]. *)
Definition aggregate_step (st : agg_state) (item : Z * ReadAccess)
    : result agg_state :=
  let time := fst item in
  let values := snd item in
  let address := address values in
  if negb (existsb (Z.eqb address) (recent_addresses st)) then
    v <- dict_get Z.eqb time (aggregated_accesses st) ;;
    Ok {| aggregated_accesses :=
            dict_set Z.eqb time (set_duplicate_count v 1)
                     (aggregated_accesses st);
          recent_addresses := deque_append 200 address (recent_addresses st);
          recent_originals := deque_append 200 time (recent_originals st) |}
  else
    index <- deque_index address (recent_addresses st) ;;
    original_access_time <- getitem (recent_originals st) index ;;
    original <- dict_get Z.eqb original_access_time (aggregated_accesses st) ;;
    count <- get_duplicate_count original ;;
    st' <- (if count <? MAXIMUM_AGGREGATION_COUNT then
              Ok {| aggregated_accesses :=
                      dict_set Z.eqb original_access_time
                               (set_duplicate_count original (count + 1))
                               (aggregated_accesses st);
                    recent_addresses := recent_addresses st;
                    recent_originals := recent_originals st |}
            else
              addresses <- deque_del index (recent_addresses st) ;;
              originals <- deque_del index (recent_originals st) ;;
              Ok {| aggregated_accesses := aggregated_accesses st;
                    recent_addresses := addresses;
                    recent_originals := originals |}) ;;
    aggregated <- dict_del Z.eqb time (aggregated_accesses st') ;;
    Ok {| aggregated_accesses := aggregated;
          recent_addresses := recent_addresses st';
          recent_originals := recent_originals st' |}.

Fixpoint aggregate_loop (st : agg_state) (items : list (Z * ReadAccess))
    : result agg_state :=
  match items with
  | [] => Ok st
  | item :: items' =>
      st' <- aggregate_step st item ;;
      aggregate_loop st' items'
  end.

(** The second [for] loop: every survivor gets its multiplicity tag. *)
Fixpoint annotate_counts (d : dict Z ReadAccess) : result (dict Z ReadAccess) :=
  match d with
  | [] => Ok []
  | (time, values) :: d' =>
      n <- get_duplicate_count values ;;
      rest <- annotate_counts d' ;;
      Ok ((time, set_info values (info values ++ [String.append "x" (string_of_Z n)]))
            :: rest)
  end.

(** [aggregated_accesses] starts as [read_accesses.copy()]; the loop runs
    over [sorted(read_accesses.items())]. *)
Definition aggregate_duplicates (read_accesses : dict Z ReadAccess)
    : result (dict Z ReadAccess) :=
  st <- aggregate_loop
          {| aggregated_accesses := read_accesses;
             recent_addresses := [];
             recent_originals := [] |}
          (sorted_items read_accesses) ;;
  annotate_counts (aggregated_accesses st).

(** *** [collapse_entry_types] *)

(** The [last_access] dict once an access has been seen; before the first
    access all its values are [None], which is [None] here. *)
Record last_access_values : Type := {
  la_type : option region_type;
  la_address : Z;
  la_size : Z;
  la_duplicate_count : option Z
}.

(** The [last_access] that the loop leaves behind after [values]. *)
Definition last_access_of (values : ReadAccess) : last_access_values :=
  {| la_type := type_ values;
     la_address := address values;
     la_size := size values;
     la_duplicate_count := duplicate_count values |}.

Record collapse_state : Type := {
  collapsed_read_accesses : list ReadAccess;
  last_access : option last_access_values
}.

(** The condition of the [if] in the loop of [collapse_entry_types]. *)
Definition collapses (last : option last_access_values) (values : ReadAccess)
    : bool :=
  match last with
  | None => false
  | Some la =>
      option_eqb region_type_eqb (type_ values) (la_type la)
      && (address values <=? la_address la + la_size la)
  end.

(** [if tag not in l: l.append(tag)] *)
Definition append_once (tag : string) (l : list string) : list string :=
  if existsb (String.eqb tag) l then l else l ++ [tag].

(** [l[-1] = x] *)
Definition set_last {A : Type} (l : list A) (x : A) : result (list A) :=
  _ <- getitem l (-1) ;;
  Ok (removelast l ++ [x]).

Definition collapse_step (st : collapse_state) (item : Z * ReadAccess)
    : result collapse_state :=
  let values := snd item in
  collapsed <-
    (if collapses (last_access st) values then
       prev_values <- getitem (collapsed_read_accesses st) (-1) ;;
       let info1 := append_once "[c]" (info prev_values) in
       let info2 :=
         if negb (option_eqb Z.eqb (duplicate_count values)
                    (match last_access st with
                     | Some la => la_duplicate_count la
                     | None => None
                     end))
            && negb (existsb (String.eqb "~") info1)
         then info1 ++ ["~"] else info1 in
       set_last (collapsed_read_accesses st)
         {| instr_index := instr_index prev_values;
            start_time := start_time prev_values;
            end_time := end_time values;
            duration := duration prev_values + duration values;
            latency := latency prev_values;
            address := address prev_values;
            size := size prev_values + size values;
            type_ := type_ prev_values;
            info := info2;
            duplicate_count := None |}
     else Ok (collapsed_read_accesses st ++ [values])) ;;
  Ok {| collapsed_read_accesses := collapsed;
        last_access := Some (last_access_of values) |}.

Fixpoint collapse_loop (st : collapse_state) (items : list (Z * ReadAccess))
    : result collapse_state :=
  match items with
  | [] => Ok st
  | item :: items' =>
      st' <- collapse_step st item ;;
      collapse_loop st' items'
  end.

(** [{values['start_time']: values for values in l}] *)
Definition by_start_time (l : list ReadAccess) : dict Z ReadAccess :=
  fold_left (fun d values => dict_set Z.eqb (start_time values) values d) l [].

Definition initial_collapse_state : collapse_state :=
  {| collapsed_read_accesses := []; last_access := None |}.

Definition collapse_entry_types (read_accesses : dict Z ReadAccess)
    : result (dict Z ReadAccess) :=
  st <- collapse_loop initial_collapse_state (sorted_items read_accesses) ;;
  Ok (by_start_time (collapsed_read_accesses st)).

(** *** [do_normalize_timestamps] *)

(** [min(...)] of a generator: [ValueError] when it yields nothing. *)
Definition py_min (l : list Z) : result Z :=
  match l with
  | [] => Raise ValueError
  | x :: l' => Ok (fold_left Z.min l' x)
  end.

Definition shift_times (v : ReadAccess) (min_time : Z) : ReadAccess :=
  {| instr_index := instr_index v;
     start_time := start_time v - min_time;
     end_time := end_time v - min_time;
     duration := duration v;
     latency := latency v;
     address := address v;
     size := size v;
     type_ := type_ v;
     info := info v;
     duplicate_count := duplicate_count v |}.

(** The records are shifted in place and stored under their old keys. *)
Definition do_normalize_timestamps (read_accesses : dict Z ReadAccess)
    : result (dict Z ReadAccess) :=
  min_time <- py_min (map start_time (values read_accesses)) ;;
  Ok (fold_left
        (fun normalized_read_accesses kv =>
           dict_set Z.eqb (fst kv) (shift_times (snd kv) min_time)
                    normalized_read_accesses)
        read_accesses []).

(** *** The coprocessor annotation and [get_overview_read_accesses] *)

(** The loop of [PSPTrace.__init__]: reads of size 0x40 get ['CCP']. *)
Definition annotate_ccp (read_accesses : dict Z ReadAccess) : dict Z ReadAccess :=
  map (fun kv =>
         (fst kv,
          if size (snd kv) =? 0x40
          then set_info (snd kv) (info (snd kv) ++ ["CCP"])
          else snd kv))
      read_accesses.

(** [{**values, 'lowest_access': ..., 'highest_access': ...}] *)
Record OverviewAccess : Type := {
  ov_values : ReadAccess;
  lowest_access : Z;
  highest_access : Z
}.

Definition known_key : Type := (option region_type * bool)%type.

Definition known_key_eqb (a b : known_key) : bool :=
  option_eqb region_type_eqb (fst a) (fst b) && Bool.eqb (snd a) (snd b).

Record overview_state : Type := {
  overview_read_accesses : dict Z OverviewAccess;
  known_types : dict known_key Z
}.

Definition latency_in_us (values : ReadAccess) : Z := latency values / 1000.

Definition is_ccp (values : ReadAccess) : bool :=
  existsb (String.eqb "CCP") (info values).

Definition overview_step (st : overview_state) (item : Z * ReadAccess)
    : result overview_state :=
  let start_time := fst item in
  let values := snd item in
  let known_types :=
    if TIME_BLOCK_LATENCY_THRESHOLD <? latency_in_us values
    then [] else known_types st in
  if negb (dict_mem known_key_eqb (type_ values, is_ccp values) known_types) then
    Ok {| overview_read_accesses :=
            dict_set Z.eqb start_time
              {| ov_values := values;
                 lowest_access := address values;
                 highest_access := address values + size values |}
              (overview_read_accesses st);
          known_types :=
            dict_set known_key_eqb (type_ values, is_ccp values) start_time
                     known_types |}
  else
    original_access_time <-
      dict_get known_key_eqb (type_ values, is_ccp values) known_types ;;
    o1 <- dict_get Z.eqb original_access_time (overview_read_accesses st) ;;
    let overview1 :=
      dict_set Z.eqb original_access_time
        {| ov_values := ov_values o1;
           lowest_access := Z.min (lowest_access o1) (address values);
           highest_access := highest_access o1 |}
        (overview_read_accesses st) in
    o2 <- dict_get Z.eqb original_access_time overview1 ;;
    Ok {| overview_read_accesses :=
            dict_set Z.eqb original_access_time
              {| ov_values := ov_values o2;
                 lowest_access := lowest_access o2;
                 highest_access :=
                   Z.max (highest_access o2) (address values + size values) |}
              overview1;
          known_types := known_types |}.

Fixpoint overview_loop (st : overview_state) (items : list (Z * ReadAccess))
    : result overview_state :=
  match items with
  | [] => Ok st
  | item :: items' =>
      st' <- overview_step st item ;;
      overview_loop st' items'
  end.

Definition get_overview_read_accesses (read_accesses : dict Z ReadAccess)
    : result (dict Z OverviewAccess) :=
  st <- overview_loop {| overview_read_accesses := []; known_types := [] |}
          (sorted_items read_accesses) ;;
  Ok (overview_read_accesses st).

(** ** Quantities the properties are stated with *)

(** The samples that the decoded instructions consume: the sum of
    [frame length + data length] over the trace. *)
Definition samples_consumed (trace : list (Z * Z)) : Z :=
  fold_right (fun fd acc => fst fd + snd fd + acc) 0 trace.

(** Every name of the catalog has its counter. *)
Definition counters_complete (st : state) : Prop :=
  forall instr ins,
    dict_find Z.eqb instr WINBOND_INSTRUCTIONS = Some ins ->
    dict_mem String.eqb (Winbond.name ins) (st_unparsable_instructions st) = true.

(** The multiplicities of a collection, summed. *)
Definition total_multiplicity (d : dict Z ReadAccess) : Z :=
  fold_right (fun kv acc =>
                match duplicate_count (snd kv) with
                | Some n => n + acc
                | None => acc
                end) 0 d.

(** The multiplicity tag that [aggregate_duplicates] appends. *)
Definition tagged (values : ReadAccess) (n : Z) : ReadAccess :=
  set_info (set_duplicate_count values n)
           (info values ++ [String.append "x" (string_of_Z n)]).

(** What the first loop of [aggregate_duplicates] leaves of a run of
    accesses to one address, told without the dict and the deques: [cur] is
    the original that is in the window, with the count it has reached. *)
Fixpoint run_survivors (cur : option (Z * ReadAccess * Z))
    (items : list (Z * ReadAccess)) : list (Z * ReadAccess) :=
  match items with
  | [] =>
      match cur with
      | None => []
      | Some (t, r, c) => [(t, set_duplicate_count r c)]
      end
  | (t', v) :: rest =>
      match cur with
      | None => run_survivors (Some (t', v, 1)) rest
      | Some (t, r, c) =>
          if c <? MAXIMUM_AGGREGATION_COUNT
          then run_survivors (Some (t, r, c + 1)) rest
          else (t, set_duplicate_count r c) :: run_survivors None rest
      end
  end.

From Stdlib Require Import Permutation.

(** ** Quantities the further properties are stated with *)

(** What holds of an access that Case 1 has stored under [fst kv], when
    [bound] instructions have been decoded. *)
Definition decoded_access_ok (time : list Z) (type_at : RangeDict) (bound : Z)
    (kv : Z * ReadAccess) : Prop :=
  let v := snd kv in
  start_time v = fst kv
  /\ In (start_time v) time /\ In (end_time v) time
  /\ duration v = end_time v - start_time v
  /\ 1 <= size v
  /\ 0 <= address v < 2 ^ 24
  /\ type_ v = RangeDict_getitem type_at (address v)
  /\ info v = []
  /\ duplicate_count v = None
  /\ 0 <= instr_index v < bound.

(** An access of Case 2 whose ['size'], ['end_time'], ['duration'] and
    ['latency'] have been set, and how. *)
Definition finalized (q : QAccess) : Prop :=
  exists s e,
    q_size q = Some s /\ 0 <= s
    /\ q_end_time q = Some e
    /\ q_duration q = Some (e - q_start_time q)
    /\ q_latency q = Some (q_start_time q - q_last_end_time q).

(** What holds of every access that Case 2 has stored. *)
Definition opened_access_ok (time : list Z) (type_at : RangeDict)
    (kv : Z * QAccess) : Prop :=
  let q := snd kv in
  q_start_time q = fst kv
  /\ In (q_start_time q) time
  /\ 0xFF < q_address q
  /\ q_type q = RangeDict_getitem type_at (q_address q)
  /\ (q_info q = [] \/ q_info q = ["QSPI"]).

(** The invariant of the loop of Case 2: every stored access but the one
    opened last is finalized. *)
Definition value_loop_invariant (time values : list Z) (type_at : RangeDict)
    (st : qstate) : Prop :=
  0 <= qs_index st <= len values
  /\ 0 <= qs_instr_index st
  /\ (qs_instr_index st = 0 -> qs_read_accesses st = [])
  /\ (0 < qs_instr_index st ->
      dict_mem Z.eqb (qs_last_start_time st) (qs_read_accesses st) = true
      /\ 0 <= qs_last_index st /\ qs_last_index st + 2 <= qs_index st)
  /\ NoDup (keys (qs_read_accesses st))
  /\ Forall (fun kv => opened_access_ok time type_at kv
                       /\ (finalized (snd kv)
                           \/ fst kv = qs_last_start_time st))
            (qs_read_accesses st).

(** An entry of [aggregated_accesses] that is an original of the input
    [d]: an access of [d] under its key, with a count. *)
Definition original_of (d : dict Z ReadAccess) (kv : Z * ReadAccess) : Prop :=
  exists v n,
    In (fst kv, v) d
    /\ 1 <= n <= MAXIMUM_AGGREGATION_COUNT
    /\ snd kv = set_duplicate_count v n.

(** The invariant of the first loop of [aggregate_duplicates] on the input
    [d], with the items [todo] still to come: the accesses to come are
    still in the dict, untouched; every other entry is an original; the
    two deques have one length, and the times in [recent_originals] are
    keys of the dict that are not to come. *)
Definition aggregate_invariant (d : dict Z ReadAccess) (st : agg_state)
    (todo : list (Z * ReadAccess)) : Prop :=
  NoDup (keys (aggregated_accesses st))
  /\ NoDup (keys todo)
  /\ incl todo d
  /\ incl (keys (aggregated_accesses st)) (keys d)
  /\ (forall kv, In kv todo ->
        dict_find Z.eqb (fst kv) (aggregated_accesses st) = Some (snd kv))
  /\ (forall k r, dict_find Z.eqb k (aggregated_accesses st) = Some r ->
        In k (keys todo) \/ original_of d (k, r))
  /\ List.length (recent_addresses st) = List.length (recent_originals st)
  /\ Forall (fun t => dict_mem Z.eqb t (aggregated_accesses st) = true
                      /\ ~ In t (keys todo)) (recent_originals st).

(** The sizes and the durations of a list of accesses, summed. *)
Definition total_size (l : list ReadAccess) : Z :=
  fold_right (fun v acc => size v + acc) 0 l.

Definition total_duration (l : list ReadAccess) : Z :=
  fold_right (fun v acc => duration v + acc) 0 l.

(** ** The stages of [display_all] *)

(** The first lines of [PSPTrace.display_all]: the stages that the caller
    selects, in their fixed order.  The table that the method then prints
    is not modelled. *)
Definition display_all_stages (no_duplicates collapse normalize_timestamps : bool)
    (read_accesses : dict Z ReadAccess) : result (dict Z ReadAccess) :=
  read_accesses <- (if no_duplicates then aggregate_duplicates read_accesses
                    else Ok read_accesses) ;;
  read_accesses <- (if collapse then collapse_entry_types read_accesses
                    else Ok read_accesses) ;;
  if normalize_timestamps then do_normalize_timestamps read_accesses
  else Ok read_accesses.

(** ** The catalog of [winbond_instructions.py] *)

(** The table of the module [winbond_instructions.py], in source order. *)
Definition WINBOND_INSTRUCTIONS_MODULE : dict Z Winbond.instruction := [
  (0x06, Instruction "Write Enable" 1 false);
  (0x50, Instruction "Volatile SR Write Enable" 1 false);
  (0x04, Instruction "Write Disable" 1 false);
  (0xAB, Instruction "Release Power-down / ID" 4 true);
  (0x90, Instruction "Manufacturer/Device ID" 4 true);
  (0x9F, Instruction "JEDEC ID" 1 true);
  (0x4B, Instruction "Manufacturer/Device ID" 5 true);
  (0x03, Instruction "Read Data" 4 true);
  (0x13, Instruction "Read Data with 4-Byte Address" 5 true);
  (0x0B, Instruction "Fast Read" 5 true);
  (0x02, Instruction "Page Program" 6 false);
  (0x20, Instruction "Sector Erase (4KB)" 4 false);
  (0x52, Instruction "Block Erase (32KB)" 4 false);
  (0xD8, Instruction "Block Erase (64KB)" 4 false);
  (0xC7, Instruction "Chip Erase (0xC7)" 1 false);
  (0x60, Instruction "Chip Erase (0x60)" 1 false);
  (0x05, Instruction "Read Status Register-1 (0x05)" 1 true);
  (0x01, Instruction "Read Status Register-1 (0x01)" 1 true);
  (0x35, Instruction "Read Status Register-2 (0x35)" 1 true);
  (0x31, Instruction "Read Status Register-2 (0x31)" 1 true);
  (0x15, Instruction "Read Status Register-3 (0x15)" 1 true);
  (0x11, Instruction "Read Status Register-3 (0x11" 1 true);
  (0x5A, Instruction "Read SFDP Register" 5 true);
  (0x44, Instruction "Erase Security Register" 4 false);
  (0x42, Instruction "Program Security Register" 6 false);
  (0x48, Instruction "Read Security Register" 5 true);
  (0x7E, Instruction "Global Block Lock" 1 false);
  (0x98, Instruction "Global Block Unlock" 1 false);
  (0x3D, Instruction "Read Block Lock" 4 true);
  (0x36, Instruction "Individual Block Lock" 4 false);
  (0x39, Instruction "Individual Block Unlock" 4 false);
  (0x75, Instruction "Erase / Program Suspend" 1 false);
  (0x7A, Instruction "Erase / Program Resume" 1 false);
  (0xB9, Instruction "Power-down" 1 false);
  (0x66, Instruction "Enable Reset" 1 false);
  (0x99, Instruction "Reset Device" 1 false);
  (0xEB, Instruction "Fast Read Quad I/O" 4 true);
  (0xE7, Instruction "Word Read Quad I/O" 4 true);
  (0xE3, Instruction "Octal Word Read Quad I/O" 4 true);
  (0x94, Instruction "Mftr./Device ID Quad I/O" 4 true)
].

(** ** Overview rows *)

(** The row [row] accounts for the access [v]: it is a row of [v]'s type
    and coprocessor flag whose span includes the span of [v]. *)
Definition covers (row : OverviewAccess) (v : ReadAccess) : Prop :=
  type_ (ov_values row) = type_ v
  /\ is_ccp (ov_values row) = is_ccp v
  /\ lowest_access row <= address v
  /\ address v + size v <= highest_access row.

Definition covered (rows : dict Z OverviewAccess) (v : ReadAccess) : Prop :=
  exists k row, dict_find Z.eqb k rows = Some row /\ covers row v.

(** The invariant of the loop of [get_overview_read_accesses] on the input
    [d], with the items [todo] still to come: no row is stored under a key
    to come; every known pair points to a row of that pair; every row was
    opened by the access of [d] under its key and spans it. *)
Definition overview_invariant (d : dict Z ReadAccess) (st : overview_state)
    (todo : list (Z * ReadAccess)) : Prop :=
  NoDup (keys (overview_read_accesses st))
  /\ NoDup (keys todo)
  /\ incl todo d
  /\ (forall k, In k (keys (overview_read_accesses st)) -> ~ In k (keys todo))
  /\ (forall key t0,
        In (key, t0) (known_types st) ->
        exists row,
          dict_find Z.eqb t0 (overview_read_accesses st) = Some row
          /\ type_ (ov_values row) = fst key
          /\ is_ccp (ov_values row) = snd key)
  /\ (forall k row,
        dict_find Z.eqb k (overview_read_accesses st) = Some row ->
        In (k, ov_values row) d /\ covers row (ov_values row)).

(** * Properties *)

(** ** The [result] monad and Python lists *)

Lemma bind_Ok {A B : Type} (m : result A) (f : A -> result B) (b : B) :
  bind m f = Ok b -> exists a, m = Ok a /\ f a = Ok b.
Proof. destruct m as [a| |]; simpl; intros H; try discriminate; eauto. Qed.

Lemma bind_not_OutOfFuel {A B : Type} (m : result A) (f : A -> result B) :
  m <> OutOfFuel -> (forall a, m = Ok a -> f a <> OutOfFuel) ->
  bind m f <> OutOfFuel.
Proof. destruct m; simpl; intros H1 H2; auto; discriminate. Qed.

Lemma len_nonneg {A : Type} (l : list A) : 0 <= len l.
Proof. unfold len; lia. Qed.

Lemma len_app {A : Type} (l1 l2 : list A) : len (l1 ++ l2) = len l1 + len l2.
Proof. unfold len; rewrite length_app; lia. Qed.

(** Past the end of the list, [l[i]] raises. *)
Lemma getitem_past_end {A : Type} (l : list A) (i : Z) :
  len l <= i -> getitem l i = Raise IndexError.
Proof.
  intros Hi. pose proof (len_nonneg l). unfold getitem.
  destruct (i <? 0) eqn:E; [apply Z.ltb_lt in E; lia|]. rewrite E.
  destruct (nth_error l (Z.to_nat i)) eqn:N; [|reflexivity].
  assert (nth_error l (Z.to_nat i) <> None) as N' by congruence.
  apply nth_error_Some in N'. unfold len in Hi. lia.
Qed.

(** [l[i]] returns or raises [IndexError], nothing else. *)
Lemma getitem_cases {A : Type} (l : list A) (i : Z) :
  (exists a, getitem l i = Ok a /\ i < len l) \/ getitem l i = Raise IndexError.
Proof.
  pose proof (len_nonneg l) as Hl. unfold getitem.
  destruct (i <? 0) eqn:E.
  - apply Z.ltb_lt in E.
    destruct (len l + i <? 0); [now right|].
    destruct (nth_error l (Z.to_nat (len l + i))); [left; eexists; split; [reflexivity|lia] | now right].
  - apply Z.ltb_ge in E. rewrite (proj2 (Z.ltb_ge i 0) E).
    destruct (nth_error l (Z.to_nat i)) eqn:N; [|now right].
    left; eexists; split; [reflexivity|].
    assert (nth_error l (Z.to_nat i) <> None) as N' by congruence.
    apply nth_error_Some in N'. unfold len. lia.
Qed.

(** ** The data-length heuristic *)

(** The count never runs out of fuel and never raises; it is at least the
    count it starts from, and a count that went beyond its start stays
    inside the stream. *)
Lemma count_data_bytes_loop_total (fuel : nat) (base_addr : Z) (s : list Z) :
  forall data_bytes,
    (Z.to_nat (len s - (base_addr + data_bytes)) < fuel)%nat ->
    exists k, count_data_bytes_loop fuel base_addr s data_bytes = Ok k
              /\ data_bytes <= k
              /\ (k = data_bytes \/ base_addr + k <= len s).
Proof.
  induction fuel as [|fuel IH]; intros d Hf; [lia|].
  simpl. destruct (getitem_cases s (base_addr + d)) as [(b & Hb & Hlt)|Hr].
  - rewrite Hb. destruct (is_instruction b); simpl.
    + exists d. repeat split; auto; lia.
    + destruct (IH (d + 1)) as (k & Hk & Hle & Hbound); [lia|].
      exists k. repeat split; auto; lia.
  - rewrite Hr. exists d. repeat split; auto; lia.
Qed.

Lemma count_data_bytes_total (base_addr : Z) (s : list Z) :
  exists k, count_data_bytes base_addr s = Ok k
            /\ 1 <= k /\ (k = 1 \/ base_addr + k <= len s).
Proof.
  unfold count_data_bytes.
  apply count_data_bytes_loop_total. unfold len. lia.
Qed.

(** The count is the distance to the next instruction byte or to the end of
    the stream, and the byte at distance zero is never looked at. *)
Lemma count_data_bytes_loop_spec (fuel : nat) (base_addr : Z) (s : list Z) (k : Z) :
  forall data_bytes,
    0 <= base_addr + data_bytes -> data_bytes <= k ->
    (Z.to_nat (k - data_bytes) < fuel)%nat ->
    (forall j, data_bytes <= j < k ->
       exists b, getitem s (base_addr + j) = Ok b /\ is_instruction b = false) ->
    (len s <= base_addr + k
     \/ exists b, getitem s (base_addr + k) = Ok b /\ is_instruction b = true) ->
    count_data_bytes_loop fuel base_addr s data_bytes = Ok k.
Proof.
  induction fuel as [|fuel IH]; intros d H0 Hle Hf Hskip Hstop; [lia|].
  simpl. destruct (Z.eq_dec d k) as [->|Hne].
  - destruct Hstop as [Hend|(b & Hb & Hi)].
    + rewrite getitem_past_end by lia. reflexivity.
    + rewrite Hb, Hi. reflexivity.
  - destruct (Hskip d) as (b & Hb & Hi); [lia|].
    rewrite Hb, Hi. simpl. apply IH; auto; try lia.
    intros j Hj. apply Hskip. lia.
Qed.

Lemma count_data_bytes_spec (base_addr : Z) (s : list Z) (k : Z) :
  0 <= base_addr -> 1 <= k ->
  (forall j, 1 <= j < k ->
     exists b, getitem s (base_addr + j) = Ok b /\ is_instruction b = false) ->
  (len s <= base_addr + k
   \/ exists b, getitem s (base_addr + k) = Ok b /\ is_instruction b = true) ->
  count_data_bytes base_addr s = Ok k.
Proof.
  intros Hb Hk Hskip Hstop. unfold count_data_bytes.
  apply count_data_bytes_loop_spec; auto; try lia.
  destruct (Z.eq_dec k 1) as [->|Hne]; [lia|].
  destruct (Hskip (k - 1)) as (b & Hg & _); [lia|].
  destruct (getitem_cases s (base_addr + (k - 1))) as [(b' & _ & Hlt)|Hr];
    [|congruence].
  unfold len in Hlt. lia.
Qed.

(** ** The opcode catalog *)

Lemma dict_find_In {K V : Type} (eqb : K -> K -> bool) (k : K) (d : dict K V) (v : V) :
  dict_find eqb k d = Some v -> exists k', In (k', v) d /\ eqb k k' = true.
Proof.
  induction d as [|[k' v'] d IH]; simpl; [discriminate|].
  destruct (eqb k k') eqn:E.
  - intros H; inversion H; subst. eauto.
  - intros H. destruct (IH H) as (k'' & Hin & He). eauto.
Qed.

Lemma winbond_frames (instr : Z) (ins : Winbond.instruction) :
  dict_find Z.eqb instr WINBOND_INSTRUCTIONS = Some ins ->
  1 <= Winbond.size ins <= 6
  /\ (Winbond.expects_data ins = true -> Winbond.size ins <= 5).
Proof.
  intros H. apply dict_find_In in H. destruct H as (k' & Hin & _).
  assert (forallb
            (fun kv : Z * Winbond.instruction =>
               (1 <=? Winbond.size (snd kv)) && (Winbond.size (snd kv) <=? 6)
               && (negb (Winbond.expects_data (snd kv))
                   || (Winbond.size (snd kv) <=? 5)))
            WINBOND_INSTRUCTIONS = true) as Hall by reflexivity.
  rewrite forallb_forall in Hall. specialize (Hall _ Hin). simpl in Hall.
  apply andb_prop in Hall. destruct Hall as [H1 H2].
  apply andb_prop in H1. destruct H1 as [H1 H3].
  apply Z.leb_le in H1. apply Z.leb_le in H3.
  split; [lia|]. intros He. rewrite He in H2. simpl in H2.
  apply Z.leb_le in H2. lia.
Qed.

(** ** Case 1 of the decoder: termination and accounting *)

Lemma samples_consumed_app (t1 t2 : list (Z * Z)) :
  samples_consumed (t1 ++ t2) = samples_consumed t1 + samples_consumed t2.
Proof. induction t1 as [|x t1 IH]; simpl; [reflexivity|]. rewrite IH. lia. Qed.

Lemma getitem_not_OutOfFuel {A : Type} (l : list A) (i : Z) :
  getitem l i <> OutOfFuel.
Proof.
  destruct (getitem_cases l i) as [(a & H & _)|H]; rewrite H; discriminate.
Qed.

Lemma dict_get_not_OutOfFuel {K V : Type} (eqb : K -> K -> bool) (k : K) (d : dict K V) :
  dict_get eqb k d <> OutOfFuel.
Proof. unfold dict_get. destruct (dict_find eqb k d); discriminate. Qed.

Lemma dict_incr_not_OutOfFuel {K : Type} (eqb : K -> K -> bool) (k : K) (d : dict K Z) :
  dict_incr eqb k d <> OutOfFuel.
Proof. unfold dict_incr, dict_get. destruct (dict_find eqb k d); discriminate. Qed.

Lemma count_data_bytes_not_OutOfFuel (base_addr : Z) (s : list Z) :
  count_data_bytes base_addr s <> OutOfFuel.
Proof.
  destruct (count_data_bytes_total base_addr s) as (k & H & _).
  rewrite H. discriminate.
Qed.

Lemma py_bytes_not_OutOfFuel (l : list Z) : py_bytes l <> OutOfFuel.
Proof. unfold py_bytes. destruct (forallb _ l); discriminate. Qed.

Lemma dict_get_find {K V : Type} (eqb : K -> K -> bool) (k : K) (d : dict K V) (v : V) :
  dict_get eqb k d = Ok v -> dict_find eqb k d = Some v.
Proof. unfold dict_get. destruct (dict_find eqb k d); congruence. Qed.

Ltac bind_ok H x Hx :=
  apply bind_Ok in H; destruct H as (x & Hx & H).

(** One iteration never runs out of fuel. *)
Lemma mosi_step_not_OutOfFuel (time mosi : list Z) (type_at : RangeDict) (st : state) :
  mosi_step time mosi type_at st <> OutOfFuel.
Proof.
  unfold mosi_step.
  apply bind_not_OutOfFuel; [apply getitem_not_OutOfFuel|]. intros instr _.
  destruct ((instr =? 3) || (instr =? 11)).
  - apply bind_not_OutOfFuel; [apply dict_get_not_OutOfFuel|]. intros ins _.
    apply bind_not_OutOfFuel; [apply count_data_bytes_not_OutOfFuel|]. intros d _.
    apply bind_not_OutOfFuel; [apply getitem_not_OutOfFuel|]. intros ts _.
    apply bind_not_OutOfFuel; [apply getitem_not_OutOfFuel|]. intros te _.
    apply bind_not_OutOfFuel; [apply py_bytes_not_OutOfFuel|]. intros bs _.
    discriminate.
  - destruct (is_instruction instr).
    + apply bind_not_OutOfFuel; [apply dict_get_not_OutOfFuel|]. intros ins _.
      apply bind_not_OutOfFuel; [apply dict_incr_not_OutOfFuel|]. intros u _.
      apply bind_not_OutOfFuel.
      * destruct (Winbond.expects_data ins);
          [apply count_data_bytes_not_OutOfFuel|discriminate].
      * intros d _. discriminate.
    + apply bind_not_OutOfFuel.
      * destruct (dict_mem Z.eqb instr (st_invalid_instructions st));
          [apply dict_incr_not_OutOfFuel|discriminate].
      * intros d _. discriminate.
Qed.

(** One iteration decodes one instruction: it logs its frame length and
    data length, advances [index] by their sum and counts it in
    [instr_index].  The frame is at least one sample; an instruction that
    starts inside the stream ends at most five samples past its end. *)
Lemma mosi_step_advance (time mosi : list Z) (type_at : RangeDict) (st st' : state) :
  mosi_step time mosi type_at st = Ok st' ->
  exists frame data,
    st_trace st' = st_trace st ++ [(frame, data)]
    /\ st_index st' = st_index st + (frame + data)
    /\ st_instr_index st' = st_instr_index st + 1
    /\ 1 <= frame /\ 0 <= data
    /\ (st_index st < len mosi -> st_index st' <= len mosi + 5).
Proof.
  unfold mosi_step. intros H.
  bind_ok H instr Hinstr.
  destruct ((instr =? 3) || (instr =? 11)) eqn:E.
  - bind_ok H ins Hins. bind_ok H d Hd. bind_ok H ts Hts. bind_ok H te Hte.
    bind_ok H bs Hbs. inversion H; subst; clear H; simpl.
    apply dict_get_find in Hins.
    destruct (winbond_frames _ Hins) as [Hf He].
    destruct (count_data_bytes_total (st_index st + Winbond.size ins) mosi)
      as (k & Hk & Hk1 & Hk2).
    rewrite Hk in Hd; inversion Hd; subst d.
    exists (Winbond.size ins), k. repeat split; try lia.
    assert (Winbond.expects_data ins = true) as Hexp.
    { apply orb_true_iff in E.
      destruct E as [E|E]; apply Z.eqb_eq in E; subst instr;
        vm_compute in Hins; inversion Hins; reflexivity. }
    specialize (He Hexp). lia.
  - destruct (is_instruction instr).
    + bind_ok H ins Hins. bind_ok H u Hu. bind_ok H d Hd.
      inversion H; subst; clear H; simpl.
      apply dict_get_find in Hins.
      destruct (winbond_frames _ Hins) as [Hf He].
      exists (Winbond.size ins), d.
      destruct (Winbond.expects_data ins).
      * destruct (count_data_bytes_total (st_index st + Winbond.size ins) mosi)
          as (k & Hk & Hk1 & Hk2).
        rewrite Hk in Hd; inversion Hd; subst d.
        specialize (He eq_refl). repeat split; lia.
      * inversion Hd; subst d. repeat split; lia.
    + bind_ok H inv Hinv. inversion H; subst; clear H; simpl.
      exists 1, 0. repeat split; lia.
Qed.

Lemma mosi_loop_not_OutOfFuel (time mosi : list Z) (type_at : RangeDict) (fuel : nat) :
  forall st,
    (Z.to_nat (len mosi - st_index st) <= fuel)%nat ->
    mosi_loop fuel time mosi type_at st <> OutOfFuel.
Proof.
  induction fuel as [|fuel IH]; intros st Hf; simpl.
  - destruct (st_index st <? len mosi) eqn:E; [|discriminate].
    apply Z.ltb_lt in E. lia.
  - destruct (st_index st <? len mosi) eqn:E; [|discriminate].
    apply Z.ltb_lt in E.
    apply bind_not_OutOfFuel; [apply mosi_step_not_OutOfFuel|].
    intros st' Hst'. apply IH.
    destruct (mosi_step_advance _ _ _ _ Hst') as (f & d & _ & Hi & _ & Hf1 & Hd & _).
    lia.
Qed.

(** When the loop ends normally, [index] has advanced by exactly the
    samples that the instructions decoded meanwhile consume, it has reached
    the end of the stream, and it lies at most five samples past it. *)
Lemma mosi_loop_accounting (time mosi : list Z) (type_at : RangeDict) (fuel : nat) :
  forall st st',
    mosi_loop fuel time mosi type_at st = Ok st' ->
    exists decoded,
      st_trace st' = st_trace st ++ decoded
      /\ st_index st' = st_index st + samples_consumed decoded
      /\ st_instr_index st' = st_instr_index st + len decoded
      /\ len mosi <= st_index st'
      /\ (st_index st <= len mosi + 5 -> st_index st' <= len mosi + 5).
Proof.
  induction fuel as [|fuel IH]; intros st st' H; simpl in H.
  - destruct (st_index st <? len mosi) eqn:E; [discriminate|].
    apply Z.ltb_ge in E. inversion H; subst.
    exists []. rewrite app_nil_r. unfold len in *. simpl. repeat split; lia.
  - destruct (st_index st <? len mosi) eqn:E.
    + apply Z.ltb_lt in E. bind_ok H st1 Hst1.
      destruct (mosi_step_advance _ _ _ _ Hst1)
        as (f & d & Ht & Hi & Hn & Hf & Hd & Hb).
      destruct (IH _ _ H) as (dec & Ht' & Hi' & Hn' & Hend & Hb').
      exists ((f, d) :: dec). rewrite Ht', Ht, <- app_assoc. simpl.
      unfold len in *. cbn [List.length]. repeat split; lia.
    + apply Z.ltb_ge in E. inversion H; subst.
      exists []. rewrite app_nil_r. unfold len in *. simpl. repeat split; lia.
Qed.

(** *** The exceptions of Case 1 *)

Lemma bind_Raise {A B : Type} (m : result A) (f : A -> result B) (e : exn) :
  bind m f = Raise e -> m = Raise e \/ exists a, m = Ok a /\ f a = Raise e.
Proof.
  destruct m as [a| |]; simpl; intros H; try discriminate;
    [right; eauto | left; congruence].
Qed.

Lemma getitem_Raise {A : Type} (l : list A) (i : Z) (e : exn) :
  getitem l i = Raise e -> e = IndexError.
Proof.
  destruct (getitem_cases l i) as [(a & H & _)|H]; rewrite H; congruence.
Qed.

Lemma py_bytes_Raise (l : list Z) (e : exn) :
  py_bytes l = Raise e -> e = ValueError.
Proof. unfold py_bytes. destruct (forallb _ l); congruence. Qed.

Lemma count_data_bytes_Raise (base_addr : Z) (s : list Z) (e : exn) :
  count_data_bytes base_addr s <> Raise e.
Proof.
  destruct (count_data_bytes_total base_addr s) as (k & H & _).
  rewrite H. discriminate.
Qed.

Lemma dict_mem_set {K V : Type} (eqb : K -> K -> bool) (k k' : K) (v : V) (d : dict K V) :
  dict_mem eqb k' d = true -> dict_mem eqb k' (dict_set eqb k v d) = true.
Proof.
  unfold dict_mem. induction d as [|[k1 v1] d IH]; simpl; [discriminate|].
  destruct (eqb k k1); simpl; destruct (eqb k' k1); auto.
Qed.

Lemma dict_incr_mem {K : Type} (eqb : K -> K -> bool) (k : K) (d : dict K Z) :
  dict_mem eqb k d = true ->
  exists d', dict_incr eqb k d = Ok d'
             /\ forall k', dict_mem eqb k' d = true -> dict_mem eqb k' d' = true.
Proof.
  unfold dict_incr, dict_get, dict_mem at 1.
  destruct (dict_find eqb k d) as [n|]; [|discriminate]. intros _. simpl.
  eexists; split; [reflexivity|]. intros k'. apply dict_mem_set.
Qed.

Lemma counters_complete_initial (end_time : Z) :
  counters_complete (initial_state end_time).
Proof.
  intros instr ins H. apply dict_find_In in H. destruct H as (k & Hin & _).
  assert (forallb
            (fun kv : Z * Winbond.instruction =>
               dict_mem String.eqb (Winbond.name (snd kv))
                        unparsable_instructions_init)
            WINBOND_INSTRUCTIONS = true) as Hall by reflexivity.
  rewrite forallb_forall in Hall. exact (Hall _ Hin).
Qed.

Lemma is_instruction_find (instr : Z) :
  is_instruction instr = true ->
  exists ins, dict_find Z.eqb instr WINBOND_INSTRUCTIONS = Some ins.
Proof.
  unfold is_instruction, dict_mem.
  destruct (dict_find Z.eqb instr WINBOND_INSTRUCTIONS); [eauto|discriminate].
Qed.

Lemma mosi_step_counters (time mosi : list Z) (type_at : RangeDict) (st st' : state) :
  counters_complete st ->
  mosi_step time mosi type_at st = Ok st' ->
  counters_complete st'.
Proof.
  unfold mosi_step. intros Hinv H.
  bind_ok H instr Hinstr.
  destruct ((instr =? 3) || (instr =? 11)).
  - bind_ok H ins Hins. bind_ok H d Hd. bind_ok H ts Hts. bind_ok H te Hte.
    bind_ok H bs Hbs. inversion H; subst; clear H. exact Hinv.
  - destruct (is_instruction instr).
    + bind_ok H ins Hins. bind_ok H u Hu. bind_ok H d Hd.
      inversion H; subst; clear H.
      apply dict_get_find in Hins.
      destruct (dict_incr_mem String.eqb _ _ (Hinv _ _ Hins)) as (u' & Hu' & Hkeep).
      rewrite Hu' in Hu. inversion Hu; subst u'.
      intros i2 ins2 H2. simpl. apply Hkeep. exact (Hinv _ _ H2).
    + bind_ok H inv Hinv'. inversion H; subst; clear H. exact Hinv.
Qed.

(** An iteration raises only [IndexError], from a timestamp lookup past the
    end of [data['time']] (or from [data['mosi'][index]] itself), or
    [ValueError], from [bytes(...)] on a sample that is no byte. *)
Lemma mosi_step_Raise (time mosi : list Z) (type_at : RangeDict) (st : state) (e : exn) :
  counters_complete st ->
  mosi_step time mosi type_at st = Raise e ->
  e = IndexError \/ e = ValueError.
Proof.
  unfold mosi_step. intros Hinv H.
  apply bind_Raise in H. destruct H as [H|(instr & Hinstr & H)];
    [left; exact (getitem_Raise _ _ H)|].
  destruct ((instr =? 3) || (instr =? 11)) eqn:E.
  - assert (exists ins, dict_get Z.eqb instr WINBOND_INSTRUCTIONS = Ok ins) as (ins & Hins).
    { apply orb_true_iff in E.
      destruct E as [E|E]; apply Z.eqb_eq in E; subst instr;
        eexists; reflexivity. }
    rewrite Hins in H. simpl in H.
    apply bind_Raise in H. destruct H as [H|(d & Hd & H)];
      [exfalso; exact (count_data_bytes_Raise _ _ H)|].
    apply bind_Raise in H. destruct H as [H|(ts & Hts & H)];
      [left; exact (getitem_Raise _ _ H)|].
    apply bind_Raise in H. destruct H as [H|(te & Hte & H)];
      [left; exact (getitem_Raise _ _ H)|].
    apply bind_Raise in H. destruct H as [H|(bs & Hbs & H)];
      [right; exact (py_bytes_Raise _ H)|].
    discriminate.
  - destruct (is_instruction instr) eqn:I.
    + destruct (is_instruction_find _ I) as (ins & Hins).
      unfold dict_get in H. rewrite Hins in H. simpl in H.
      destruct (dict_incr_mem String.eqb _ _ (Hinv _ _ Hins)) as (u' & Hu' & _).
      rewrite Hu' in H. simpl in H.
      apply bind_Raise in H. destruct H as [H|(d & Hd & H)]; [|discriminate].
      destruct (Winbond.expects_data ins); [|discriminate].
      exfalso; exact (count_data_bytes_Raise _ _ H).
    + apply bind_Raise in H. destruct H as [H|(d & Hd & H)]; [|discriminate].
      destruct (dict_mem Z.eqb instr (st_invalid_instructions st)) eqn:M;
        [|discriminate].
      destruct (dict_incr_mem Z.eqb _ _ M) as (u' & Hu' & _).
      rewrite Hu' in H. discriminate.
Qed.

Lemma mosi_loop_Raise (time mosi : list Z) (type_at : RangeDict) (fuel : nat) (e : exn) :
  forall st,
    counters_complete st ->
    mosi_loop fuel time mosi type_at st = Raise e ->
    e = IndexError \/ e = ValueError.
Proof.
  induction fuel as [|fuel IH]; intros st Hinv H; simpl in H.
  - destruct (st_index st <? len mosi); discriminate.
  - destruct (st_index st <? len mosi); [|discriminate].
    apply bind_Raise in H. destruct H as [H|(st1 & Hst1 & H)].
    + exact (mosi_step_Raise _ _ _ Hinv H).
    + apply (IH st1); [|exact H]. exact (mosi_step_counters _ _ _ Hinv Hst1).
Qed.

(** C8, as amended.  Case 1 always ends: normally, or by [IndexError] or
    [ValueError].  When it ends normally, the samples consumed by the
    decoded instructions (frame length plus data length, summed over all of
    them) are those up to the final cursor: consecutive instructions
    neither overlap nor leave a gap.  That sum is at least the number of
    samples of the capture and at most five more: the last instruction is
    counted with its whole frame and with at least one data byte when it
    expects data, whether the capture still holds them or not. *)
Theorem decoded_instructions_cover_the_stream
    (time mosi : list Z) (type_at : RangeDict) (end_time : Z) :
  match decode_mosi time mosi type_at end_time with
  | Ok st =>
      samples_consumed (st_trace st) = st_index st
      /\ len (st_trace st) = st_instr_index st
      /\ len mosi <= samples_consumed (st_trace st) <= len mosi + 5
  | Raise e => e = IndexError \/ e = ValueError
  | OutOfFuel => False
  end.
Proof.
  unfold decode_mosi.
  destruct (mosi_loop (Datatypes.length mosi) time mosi type_at
              (initial_state end_time)) as [st|e|] eqn:H.
  - destruct (mosi_loop_accounting _ _ _ _ _ H) as (dec & Ht & Hi & Hn & Hend & Hb).
    simpl in Ht, Hi, Hn, Hb. subst dec.
    pose proof (len_nonneg mosi). repeat split; lia.
  - apply (mosi_loop_Raise _ _ _ _ (counters_complete_initial end_time) H).
  - revert H. apply mosi_loop_not_OutOfFuel. simpl. unfold len. lia.
Qed.

(** C8 as stated fails on the one-sample capture [0x9F] (JEDEC ID, frame
    length 1, expects data): the instruction is counted with one data byte
    that the capture does not hold, so two samples are consumed of one. *)
Lemma consumed_exceeds_capture_JEDEC :
  exists st,
    decode_mosi [0] [0x9F] [] 0 = Ok st
    /\ st_trace st = [(1, 1)]
    /\ samples_consumed (st_trace st) = 2
    /\ len [0x9F] = 1.
Proof. eexists. repeat split. Qed.

(** *** The decoder on degenerate captures *)

(** C1 fails on the code.  Whatever the firmware layout: the empty capture
    raises [IndexError] at [data['time'][0]]; the one-sample capture [0x03],
    a truncated read, raises [IndexError] at the end-time lookup; the
    quad-I/O capture without a read command raises [KeyError] when the
    block after the loop finalizes an access that was never opened; and
    [do_normalize_timestamps] raises [ValueError] on the empty
    collection. *)
Theorem degenerate_captures_raise (psptool : list Directory) :
  find_read_accesses {| time := []; mosi := Some []; value := None |} psptool
    = Raise IndexError
  /\ find_read_accesses {| time := [0]; mosi := Some [0x03]; value := None |} psptool
    = Raise IndexError
  /\ find_read_accesses {| time := [0; 1]; mosi := None; value := Some [0; 0] |} psptool
    = Raise KeyError
  /\ do_normalize_timestamps [] = Raise ValueError.
Proof. repeat split. Qed.

(** *** Read instructions *)

Lemma dict_find_set_same {V : Type} (k : Z) (v : V) (d : dict Z V) :
  dict_find Z.eqb k (dict_set Z.eqb k v d) = Some v.
Proof.
  induction d as [|[k1 v1] d IH]; simpl.
  - now rewrite Z.eqb_refl.
  - destruct (k =? k1) eqn:E; simpl; rewrite E; auto.
Qed.

(** What an iteration does at a read opcode, with every lookup named. *)
Lemma mosi_step_read (time mosi : list Z) (type_at : RangeDict) (st : state)
    (instr : Z) (ins : Winbond.instruction) (data_bytes ts te : Z) (bs : list Z) :
  getitem mosi (st_index st) = Ok instr ->
  (instr =? 0x03) || (instr =? 0x0b) = true ->
  dict_get Z.eqb instr WINBOND_INSTRUCTIONS = Ok ins ->
  count_data_bytes (st_index st + Winbond.size ins) mosi = Ok data_bytes ->
  getitem time (st_index st) = Ok ts ->
  getitem time (st_index st + data_bytes) = Ok te ->
  py_bytes (slice mosi (st_index st + 1) (st_index st + 4)) = Ok bs ->
  mosi_step time mosi type_at st =
  Ok {| st_read_accesses :=
          dict_set Z.eqb ts
            {| instr_index := st_instr_index st;
               start_time := ts;
               end_time := te;
               duration := te - ts;
               latency := ts - st_last_end_time st;
               address := from_bytes_big bs;
               size := data_bytes;
               type_ := RangeDict_getitem type_at (from_bytes_big bs);
               info := [];
               duplicate_count := None |}
            (st_read_accesses st);
        st_last_end_time := te;
        st_unparsable_instructions := st_unparsable_instructions st;
        st_invalid_instructions := st_invalid_instructions st;
        st_index := st_index st + (Winbond.size ins + data_bytes);
        st_instr_index := st_instr_index st + 1;
        st_end_time := te;
        st_trace := st_trace st ++ [(Winbond.size ins, data_bytes)] |}.
Proof.
  intros Hi Hr Hins Hd Hts Hte Hbs. unfold mosi_step.
  rewrite Hi. simpl. rewrite Hr, Hins. simpl. rewrite Hd. simpl.
  rewrite Hts. simpl. rewrite Hte. simpl. rewrite Hbs. reflexivity.
Qed.

(** The times of a read access, as the code computes them: the access that
    an iteration at a read opcode stores starts at the timestamp of the
    cursor and ends at the timestamp of [cursor + data length]; the frame
    length enters the advance of the cursor, not the end time. *)
Lemma read_access_times (time mosi : list Z) (type_at : RangeDict) (st st' : state)
    (instr : Z) :
  getitem mosi (st_index st) = Ok instr ->
  (instr =? 0x03) || (instr =? 0x0b) = true ->
  mosi_step time mosi type_at st = Ok st' ->
  exists ins data_bytes r,
    dict_get Z.eqb instr WINBOND_INSTRUCTIONS = Ok ins
    /\ count_data_bytes (st_index st + Winbond.size ins) mosi = Ok data_bytes
    /\ st_index st' = st_index st + (Winbond.size ins + data_bytes)
    /\ dict_find Z.eqb (start_time r) (st_read_accesses st') = Some r
    /\ size r = data_bytes
    /\ getitem time (st_index st) = Ok (start_time r)
    /\ getitem time (st_index st + data_bytes) = Ok (end_time r).
Proof.
  intros Hi Hr H. unfold mosi_step in H. rewrite Hi in H. simpl in H.
  rewrite Hr in H.
  bind_ok H ins Hins. bind_ok H d Hd. bind_ok H ts Hts. bind_ok H te Hte.
  bind_ok H bs Hbs. inversion H; subst; clear H. simpl.
  eexists ins, d, _. repeat split; try eassumption.
  - simpl. apply dict_find_set_same.
  - reflexivity.
  - simpl. exact Hts.
  - simpl. exact Hte.
Qed.

(** *** The 20-sample Read Data scenario *)

Lemma mosi_loop_unfold (fuel : nat) (time mosi : list Z) (type_at : RangeDict)
    (st : state) :
  mosi_loop (S fuel) time mosi type_at st =
  if st_index st <? len mosi
  then st' <- mosi_step time mosi type_at st ;;
       mosi_loop fuel time mosi type_at st'
  else Ok st.
Proof. reflexivity. Qed.

Lemma is_instruction_cases (b : Z) :
  is_instruction b = true -> In b (keys WINBOND_INSTRUCTIONS).
Proof.
  intros H. apply is_instruction_find in H. destruct H as (ins & H).
  apply dict_find_In in H. destruct H as (k & Hin & He).
  apply Z.eqb_eq in He. subst k.
  unfold keys. change b with (fst (b, ins)). now apply in_map.
Qed.

(** C2, as amended: sample 19 is an opcode of the catalog other than Read
    Data and Fast Read.  Then the count of data bytes stops at sample 19,
    the read has size 15, and decoding sample 19 adds no access. *)
Theorem read_data_scenario (times mid : list Z) (last : Z) (psptool : list Directory) :
  List.length times = 20%nat ->
  List.length mid = 15%nat ->
  Forall (fun b => is_instruction b = false) mid ->
  is_instruction last = true -> last <> 0x03 -> last <> 0x0B ->
  exists r,
    find_read_accesses
      {| time := times;
         mosi := Some ([0x03; 0x00; 0x01; 0x00] ++ mid ++ [last]);
         value := None |} psptool
    = Ok (Accesses [(start_time r, r)])
    /\ address r = 0x000100 /\ size r = 15 /\ instr_index r = 0.
Proof.
  intros Ht Hm Hmid Hlast H3 HB.
  do 20 (destruct times as [|? times]; [discriminate|]).
  destruct times; [|discriminate]. clear Ht.
  do 15 (destruct mid as [|? mid]; [discriminate|]).
  destruct mid; [|discriminate]. clear Hm.
  repeat match goal with
         | H : Forall _ (_ :: _) |- _ => inversion H; subst; clear H
         | H : Forall _ [] |- _ => clear H
         end.
  set (s := [3; 0; 1; 0] ++ _ ++ [last]).
  assert (count_data_bytes 4 s = Ok 15) as Hc.
  { apply count_data_bytes_spec; try lia.
    - intros j Hj.
      assert (j = 1 \/ j = 2 \/ j = 3 \/ j = 4 \/ j = 5 \/ j = 6 \/ j = 7
              \/ j = 8 \/ j = 9 \/ j = 10 \/ j = 11 \/ j = 12 \/ j = 13
              \/ j = 14) as Hcases by lia.
      repeat (destruct Hcases as [->|Hcases]; [eexists; split; [reflexivity|assumption]|]).
      subst j. eexists; split; [reflexivity|assumption].
    - right. exists last. split; [reflexivity|assumption]. }
  unfold find_read_accesses. cbn [time mosi value].
  change (getitem (z :: _) 0) with (Ok z). cbn [bind].
  unfold decode_mosi.
  change (Datatypes.length s) with 20%nat.
  rewrite mosi_loop_unfold.
  change (st_index (initial_state z) <? len s) with true. cbv iota.
  erewrite mosi_step_read; [| reflexivity | reflexivity | reflexivity
                             | exact Hc | reflexivity | reflexivity | reflexivity ].
  cbn [bind].
  exists {| instr_index := 0;
            start_time := z;
            end_time := z14;
            duration := z14 - z;
            latency := z - 0;
            address := 0x000100;
            size := 15;
            type_ := RangeDict_getitem (type_at_address_range psptool) 0x000100;
            info := [];
            duplicate_count := None |}.
  split; [|repeat split].
  apply is_instruction_cases in Hlast. simpl in Hlast.
  repeat (destruct Hlast as [<-|Hlast]; [try congruence; reflexivity|]).
  contradiction.
Qed.

Lemma read_data_scenario_witness :
  exists r,
    find_read_accesses
      {| time := map Z.of_nat (seq 0 20);
         mosi := Some ([0x03; 0x00; 0x01; 0x00] ++ repeat 0xFF 15 ++ [0x06]);
         value := None |} []
    = Ok (Accesses [(start_time r, r)])
    /\ address r = 0x000100 /\ size r = 15 /\ instr_index r = 0.
Proof.
  apply (@read_data_scenario (map Z.of_nat (seq 0 20)) (repeat 0xFF 15) 0x06 []).
  - reflexivity.
  - reflexivity.
  - repeat constructor.
  - reflexivity.
  - lia.
  - lia.
Defined.

(** C2 as stated leaves sample 19 free.  With a sample 19 that is no opcode
    the count runs to the end of the stream and the read has size 16. *)
Lemma read_data_scenario_size_16 :
  let s := [0x03; 0x00; 0x01; 0x00] ++ repeat 0xFF 16 in
  len s = 20
  /\ getitem s 0 = Ok 0x03
  /\ slice s 1 4 = [0x00; 0x01; 0x00]
  /\ forallb (fun b => negb (is_instruction b)) (slice s 4 19) = true
  /\ find_read_accesses
       {| time := map Z.of_nat (seq 0 20); mosi := Some s; value := None |} []
     = Ok (Accesses
             [(0, {| instr_index := 0;
                     start_time := 0;
                     end_time := 16;
                     duration := 16;
                     latency := 0;
                     address := 0x000100;
                     size := 16;
                     type_ := None;
                     info := [];
                     duplicate_count := None |})]).
Proof. repeat split. Qed.

(** C4 fails on the code.  In this capture the read at cursor 0 has frame
    length 4 and data length 15, so its end time should be the timestamp of
    sample 19, which is 1900; the access ends at 1500, the timestamp of
    sample 15, as [read_access_times] says of every read: the end-time
    lookup leaves the frame length out.  The start time is that of the
    cursor. *)
Theorem end_time_leaves_out_frame_length :
  let times := map (fun i => 100 * Z.of_nat i) (seq 0 20) in
  let s := [0x03; 0x00; 0x01; 0x00] ++ repeat 0xFF 15 ++ [0x06] in
  dict_get Z.eqb 0x03 WINBOND_INSTRUCTIONS = Ok (Instruction "Read Data" 4 true)
  /\ count_data_bytes (0 + 4) s = Ok 15
  /\ getitem times 0 = Ok 0
  /\ getitem times (0 + 4 + 15) = Ok 1900
  /\ getitem times (0 + 15) = Ok 1500
  /\ find_read_accesses {| time := times; mosi := Some s; value := None |} []
     = Ok (Accesses
             [(0, {| instr_index := 0;
                     start_time := 0;
                     end_time := 1500;
                     duration := 1500;
                     latency := 0;
                     address := 0x000100;
                     size := 15;
                     type_ := None;
                     info := [];
                     duplicate_count := None |})]).
Proof. repeat split. Qed.

(** *** Case 2 and the decoder as a whole end on every input *)

Lemma finalize_previous_not_OutOfFuel (time : list Z) (read_accesses : dict Z QAccess)
    (last_start_time index last_index : Z) :
  finalize_previous time read_accesses last_start_time index last_index
  <> OutOfFuel.
Proof.
  unfold finalize_previous.
  apply bind_not_OutOfFuel; [apply dict_get_not_OutOfFuel|]. intros p _.
  apply bind_not_OutOfFuel; [apply getitem_not_OutOfFuel|]. intros e _.
  discriminate.
Qed.

Lemma value_step_not_OutOfFuel (time values : list Z) (type_at : RangeDict)
    (st : qstate) :
  value_step time values type_at st <> OutOfFuel.
Proof.
  unfold value_step.
  apply bind_not_OutOfFuel; [apply getitem_not_OutOfFuel|]. intros v _.
  apply bind_not_OutOfFuel; [apply getitem_not_OutOfFuel|]. intros nv _.
  destruct (is_read_command v && (255 <? nv)); [|discriminate].
  apply bind_not_OutOfFuel; [apply getitem_not_OutOfFuel|]. intros ts _.
  apply bind_not_OutOfFuel; [|discriminate].
  destruct (0 <? qs_instr_index st);
    [apply finalize_previous_not_OutOfFuel|discriminate].
Qed.

Lemma value_step_advance (time values : list Z) (type_at : RangeDict)
    (st st' : qstate) :
  value_step time values type_at st = Ok st' ->
  qs_index st < qs_index st'.
Proof.
  unfold value_step. intros H.
  bind_ok H v Hv. bind_ok H nv Hnv.
  destruct (is_read_command v && (255 <? nv)).
  - bind_ok H ts Hts. bind_ok H fin Hfin. inversion H; subst; simpl. lia.
  - inversion H; subst; simpl. lia.
Qed.

Lemma value_loop_not_OutOfFuel (time values : list Z) (type_at : RangeDict)
    (fuel : nat) :
  forall st,
    (Z.to_nat (len values - 1 - qs_index st) <= fuel)%nat ->
    value_loop fuel time values type_at st <> OutOfFuel.
Proof.
  induction fuel as [|fuel IH]; intros st Hf; simpl.
  - destruct (qs_index st <? len values - 1) eqn:E; [|discriminate].
    apply Z.ltb_lt in E. lia.
  - destruct (qs_index st <? len values - 1) eqn:E; [|discriminate].
    apply Z.ltb_lt in E.
    apply bind_not_OutOfFuel; [apply value_step_not_OutOfFuel|].
    intros st' Hst'. apply IH.
    pose proof (value_step_advance _ _ _ _ Hst'). lia.
Qed.

(** With the fuel that the model gives its loops, [find_read_accesses]
    returns or raises on every capture and every firmware layout. *)
Lemma find_read_accesses_ends (data : raw) (psptool : list Directory) :
  find_read_accesses data psptool <> OutOfFuel.
Proof.
  unfold find_read_accesses.
  apply bind_not_OutOfFuel; [apply getitem_not_OutOfFuel|]. intros e _.
  destruct (mosi data) as [m|].
  - apply bind_not_OutOfFuel; [|discriminate].
    unfold decode_mosi. apply mosi_loop_not_OutOfFuel. simpl. unfold len. lia.
  - destruct (value data) as [v|]; [|discriminate].
    apply bind_not_OutOfFuel; [|discriminate].
    unfold decode_value.
    apply bind_not_OutOfFuel.
    + apply value_loop_not_OutOfFuel. simpl. unfold len. lia.
    + intros st _.
      apply bind_not_OutOfFuel; [apply finalize_previous_not_OutOfFuel|].
      discriminate.
Qed.

(** ** The address classifier *)

Lemma range_eqb_refl (r : range) : range_eqb r r = true.
Proof.
  unfold range_eqb. rewrite !Z.eqb_refl. now rewrite orb_true_r.
Qed.

(** A range that contains something is equal to itself only. *)
Lemma range_eqb_nonempty (r k : range) (x : Z) :
  range_contains r x = true ->
  range_eqb r k = true \/ range_eqb k r = true -> k = r.
Proof.
  unfold range_contains, range_eqb, range_len. intros Hc He.
  apply andb_prop in Hc. destruct Hc as [H1 H2].
  apply Z.leb_le in H1. apply Z.ltb_lt in H2.
  destruct r as [a b], k as [a' b']; simpl in *.
  assert (a' = a /\ b' = b) as [-> ->]; [|reflexivity].
  destruct He as [He|He]; apply andb_prop in He; destruct He as [He1 He2];
    apply Z.eqb_eq in He1; apply orb_prop in He2;
    destruct He2 as [He2|He2]; apply Z.eqb_eq in He2; lia.
Qed.

Lemma first_key_containing_None (x : Z) (d : RangeDict) :
  (forall k, In k (keys d) -> range_contains k x = false) ->
  first_key_containing x d = None.
Proof.
  induction d as [|[k v] d IH]; simpl; intros H; [reflexivity|].
  rewrite (H k) by now left. apply IH. intros k' Hk'. apply H. now right.
Qed.

Lemma first_key_containing_Some (x : Z) (d : RangeDict) (k : range) :
  first_key_containing x d = Some k -> range_contains k x = true.
Proof.
  induction d as [|[k1 v] d IH]; simpl; [discriminate|].
  destruct (range_contains k1 x) eqn:E; [|exact IH].
  intros H; inversion H; subst. exact E.
Qed.

Lemma first_key_containing_app (x : Z) (d0 rest : RangeDict) (r : range)
    (ty : region_type) :
  (forall k, In k (keys d0) -> range_contains k x = false) ->
  range_contains r x = true ->
  first_key_containing x (d0 ++ (r, ty) :: rest) = Some r.
Proof.
  induction d0 as [|[k v] d0 IH]; simpl; intros H Hr.
  - now rewrite Hr.
  - rewrite (H k) by now left. apply IH; [|exact Hr].
    intros k' Hk'. apply H. now right.
Qed.

Lemma dict_find_app (d0 rest : RangeDict) (r : range) (ty : region_type) :
  (forall k, In k (keys d0) -> range_eqb r k = false) ->
  dict_find range_eqb r (d0 ++ (r, ty) :: rest) = Some ty.
Proof.
  induction d0 as [|[k v] d0 IH]; simpl; intros H.
  - now rewrite range_eqb_refl.
  - rewrite (H k) by now left. apply IH. intros k' Hk'. apply H. now right.
Qed.

Lemma dict_set_fresh (d : RangeDict) (r : range) (ty : region_type) :
  (forall k, In k (keys d) -> range_eqb r k = false) ->
  dict_set range_eqb r ty d = d ++ [(r, ty)].
Proof.
  induction d as [|[k v] d IH]; simpl; intros H; [reflexivity|].
  rewrite (H k) by now left. f_equal. apply IH.
  intros k' Hk'. apply H. now right.
Qed.

(** Setting an item never removes or reorders keys; it can add its own. *)
Lemma keys_dict_set (d : RangeDict) (r : range) (ty : region_type) (k : range) :
  In k (keys (dict_set range_eqb r ty d)) -> In k (keys d) \/ k = r.
Proof.
  induction d as [|[k1 v1] d IH]; simpl.
  - intros [H|[]]; auto.
  - destruct (range_eqb r k1); simpl; intros [H|H]; auto.
    destruct (IH H); auto.
Qed.

Lemma keys_fold_dict_set (items : list (range * region_type)) :
  forall (d : RangeDict) (k : range),
    In k (keys (fold_left (fun d kv => dict_set range_eqb (fst kv) (snd kv) d)
                          items d)) ->
    In k (keys d) \/ In k (map fst items).
Proof.
  induction items as [|[r ty] items IH]; simpl; intros d k H; [now left|].
  destruct (IH _ _ H) as [H1|H1]; [|now auto].
  destruct (keys_dict_set _ _ _ _ H1); auto.
Qed.

(** A later item leaves an entry where it is, and its value alone unless
    its range is equal. *)
Lemma dict_set_keeps_entry (d0 rest : RangeDict) (r r' : range)
    (ty t' : region_type) :
  (range_eqb r' r = true -> t' = ty) ->
  exists d0' rest',
    dict_set range_eqb r' t' (d0 ++ (r, ty) :: rest) = d0' ++ (r, ty) :: rest'
    /\ keys d0' = keys d0.
Proof.
  intros Hsame. induction d0 as [|[k v] d0 IH]; simpl.
  - destruct (range_eqb r' r) eqn:E.
    + exists [], rest. rewrite (Hsame eq_refl). now split.
    + exists [], (dict_set range_eqb r' t' rest). now split.
  - destruct (range_eqb r' k).
    + exists ((k, t') :: d0), rest. now split.
    + destruct IH as (d0' & rest' & Heq & Hk).
      exists ((k, v) :: d0'), rest'. rewrite Heq. simpl. now rewrite Hk.
Qed.

Lemma fold_dict_set_keeps_entry (post : list (range * region_type)) (r : range)
    (ty : region_type) :
  (forall kv, In kv post -> range_eqb (fst kv) r = true -> snd kv = ty) ->
  forall d0 rest,
  exists d0' rest',
    fold_left (fun d kv => dict_set range_eqb (fst kv) (snd kv) d) post
              (d0 ++ (r, ty) :: rest)
    = d0' ++ (r, ty) :: rest'
    /\ keys d0' = keys d0.
Proof.
  induction post as [|[r' t'] post IH]; simpl; intros Hsame d0 rest.
  - exists d0, rest. now split.
  - destruct (@dict_set_keeps_entry d0 rest r r' ty t') as (d1 & rest1 & Heq & Hk).
    { apply (Hsame (r', t')). now left. }
    rewrite Heq.
    destruct (IH (fun kv H => Hsame kv (or_intror H)) d1 rest1)
      as (d2 & rest2 & Heq2 & Hk2).
    exists d2, rest2. split; [exact Heq2|congruence].
Qed.

(** The first registered range that contains an address decides its type,
    as long as no later item registers the identical range with another
    type. *)
Lemma first_registered_wins (pre post : list (range * region_type)) (r : range)
    (ty : region_type) (x : Z) :
  range_contains r x = true ->
  (forall kv, In kv pre -> range_contains (fst kv) x = false) ->
  (forall kv, In kv post -> range_eqb (fst kv) r = true -> snd kv = ty) ->
  RangeDict_getitem (RangeDict_of (pre ++ (r, ty) :: post)) x = Some ty.
Proof.
  intros Hr Hpre Hpost. unfold RangeDict_of. rewrite fold_left_app. simpl.
  match goal with
  | |- context [fold_left ?f pre []] => set (d0 := fold_left f pre [])
  end.
  assert (forall k, In k (keys d0) -> range_contains k x = false) as Hd0.
  { intros k Hk. apply keys_fold_dict_set in Hk. destruct Hk as [[]|Hk].
    apply in_map_iff in Hk. destruct Hk as (kv & <- & Hin). now apply Hpre. }
  assert (forall k, In k (keys d0) -> range_eqb r k = false) as Hne.
  { intros k Hk. destruct (range_eqb r k) eqn:E; [|reflexivity].
    rewrite (range_eqb_nonempty r k x Hr (or_introl E)) in Hk.
    specialize (Hd0 _ Hk). congruence. }
  rewrite dict_set_fresh by exact Hne.
  destruct (@fold_dict_set_keeps_entry post r ty Hpost d0 []) as (d1 & rest & Heq & Hk).
  rewrite Heq. unfold RangeDict_getitem.
  rewrite first_key_containing_app; [| rewrite Hk; exact Hd0 | exact Hr].
  apply dict_find_app. rewrite Hk. exact Hne.
Qed.

Lemma unregistered_is_None (items : list (range * region_type)) (x : Z) :
  (forall kv, In kv items -> range_contains (fst kv) x = false) ->
  RangeDict_getitem (RangeDict_of items) x = None.
Proof.
  intros H. unfold RangeDict_getitem.
  rewrite first_key_containing_None; [reflexivity|].
  intros k Hk. apply keys_fold_dict_set in Hk. destruct Hk as [[]|Hk].
  apply in_map_iff in Hk. destruct Hk as (kv & <- & Hin). now apply H.
Qed.

(** C6, as amended.  The classifier is [RangeDict_of] of the registered
    items, looked up with [RangeDict_getitem].  For the region
    [[a, a + n)] of type [ty], registered after [pre] and before [post]:
    its lower bound [a] resolves to [ty] when the region is not empty, no
    earlier region contains [a] and no later region registers the identical
    range with another type; any address resolves to the type of the first
    registered range that contains it, under the same proviso (so an earlier
    region that contains [a] wins); the lookup of [a + n] never stops at
    this region's range; and an address in no registered range resolves to
    [None]. *)
Theorem classifier_boundaries (pre post : list (range * region_type))
    (a n : Z) (ty : region_type) :
  let r := Range a (a + n) in
  let d := RangeDict_of (pre ++ (r, ty) :: post) in
  (0 < n ->
   (forall kv, In kv pre -> range_contains (fst kv) a = false) ->
   (forall kv, In kv post -> range_eqb (fst kv) r = true -> snd kv = ty) ->
   RangeDict_getitem d a = Some ty)
  /\ (forall x pre' r' ty' post',
        pre ++ (r, ty) :: post = pre' ++ (r', ty') :: post' ->
        range_contains r' x = true ->
        (forall kv, In kv pre' -> range_contains (fst kv) x = false) ->
        (forall kv, In kv post' -> range_eqb (fst kv) r' = true -> snd kv = ty') ->
        RangeDict_getitem d x = Some ty')
  /\ first_key_containing (a + n) d <> Some r
  /\ (forall x,
        (forall kv, In kv (pre ++ (r, ty) :: post) ->
                    range_contains (fst kv) x = false) ->
        RangeDict_getitem d x = None).
Proof.
  intros r d. repeat split.
  - intros Hn Hpre Hpost. apply first_registered_wins; auto.
    unfold range_contains, r. simpl.
    apply andb_true_intro. split; [apply Z.leb_le|apply Z.ltb_lt]; lia.
  - intros x pre' r' ty' post' Heq Hr Hpre Hpost. unfold d. rewrite Heq.
    apply first_registered_wins; auto.
  - intros H. apply first_key_containing_Some in H.
    unfold range_contains, r in H. simpl in H.
    apply andb_prop in H. destruct H as [_ H]. apply Z.ltb_lt in H. lia.
  - intros x H. apply unregistered_is_None. exact H.
Qed.

Lemma classifier_boundaries_witness :
  RangeDict_getitem
    (RangeDict_of [(Range 0x1000 (0x1000 + 0x100), Label "BOOT");
                   (Range 0x1100 (0x1100 + 0x80), EntryType 8);
                   (Range 0x20000 0x20040, Label "Firmware Entry Table")])
    0x1100
  = Some (EntryType 8).
Proof.
  apply (proj1 (@classifier_boundaries
                  [(Range 0x1000 (0x1000 + 0x100), Label "BOOT")]
                  [(Range 0x20000 0x20040, Label "Firmware Entry Table")]
                  0x1100 0x80 (EntryType 8))).
  - lia.
  - intros kv [<-|[]]. reflexivity.
  - intros kv [<-|[]]. discriminate.
Defined.

(** C6 as stated fails when a later item registers the identical range:
    here a directory that covers exactly the range of its one entry.  The
    entry is registered first, but the directory's label replaces its type,
    so the lower bound of the entry's region resolves to the directory.  It
    also fails for an empty region, whose lower bound resolves to nothing. *)
Lemma later_identical_range_wins :
  let entry := {| entry_address := 0x1000; buffer_size := 0x100;
                  entry_type := EntryType 1 |} in
  let empty := {| entry_address := 0x3000; buffer_size := 0;
                  entry_type := EntryType 2 |} in
  let psptool := [{| directory_address := 0x1000; directory_len := 0x100;
                     magic := "$PSP"; entries := [entry; empty] |}] in
  registered psptool
  = [(Range 0x1000 0x1100, EntryType 1);
     (Range 0x3000 0x3000, EntryType 2);
     (Range 0x1000 0x1100, Label "Directory: $PSP");
     (Range 0x20000 0x20040, Label "Firmware Entry Table")]
  /\ RangeDict_getitem (type_at_address_range psptool) 0x1000
     = Some (Label "Directory: $PSP")
  /\ RangeDict_getitem (type_at_address_range psptool) 0x3000 = None.
Proof. repeat split. Qed.

(** ** Timestamp normalization *)

Lemma dict_set_new {V : Type} (k : Z) (v : V) (d : dict Z V) :
  ~ In k (keys d) -> dict_set Z.eqb k v d = d ++ [(k, v)].
Proof.
  induction d as [|[k1 v1] d IH]; simpl; intros H; [reflexivity|].
  destruct (k =? k1) eqn:E.
  - apply Z.eqb_eq in E. subst. exfalso. apply H. now left.
  - f_equal. apply IH. intros Hin. apply H. now right.
Qed.

(** Rebuilding a dict item by item keeps its order: the keys are distinct. *)
Lemma rebuild_is_map {V W : Type} (f : V -> W) (d : dict Z V) :
  forall acc : dict Z W,
    NoDup (keys acc ++ keys d) ->
    fold_left (fun acc kv => dict_set Z.eqb (fst kv) (f (snd kv)) acc) d acc
    = acc ++ map (fun kv => (fst kv, f (snd kv))) d.
Proof.
  induction d as [|[k v] d IH]; simpl; intros acc H.
  - now rewrite app_nil_r.
  - rewrite dict_set_new.
    + rewrite IH.
      * now rewrite <- app_assoc.
      * unfold keys in *. rewrite map_app. simpl. rewrite <- app_assoc. exact H.
    + apply NoDup_remove_2 in H. intros Hin. apply H. apply in_or_app. now left.
Qed.

Lemma fold_min_shift (c : Z) (l : list Z) :
  forall x,
    fold_left Z.min (map (fun s => s - c) l) (x - c) = fold_left Z.min l x - c.
Proof.
  induction l as [|y l IH]; simpl; intros x; [reflexivity|].
  replace (Z.min (x - c) (y - c)) with (Z.min x y - c) by lia. apply IH.
Qed.

Lemma shift_times_0 (v : ReadAccess) : shift_times v 0 = v.
Proof.
  destruct v. unfold shift_times. simpl. f_equal; lia.
Qed.

Lemma py_min_shift (l : list Z) (m : Z) :
  py_min l = Ok m -> py_min (map (fun s => s - m) l) = Ok 0.
Proof.
  destruct l as [|x l]; simpl; [discriminate|]. intros H. inversion H as [Hm].
  rewrite fold_min_shift. f_equal. lia.
Qed.

Lemma do_normalize_timestamps_Ok (read_accesses : dict Z ReadAccess) (m : Z) :
  NoDup (keys read_accesses) ->
  py_min (map start_time (values read_accesses)) = Ok m ->
  do_normalize_timestamps read_accesses
  = Ok (map (fun kv => (fst kv, shift_times (snd kv) m)) read_accesses).
Proof.
  intros Hnd Hm. unfold do_normalize_timestamps. rewrite Hm. cbn [bind].
  now rewrite (rebuild_is_map (fun v => shift_times v m) read_accesses []).
Qed.

(** C7.  On a non-empty collection, normalizing returns; normalizing its
    result returns that result again; the minimum start time of the result
    is zero; and the result has the keys, the durations and the latencies
    of the input, in the same order. *)
Theorem normalization_idempotent (read_accesses : dict Z ReadAccess) :
  read_accesses <> [] ->
  NoDup (keys read_accesses) ->
  exists normalized,
    do_normalize_timestamps read_accesses = Ok normalized
    /\ do_normalize_timestamps normalized = Ok normalized
    /\ py_min (map start_time (values normalized)) = Ok 0
    /\ keys normalized = keys read_accesses
    /\ map duration (values normalized) = map duration (values read_accesses)
    /\ map latency (values normalized) = map latency (values read_accesses).
Proof.
  intros Hne Hnd.
  assert (exists m, py_min (map start_time (values read_accesses)) = Ok m)
    as (m & Hm).
  { destruct read_accesses; [congruence|]. simpl. eauto. }
  set (n := map (fun kv : Z * ReadAccess => (fst kv, shift_times (snd kv) m))
                read_accesses).
  assert (keys n = keys read_accesses) as Hk.
  { unfold n, keys. rewrite map_map. reflexivity. }
  assert (py_min (map start_time (values n)) = Ok 0) as Hmin.
  { unfold n, values. rewrite !map_map. cbn [snd shift_times start_time].
    rewrite <- (map_map (fun kv : Z * ReadAccess => start_time (snd kv))
                        (fun s => s - m)).
    apply py_min_shift. unfold values in Hm. now rewrite map_map in Hm. }
  exists n. repeat split.
  - now apply do_normalize_timestamps_Ok.
  - rewrite (@do_normalize_timestamps_Ok n 0); [| rewrite Hk; exact Hnd | exact Hmin].
    rewrite <- (map_id n) at 2. apply f_equal.
    apply map_ext. intros [k' v']. cbn [fst snd]. now rewrite shift_times_0.
    
  - exact Hmin.
  - exact Hk.
  - unfold n, values. rewrite !map_map. reflexivity.
  - unfold n, values. rewrite !map_map. reflexivity.
Qed.

Lemma normalization_idempotent_witness :
  let r t :=
    {| instr_index := 0; start_time := t; end_time := t + 3; duration := 3;
       latency := 1; address := 0x1000; size := 4; type_ := None; info := [];
       duplicate_count := None |} in
  exists normalized,
    do_normalize_timestamps [(700, r 700); (500, r 500)] = Ok normalized
    /\ do_normalize_timestamps normalized = Ok normalized
    /\ py_min (map start_time (values normalized)) = Ok 0
    /\ keys normalized = [700; 500]
    /\ map duration (values normalized) = [3; 3]
    /\ map latency (values normalized) = [1; 1].
Proof.
  intros r.
  apply (@normalization_idempotent [(700, r 700); (500, r 500)]).
  - discriminate.
  - repeat constructor; simpl; intuition lia.
Defined.

(** ** Type collapsing *)

Lemma getitem_last {A : Type} (l : list A) (x : A) : getitem (l ++ [x]) (-1) = Ok x.
Proof.
  unfold getitem. change (-1 <? 0) with true. cbv iota.
  rewrite len_app. change (len [x]) with 1.
  pose proof (len_nonneg l) as Hl.
  replace (len l + 1 + -1) with (len l) by lia.
  destruct (len l <? 0) eqn:E; [apply Z.ltb_lt in E; lia|].
  unfold len. rewrite Nat2Z.id.
  rewrite nth_error_app2 by lia. now rewrite Nat.sub_diag.
Qed.

Lemma set_last_app {A : Type} (l : list A) (x y : A) :
  set_last (l ++ [x]) y = Ok (l ++ [y]).
Proof. unfold set_last. rewrite getitem_last. simpl. now rewrite removelast_last. Qed.

Lemma collapse_loop_app (l1 l2 : list (Z * ReadAccess)) :
  forall st,
    collapse_loop st (l1 ++ l2)
    = (st1 <- collapse_loop st l1 ;; collapse_loop st1 l2).
Proof.
  induction l1 as [|x l1 IH]; simpl; intros st; [reflexivity|].
  destruct (collapse_step st x); simpl; auto.
Qed.

(** An access that fails the test becomes a record of its own, unchanged. *)
Lemma collapse_step_append (st : collapse_state) (t : Z) (values : ReadAccess) :
  collapses (last_access st) values = false ->
  collapse_step st (t, values)
  = Ok {| collapsed_read_accesses := collapsed_read_accesses st ++ [values];
          last_access := Some (last_access_of values) |}.
Proof. intros H. unfold collapse_step. cbn [snd]. now rewrite H. Qed.

(** An access that passes the test is merged into the last record. *)
Lemma collapse_step_merge (st : collapse_state) (t : Z) (values prev : ReadAccess)
    (l : list ReadAccess) :
  collapses (last_access st) values = true ->
  collapsed_read_accesses st = l ++ [prev] ->
  exists merged,
    collapse_step st (t, values)
    = Ok {| collapsed_read_accesses := l ++ [merged];
            last_access := Some (last_access_of values) |}
    /\ instr_index merged = instr_index prev
    /\ start_time merged = start_time prev
    /\ end_time merged = end_time values
    /\ duration merged = duration prev + duration values
    /\ latency merged = latency prev
    /\ address merged = address prev
    /\ size merged = size prev + size values
    /\ type_ merged = type_ prev
    /\ In "[c]" (info merged).
Proof.
  intros H Hl. unfold collapse_step. cbn [snd]. rewrite H, Hl.
  rewrite getitem_last. cbn [bind]. rewrite set_last_app. cbn [bind].
  eexists. split; [reflexivity|]. cbn. repeat split.
  assert (In "[c]" (append_once "[c]" (info prev))) as Hc.
  { unfold append_once. destruct (existsb (String.eqb "[c]") (info prev)) eqn:E.
    - apply existsb_exists in E. destruct E as (x & Hin & Hx).
      apply String.eqb_eq in Hx. now subst.
    - apply in_or_app. right. now left. }
  match goal with |- In _ (if ?c then _ else _) => destruct c end;
    [apply in_or_app; now left | exact Hc].
Qed.

(** The loop keeps a record to merge into whenever it has seen an access,
    so [collapsed_read_accesses[-1]] never raises. *)
Lemma collapse_step_total (st : collapse_state) (item : Z * ReadAccess) :
  (last_access st = None \/ collapsed_read_accesses st <> []) ->
  exists st',
    collapse_step st item = Ok st'
    /\ collapsed_read_accesses st' <> []
    /\ last_access st' = Some (last_access_of (snd item)).
Proof.
  intros Hinv. destruct item as [t values].
  destruct (collapses (last_access st) values) eqn:E.
  - destruct Hinv as [Hn|Hne]; [rewrite Hn in E; discriminate|].
    destruct (exists_last Hne) as (l & prev & Hl).
    destruct (@collapse_step_merge st t values prev l E Hl) as (m & Hm & _).
    eexists. split; [exact Hm|]. simpl. split; [|reflexivity].
    intros Habs. apply app_eq_nil in Habs. destruct Habs; discriminate.
  - rewrite collapse_step_append by exact E.
    eexists. split; [reflexivity|]. simpl. split; [|reflexivity].
    intros Habs. apply app_eq_nil in Habs. destruct Habs; discriminate.
Qed.

Lemma collapse_loop_total_from (items : list (Z * ReadAccess)) :
  forall st,
    (last_access st = None \/ collapsed_read_accesses st <> []) ->
    exists st',
      collapse_loop st items = Ok st'
      /\ (last_access st' = None \/ collapsed_read_accesses st' <> []).
Proof.
  induction items as [|item items IH]; simpl; intros st Hinv; [eauto|].
  destruct (@collapse_step_total st item Hinv) as (st1 & H1 & Hne & _).
  rewrite H1. simpl. apply IH. now right.
Qed.

Lemma collapse_loop_total (items : list (Z * ReadAccess)) :
  exists st, collapse_loop initial_collapse_state items = Ok st.
Proof.
  destruct (@collapse_loop_total_from items initial_collapse_state) as (st & H & _);
    [now left|eauto].
Qed.

(** After a non-empty run of accesses, [last_access] holds the last input
    access, whatever was merged. *)
Lemma collapse_loop_snoc (pre : list (Z * ReadAccess)) (t : Z) (values : ReadAccess) :
  exists st0 st,
    collapse_loop initial_collapse_state pre = Ok st0
    /\ collapse_step st0 (t, values) = Ok st
    /\ collapse_loop initial_collapse_state (pre ++ [(t, values)]) = Ok st
    /\ last_access st = Some (last_access_of values).
Proof.
  destruct (@collapse_loop_total_from pre initial_collapse_state) as (st0 & H0 & Hinv);
    [now left|].
  destruct (@collapse_step_total st0 (t, values) Hinv) as (st & H1 & _ & Hl).
  exists st0, st. repeat split; auto.
  rewrite collapse_loop_app, H0. simpl. now rewrite H1.
Qed.

Lemma region_type_eqb_eq (a b : region_type) :
  region_type_eqb a b = true <-> a = b.
Proof.
  destruct a, b; simpl; split; intros H; try discriminate.
  - apply Z.eqb_eq in H. now subst.
  - inversion H. apply Z.eqb_refl.
  - apply String.eqb_eq in H. now subst.
  - inversion H. apply String.eqb_refl.
Qed.

Lemma type_eqb_eq (a b : option region_type) :
  option_eqb region_type_eqb a b = true <-> a = b.
Proof.
  destruct a, b; simpl; split; intros H; try discriminate; auto.
  - apply region_type_eqb_eq in H. now subst.
  - inversion H. now apply region_type_eqb_eq.
Qed.

Lemma collapse_entry_types_snoc (read_accesses : dict Z ReadAccess)
    (pre : list (Z * ReadAccess)) (t : Z) (values : ReadAccess)
    (st st' : collapse_state) :
  sorted_items read_accesses = pre ++ [(t, values)] ->
  collapse_loop initial_collapse_state pre = Ok st ->
  collapse_step st (t, values) = Ok st' ->
  collapse_entry_types read_accesses
  = Ok (by_start_time (collapsed_read_accesses st')).
Proof.
  intros Hs Hpre Hstep. unfold collapse_entry_types.
  rewrite Hs, collapse_loop_app, Hpre. simpl. now rewrite Hstep.
Qed.

(** C10.  Whatever was merged before, [last_access] after the access [a2]
    holds the type, address and size of [a2] itself.  So the test for the
    next access [a3] is on [a2]'s type and [a2]'s address plus size, and an
    [a3] that starts beyond them is appended as a record of its own, also
    when [a2] was merged into a record whose span reaches further. *)
Theorem merge_test_uses_preceding_access (read_accesses : dict Z ReadAccess)
    (pre : list (Z * ReadAccess)) (t2 t3 : Z) (a2 a3 : ReadAccess) :
  sorted_items read_accesses = pre ++ [(t2, a2); (t3, a3)] ->
  exists st2,
    collapse_loop initial_collapse_state (pre ++ [(t2, a2)]) = Ok st2
    /\ last_access st2 = Some (last_access_of a2)
    /\ collapses (last_access st2) a3
       = option_eqb region_type_eqb (type_ a3) (type_ a2)
         && (address a3 <=? address a2 + size a2)
    /\ (address a2 + size a2 < address a3 ->
        collapse_entry_types read_accesses
        = Ok (by_start_time (collapsed_read_accesses st2 ++ [a3]))).
Proof.
  intros Hs.
  destruct (collapse_loop_snoc pre t2 a2) as (st1 & st2 & H1 & Hstep & H2 & Hl).
  exists st2. split; [exact H2|]. split; [exact Hl|].
  split; [now rewrite Hl|].
  intros Hbeyond.
  change (pre ++ [(t2, a2); (t3, a3)]) with (pre ++ [(t2, a2)] ++ [(t3, a3)]) in Hs.
  rewrite app_assoc in Hs.
  assert (collapses (last_access st2) a3 = false) as Hc.
  { rewrite Hl. cbn. apply andb_false_intro2. apply Z.leb_gt. lia. }
  rewrite (@collapse_entry_types_snoc _ _ _ _ _ _ Hs H2 (@collapse_step_append st2 t3 a3 Hc)).
  reflexivity.
Qed.

Lemma merge_test_uses_preceding_access_witness :
  let acc i t a s :=
    {| instr_index := i; start_time := t; end_time := t + 10; duration := 10;
       latency := 5; address := a; size := s; type_ := Some (Label "BOOT");
       info := []; duplicate_count := None |} in
  let a1 := acc 0 0 0x1000 0x100 in
  let a2 := acc 1 20 0x1000 0x10 in
  let a3 := acc 2 40 0x1080 0x10 in
  exists merged,
    collapse_loop initial_collapse_state [(0, a1); (20, a2)]
    = Ok {| collapsed_read_accesses := [merged];
            last_access := Some (last_access_of a2) |}
    /\ address merged = 0x1000 /\ size merged = 0x110
    /\ address merged <= address a3 < address merged + size merged
    /\ collapse_entry_types [(0, a1); (20, a2); (40, a3)]
       = Ok (by_start_time [merged; a3]).
Proof.
  intros acc a1 a2 a3.
  destruct (@merge_test_uses_preceding_access
              [(0, a1); (20, a2); (40, a3)] [(0, a1)] 20 40 a2 a3 eq_refl)
    as (st2 & H2 & _ & _ & Hbeyond).
  inversion H2; subst st2.
  eexists. split; [reflexivity|].
  split; [reflexivity|]. split; [reflexivity|]. split; [cbn; lia|].
  apply Hbeyond. cbn. lia.
Defined.

(** ** Overview reduction and the coprocessor annotation *)

Lemma known_key_eqb_refl (k : known_key) : known_key_eqb k k = true.
Proof.
  unfold known_key_eqb. apply andb_true_intro. split.
  - now apply type_eqb_eq.
  - apply Bool.eqb_reflx.
Qed.

(** The first access of a pair in a time block opens a row. *)
Lemma overview_step_open (st : overview_state) (t : Z) (values : ReadAccess) :
  dict_mem known_key_eqb (type_ values, is_ccp values)
    (if TIME_BLOCK_LATENCY_THRESHOLD <? latency_in_us values
     then [] else known_types st) = false ->
  overview_step st (t, values)
  = Ok {| overview_read_accesses :=
            dict_set Z.eqb t
              {| ov_values := values;
                 lowest_access := address values;
                 highest_access := address values + size values |}
              (overview_read_accesses st);
          known_types :=
            dict_set known_key_eqb (type_ values, is_ccp values) t
              (if TIME_BLOCK_LATENCY_THRESHOLD <? latency_in_us values
               then [] else known_types st) |}.
Proof.
  intros H. unfold overview_step. cbn [fst snd].
  match goal with
  | |- (if negb ?c then _ else _) = _ =>
      replace c with false by (symmetry; exact H)
  end.
  reflexivity.
Qed.

(** An access whose pair the block already knows widens that pair's row. *)
Lemma overview_step_widen (st : overview_state) (t original : Z)
    (values : ReadAccess) (row : OverviewAccess) :
  latency_in_us values <= TIME_BLOCK_LATENCY_THRESHOLD ->
  dict_find known_key_eqb (type_ values, is_ccp values) (known_types st)
    = Some original ->
  dict_find Z.eqb original (overview_read_accesses st) = Some row ->
  overview_step st (t, values)
  = Ok {| overview_read_accesses :=
            dict_set Z.eqb original
              {| ov_values := ov_values row;
                 lowest_access := Z.min (lowest_access row) (address values);
                 highest_access :=
                   Z.max (highest_access row) (address values + size values) |}
              (overview_read_accesses st);
          known_types := known_types st |}.
Proof.
  intros Hlat Hk Hrow. unfold overview_step. cbn [fst snd].
  rewrite (proj2 (Z.ltb_ge _ _) Hlat).
  unfold dict_mem, dict_get. rewrite Hk. cbn [negb bind]. rewrite Hrow.
  cbn [bind]. rewrite dict_find_set_same. cbn [bind ov_values lowest_access highest_access].
  f_equal. f_equal.
  generalize (overview_read_accesses st). intros d.
  induction d as [|[k v] d IH]; simpl.
  - rewrite Z.eqb_refl. reflexivity.
  - destruct (original =? k) eqn:E; simpl; rewrite E; [reflexivity|].
    now rewrite IH.
Qed.

Lemma annotate_ccp_flag (read_accesses : dict Z ReadAccess) :
  Forall (fun kv => ~ In "CCP" (info (snd kv))) read_accesses ->
  Forall (fun kv => is_ccp (snd kv) = (size (snd kv) =? 0x40))
         (annotate_ccp read_accesses).
Proof.
  intros H. unfold annotate_ccp. rewrite Forall_map.
  eapply Forall_impl; [|exact H]. intros [k v] Hno. cbn [fst snd] in *.
  destruct (size v =? 64) eqn:E; cbn [snd].
  - unfold is_ccp. cbn [set_info info size]. rewrite E.
    apply existsb_exists. exists "CCP". split; [|reflexivity].
    apply in_or_app. right. now left.
  - rewrite E. unfold is_ccp.
    destruct (existsb (String.eqb "CCP") (info v)) eqn:X; [|reflexivity].
    apply existsb_exists in X. destruct X as (x & Hin & Hx).
    apply String.eqb_eq in Hx. subst x. contradiction.
Qed.

(** C9.  [a1], [a2] and [a3] come in start-time order, all of one type;
    [a2] has the coprocessor flag of [a1].  The code compares latencies in
    whole microseconds, [latency // 1000 > 50]: so [a2], with a latency
    below 51000 ns, stays in the block, and [a3], with a latency of 51000
    ns or more, starts a new one.  Then [a1] and [a2] alone reduce to one
    row, under the key of [a1], spanning from the lower of the two
    addresses to the higher of the two ends; with [a3] there is a second
    row, under the key of [a3], spanning [a3].  And once
    [PSPTrace.__init__] has annotated accesses that carried no ['CCP'] tag,
    the flag of an access is set exactly when its size is 0x40. *)
Theorem overview_rows (two three : dict Z ReadAccess) (t1 t2 t3 : Z)
    (a1 a2 a3 : ReadAccess) :
  sorted_items two = [(t1, a1); (t2, a2)] ->
  sorted_items three = [(t1, a1); (t2, a2); (t3, a3)] ->
  t1 < t2 -> t2 < t3 ->
  type_ a2 = type_ a1 -> is_ccp a2 = is_ccp a1 ->
  latency a2 < (TIME_BLOCK_LATENCY_THRESHOLD + 1) * 1000 ->
  type_ a3 = type_ a1 ->
  (TIME_BLOCK_LATENCY_THRESHOLD + 1) * 1000 <= latency a3 ->
  let row12 :=
    {| ov_values := a1;
       lowest_access := Z.min (address a1) (address a2);
       highest_access := Z.max (address a1 + size a1) (address a2 + size a2) |} in
  let row3 :=
    {| ov_values := a3;
       lowest_access := address a3;
       highest_access := address a3 + size a3 |} in
  get_overview_read_accesses two = Ok [(t1, row12)]
  /\ get_overview_read_accesses three = Ok [(t1, row12); (t3, row3)]
  /\ forall read_accesses,
       Forall (fun kv => ~ In "CCP" (info (snd kv))) read_accesses ->
       Forall (fun kv => is_ccp (snd kv) = (size (snd kv) =? 0x40))
              (annotate_ccp read_accesses).
Proof.
  intros Htwo Hthree H12 H23 Hty2 Hccp2 Hns2 Hty3 Hns3 row12 row3.
  assert (latency_in_us a2 <= TIME_BLOCK_LATENCY_THRESHOLD) as Hlat2.
  { unfold latency_in_us.
    assert (latency a2 / 1000 < TIME_BLOCK_LATENCY_THRESHOLD + 1);
      [apply Z.div_lt_upper_bound; lia|lia]. }
  assert (TIME_BLOCK_LATENCY_THRESHOLD < latency_in_us a3) as Hlat3.
  { unfold latency_in_us.
    assert (TIME_BLOCK_LATENCY_THRESHOLD + 1 <= latency a3 / 1000);
      [apply Z.div_le_lower_bound; lia|lia]. }
  set (st0 := {| overview_read_accesses := []; known_types := [] |}).
  assert (overview_step st0 (t1, a1)
          = Ok {| overview_read_accesses :=
                    [(t1, {| ov_values := a1;
                             lowest_access := address a1;
                             highest_access := address a1 + size a1 |})];
                  known_types := [((type_ a1, is_ccp a1), t1)] |}) as S1.
  { rewrite overview_step_open.
    - cbn [overview_read_accesses known_types st0].
      destruct (TIME_BLOCK_LATENCY_THRESHOLD <? latency_in_us a1); reflexivity.
    - cbn [known_types st0].
      destruct (TIME_BLOCK_LATENCY_THRESHOLD <? latency_in_us a1); reflexivity. }
  set (st1 := {| overview_read_accesses := [(t1, _)]; known_types := _ |}) in S1.
  assert (overview_step st1 (t2, a2)
          = Ok {| overview_read_accesses := [(t1, row12)];
                  known_types := [((type_ a1, is_ccp a1), t1)] |}) as S2.
  { rewrite (@overview_step_widen st1 t2 t1 a2
               {| ov_values := a1;
                  lowest_access := address a1;
                  highest_access := address a1 + size a1 |} Hlat2).
    - cbn. rewrite Z.eqb_refl. reflexivity.
    - cbn [known_types st1 dict_find]. rewrite Hty2, Hccp2.
      now rewrite known_key_eqb_refl.
    - cbn. now rewrite Z.eqb_refl. }
  set (st2 := {| overview_read_accesses := [(t1, row12)]; known_types := _ |}) in S2.
  assert (overview_step st2 (t3, a3)
          = Ok {| overview_read_accesses := [(t1, row12); (t3, row3)];
                  known_types := [((type_ a3, is_ccp a3), t3)] |}) as S3.
  { rewrite overview_step_open.
    - rewrite (proj2 (Z.ltb_lt _ _) Hlat3). cbn.
      rewrite (proj2 (Z.eqb_neq t3 t1)) by lia. reflexivity.
    - rewrite (proj2 (Z.ltb_lt _ _) Hlat3). reflexivity. }
  split; [|split].
  - unfold get_overview_read_accesses. rewrite Htwo. cbn [overview_loop].
    fold st0. rewrite S1. cbn [bind]. rewrite S2. reflexivity.
  - unfold get_overview_read_accesses. rewrite Hthree. cbn [overview_loop].
    fold st0. rewrite S1. cbn [bind]. rewrite S2. cbn [bind]. rewrite S3.
    reflexivity.
  - exact annotate_ccp_flag.
Qed.

Lemma overview_rows_witness :
  let acc i t lat a s :=
    {| instr_index := i; start_time := t; end_time := t + 1000; duration := 1000;
       latency := lat; address := a; size := s; type_ := Some (Label "BOOT");
       info := []; duplicate_count := None |} in
  let a1 := acc 0 0 0 0x1000 0x10 in
  let a2 := acc 1 11000 10000 0x1020 0x10 in
  let a3 := acc 2 112000 100000 0x1040 0x40 in
  get_overview_read_accesses [(0, a1); (11000, a2)]
  = Ok [(0, {| ov_values := a1; lowest_access := 0x1000;
               highest_access := 0x1030 |})]
  /\ get_overview_read_accesses [(0, a1); (11000, a2); (112000, a3)]
     = Ok [(0, {| ov_values := a1; lowest_access := 0x1000;
                  highest_access := 0x1030 |});
           (112000, {| ov_values := a3; lowest_access := 0x1040;
                       highest_access := 0x1080 |})]
  /\ Forall (fun kv => is_ccp (snd kv) = (size (snd kv) =? 0x40))
            (annotate_ccp [(0, a1); (11000, a2); (112000, a3)]).
Proof.
  intros acc a1 a2 a3.
  destruct (@overview_rows [(0, a1); (11000, a2)]
              [(0, a1); (11000, a2); (112000, a3)] 0 11000 112000 a1 a2 a3)
    as (H2 & H3 & Hflag);
    try reflexivity; try (cbn; lia); try (vm_compute; congruence).
  split; [exact H2|]. split; [exact H3|].
  apply Hflag. repeat constructor; cbn; tauto.
Defined.

(** C9 as stated fails for a latency that is above the threshold by less
    than a microsecond: 50999 ns is more than 50 microseconds, but
    [50999 // 1000] is 50, which is not above the constant, so the third
    access opens no row and widens the first one. *)
Lemma latency_just_above_threshold_opens_no_row :
  let acc i t lat a s :=
    {| instr_index := i; start_time := t; end_time := t + 1000; duration := 1000;
       latency := lat; address := a; size := s; type_ := Some (Label "BOOT");
       info := []; duplicate_count := None |} in
  let a1 := acc 0 0 0 0x1000 0x10 in
  let a2 := acc 1 11000 10000 0x1020 0x10 in
  let a3 := acc 2 62999 50999 0x1040 0x10 in
  TIME_BLOCK_LATENCY_THRESHOLD * 1000 < latency a3
  /\ get_overview_read_accesses [(0, a1); (11000, a2); (62999, a3)]
     = Ok [(0, {| ov_values := a1; lowest_access := 0x1000;
                  highest_access := 0x1050 |})].
Proof. split; reflexivity. Qed.

(** The accesses that Case 1 stores carry no tag, so the annotation of
    [PSPTrace.__init__] marks exactly the reads of size 0x40 among them. *)
Lemma Forall_dict_set {V : Type} (P : V -> Prop) (k : Z) (v : V) (d : dict Z V) :
  Forall (fun kv => P (snd kv)) d -> P v ->
  Forall (fun kv => P (snd kv)) (dict_set Z.eqb k v d).
Proof.
  intros Hd Hv. induction d as [|[k1 v1] d IH]; simpl.
  - constructor; [exact Hv|constructor].
  - inversion Hd; subst. destruct (k =? k1); constructor; auto.
Qed.

Lemma mosi_step_untagged (time mosi : list Z) (type_at : RangeDict) (st st' : state) :
  Forall (fun kv => info (snd kv) = []) (st_read_accesses st) ->
  mosi_step time mosi type_at st = Ok st' ->
  Forall (fun kv => info (snd kv) = []) (st_read_accesses st').
Proof.
  unfold mosi_step. intros Hinv H.
  bind_ok H instr Hinstr.
  destruct ((instr =? 3) || (instr =? 11)).
  - bind_ok H ins Hins. bind_ok H d Hd. bind_ok H ts Hts. bind_ok H te Hte.
    bind_ok H bs Hbs. inversion H; subst; clear H. cbn [st_read_accesses].
    apply (Forall_dict_set (fun v => info v = [])); [exact Hinv|reflexivity].
  - destruct (is_instruction instr).
    + bind_ok H ins Hins. bind_ok H u Hu. bind_ok H d Hd.
      inversion H; subst; clear H. exact Hinv.
    + bind_ok H inv Hinv'. inversion H; subst; clear H. exact Hinv.
Qed.

Lemma mosi_loop_untagged (time mosi : list Z) (type_at : RangeDict) (fuel : nat) :
  forall st st',
    Forall (fun kv => info (snd kv) = []) (st_read_accesses st) ->
    mosi_loop fuel time mosi type_at st = Ok st' ->
    Forall (fun kv => info (snd kv) = []) (st_read_accesses st').
Proof.
  induction fuel as [|fuel IH]; intros st st' Hinv H; simpl in H.
  - destruct (st_index st <? len mosi); [discriminate|].
    inversion H; subst. exact Hinv.
  - destruct (st_index st <? len mosi).
    + bind_ok H st1 Hst1. apply (IH st1 st'); [|exact H].
      exact (mosi_step_untagged _ _ _ _ Hinv Hst1).
    + inversion H; subst. exact Hinv.
Qed.

Lemma decoded_accesses_ccp_flag (time mosi : list Z) (type_at : RangeDict)
    (end_time : Z) (st : state) :
  decode_mosi time mosi type_at end_time = Ok st ->
  Forall (fun kv => is_ccp (snd kv) = (size (snd kv) =? 0x40))
         (annotate_ccp (st_read_accesses st)).
Proof.
  intros H. apply annotate_ccp_flag.
  apply (mosi_loop_untagged _ _ _ _ (initial_state end_time)) in H;
    [|constructor].
  eapply Forall_impl; [|exact H]. intros kv Hkv. rewrite Hkv. intros [].
Qed.

(** ** Duplicate aggregation *)

Lemma sorted_items_sorted {V : Type} (d : dict Z V) :
  StronglySorted Z.lt (keys d) -> sorted_items d = d.
Proof.
  induction d as [|[k v] d IH]; simpl; intros H; [reflexivity|].
  inversion H as [|? ? Hs Hall]; subst.
  unfold sorted_items in *. simpl. rewrite (IH Hs).
  destruct d as [|[k' v'] d]; [reflexivity|]. simpl.
  inversion Hall as [|? ? Hlt _]; subst.
  now rewrite (proj2 (Z.ltb_lt k k') Hlt).
Qed.

Lemma sorted_keys_NoDup (l : list Z) : StronglySorted Z.lt l -> NoDup l.
Proof.
  induction 1 as [|k l Hs IH Hall]; constructor; auto.
  intros Hin. rewrite Forall_forall in Hall. specialize (Hall _ Hin). lia.
Qed.

Lemma dict_find_skip {V : Type} (k : Z) (s l : dict Z V) :
  ~ In k (keys s) -> dict_find Z.eqb k (s ++ l) = dict_find Z.eqb k l.
Proof.
  induction s as [|[k1 v1] s IH]; simpl; intros H; [reflexivity|].
  destruct (k =? k1) eqn:E.
  - apply Z.eqb_eq in E. subst. exfalso. apply H. now left.
  - apply IH. intros Hin. apply H. now right.
Qed.

Lemma dict_set_skip {V : Type} (k : Z) (v : V) (s l : dict Z V) :
  ~ In k (keys s) -> dict_set Z.eqb k v (s ++ l) = s ++ dict_set Z.eqb k v l.
Proof.
  induction s as [|[k1 v1] s IH]; simpl; intros H; [reflexivity|].
  destruct (k =? k1) eqn:E.
  - apply Z.eqb_eq in E. subst. exfalso. apply H. now left.
  - f_equal. apply IH. intros Hin. apply H. now right.
Qed.

Lemma dict_remove_skip {V : Type} (k : Z) (s l : dict Z V) :
  ~ In k (keys s) -> dict_remove Z.eqb k (s ++ l) = s ++ dict_remove Z.eqb k l.
Proof.
  induction s as [|[k1 v1] s IH]; simpl; intros H; [reflexivity|].
  destruct (k =? k1) eqn:E.
  - apply Z.eqb_eq in E. subst. exfalso. apply H. now left.
  - f_equal. apply IH. intros Hin. apply H. now right.
Qed.

(** The first access of a run, with the window empty, becomes an original
    with count 1. *)
Lemma aggregate_step_original (s todo : dict Z ReadAccess) (t : Z) (v : ReadAccess) :
  ~ In t (keys s) ->
  aggregate_step
    {| aggregated_accesses := s ++ (t, v) :: todo;
       recent_addresses := [];
       recent_originals := [] |} (t, v)
  = Ok {| aggregated_accesses := s ++ (t, set_duplicate_count v 1) :: todo;
          recent_addresses := [address v];
          recent_originals := [t] |}.
Proof.
  intros Hs. unfold aggregate_step. cbn [fst snd recent_addresses existsb negb
    aggregated_accesses recent_originals].
  unfold dict_get. rewrite dict_find_skip by exact Hs.
  cbn [dict_find]. rewrite Z.eqb_refl. cbn [bind].
  rewrite dict_set_skip by exact Hs. cbn [dict_set]. rewrite Z.eqb_refl.
  reflexivity.
Qed.

(** A later access of the run, with the original [t] in the window at count
    [c]: it is counted if [c] is below the maximum, else it evicts the
    window slot; either way it is deleted. *)
Lemma aggregate_step_duplicate (s todo : dict Z ReadAccess) (t t' c : Z)
    (r v : ReadAccess) :
  ~ In t (keys s) -> ~ In t' (keys s) -> t' <> t ->
  aggregate_step
    {| aggregated_accesses :=
         s ++ (t, set_duplicate_count r c) :: (t', v) :: todo;
       recent_addresses := [address v];
       recent_originals := [t] |} (t', v)
  = Ok (if c <? MAXIMUM_AGGREGATION_COUNT
        then {| aggregated_accesses :=
                  s ++ (t, set_duplicate_count r (c + 1)) :: todo;
                recent_addresses := [address v];
                recent_originals := [t] |}
        else {| aggregated_accesses :=
                  s ++ (t, set_duplicate_count r c) :: todo;
                recent_addresses := [];
                recent_originals := [] |}).
Proof.
  intros Hs Hs' Hne. unfold aggregate_step.
  cbn [fst snd recent_addresses existsb aggregated_accesses recent_originals].
  rewrite Z.eqb_refl. cbn [orb negb deque_index]. rewrite Z.eqb_refl.
  cbn [bind]. change (getitem [t] 0) with (Ok t). cbn [bind].
  unfold dict_get. rewrite dict_find_skip by exact Hs.
  cbn [dict_find]. rewrite Z.eqb_refl. cbn [bind].
  change (get_duplicate_count (set_duplicate_count r c)) with (Ok c).
  cbn [bind].
  assert ((t' =? t) = false) as Hneb by (apply Z.eqb_neq; exact Hne).
  destruct (c <? MAXIMUM_AGGREGATION_COUNT).
  - cbn [bind aggregated_accesses recent_addresses recent_originals].
    rewrite dict_set_skip by exact Hs. cbn [dict_set]. rewrite Z.eqb_refl.
    unfold dict_del, dict_mem. rewrite dict_find_skip by exact Hs'.
    cbn [dict_find]. rewrite Hneb, Z.eqb_refl. cbn [bind].
    rewrite dict_remove_skip by exact Hs'. cbn [dict_remove].
    rewrite Hneb, Z.eqb_refl. reflexivity.
  - change (deque_del 0 [address v]) with (Ok (@nil Z)).
    change (deque_del 0 [t]) with (Ok (@nil Z)).
    cbn [bind aggregated_accesses recent_addresses recent_originals].
    unfold dict_del, dict_mem. rewrite dict_find_skip by exact Hs'.
    cbn [dict_find]. rewrite Hneb, Z.eqb_refl. cbn [bind].
    rewrite dict_remove_skip by exact Hs'. cbn [dict_remove].
    rewrite Hneb, Z.eqb_refl. reflexivity.
Qed.

(** On a run of accesses to one address the first loop is [run_survivors]:
    the survivors so far [s] stay, and of the original in the window and
    the accesses still to come it leaves what [run_survivors] says. *)
Lemma aggregate_loop_run (A : Z) (todo : list (Z * ReadAccess)) :
  forall (s : dict Z ReadAccess) (cur : option (Z * ReadAccess * Z)),
    Forall (fun kv => address (snd kv) = A) todo ->
    NoDup (keys s
           ++ match cur with None => [] | Some (t, _, _) => [t] end
           ++ keys todo) ->
    exists w1 w2,
      aggregate_loop
        {| aggregated_accesses :=
             s ++ match cur with
                  | None => []
                  | Some (t, r, c) => [(t, set_duplicate_count r c)]
                  end ++ todo;
           recent_addresses := match cur with None => [] | Some _ => [A] end;
           recent_originals :=
             match cur with None => [] | Some (t, _, _) => [t] end |}
        todo
      = Ok {| aggregated_accesses := s ++ run_survivors cur todo;
              recent_addresses := w1;
              recent_originals := w2 |}.
Proof.
  induction todo as [|[t' v] todo IH]; intros s cur HA Hnd.
  - destruct cur as [[[t r] c]|]; simpl; eauto.
  - pose proof (Forall_inv HA) as Hv. pose proof (Forall_inv_tail HA) as HA'.
    cbn [snd] in Hv.
    destruct cur as [[[t r] c]|].
    + change (NoDup (keys s ++ t :: t' :: keys todo)) in Hnd.
      assert (~ In t (keys s)) as Hts.
      { intros Hin. apply NoDup_remove_2 in Hnd. apply Hnd.
        apply in_or_app. now left. }
      assert (NoDup (keys s ++ t' :: keys todo)) as Hnd1.
      { now apply NoDup_remove_1 in Hnd. }
      assert (~ In t' (keys s)) as Hts'.
      { intros Hin. apply NoDup_remove_2 in Hnd1. apply Hnd1.
        apply in_or_app. now left. }
      assert (t' <> t) as Hne.
      { intros ->. apply NoDup_remove_2 in Hnd. apply Hnd.
        apply in_or_app. right. now left. }
      cbn [aggregate_loop app]. rewrite <- Hv.
      rewrite aggregate_step_duplicate by assumption. cbn [bind run_survivors].
      rewrite Hv.
      destruct (c <? MAXIMUM_AGGREGATION_COUNT).
      * apply (IH s (Some (t, r, c + 1)) HA').
        cbn [app].
        replace (keys s ++ t :: t' :: keys todo)
          with ((keys s ++ [t]) ++ t' :: keys todo) in Hnd
          by (now rewrite <- app_assoc).
        apply NoDup_remove_1 in Hnd. now rewrite <- app_assoc in Hnd.
      * destruct (IH (s ++ [(t, set_duplicate_count r c)]) None HA')
          as (w1 & w2 & Hloop).
        { cbn [app]. unfold keys at 1. rewrite map_app. cbn [map fst].
          fold (keys s).
          replace (keys s ++ t :: t' :: keys todo)
            with ((keys s ++ [t]) ++ t' :: keys todo) in Hnd
            by (now rewrite <- app_assoc).
          now apply NoDup_remove_1 in Hnd. }
        cbn [app] in Hloop. rewrite <- app_assoc in Hloop. cbn [app] in Hloop.
        rewrite Hloop. exists w1, w2. now rewrite <- app_assoc.
    + change (NoDup (keys s ++ t' :: keys todo)) in Hnd.
      assert (~ In t' (keys s)) as Hts'.
      { intros Hin. apply NoDup_remove_2 in Hnd. apply Hnd.
        apply in_or_app. now left. }
      cbn [aggregate_loop app].
      rewrite aggregate_step_original by assumption. cbn [bind run_survivors].
      rewrite Hv.
      apply (IH s (Some (t', v, 1)) HA'). exact Hnd.
Qed.

Lemma run_survivors_count (items : list (Z * ReadAccess)) :
  forall cur : option (Z * ReadAccess * Z),
    match cur with
    | None => True
    | Some (_, _, c) => 1 <= c <= MAXIMUM_AGGREGATION_COUNT
    end ->
    len (run_survivors cur items)
    = (len items + match cur with None => 0 | Some (_, _, c) => c end
       + MAXIMUM_AGGREGATION_COUNT) / (MAXIMUM_AGGREGATION_COUNT + 1)
    /\ total_multiplicity (run_survivors cur items)
       = len items + match cur with None => 0 | Some (_, _, c) => c end
         - (len items + match cur with None => 0 | Some (_, _, c) => c end)
           / (MAXIMUM_AGGREGATION_COUNT + 1).
Proof.
  unfold MAXIMUM_AGGREGATION_COUNT.
  induction items as [|[t' v] items IH]; intros cur Hc.
  - destruct cur as [[[t r] c]|]; unfold len; simpl.
    + split.
      * apply Z.div_unique with (r := c - 1); lia.
      * rewrite Z.div_small by lia. lia.
    + split; reflexivity.
  - assert (len ((t', v) :: items) = len items + 1) as Hlen
        by (unfold len; simpl List.length; lia).
    rewrite Hlen. pose proof (len_nonneg items) as Hn.
    destruct cur as [[[t r] c]|]; cbn [run_survivors].
    + unfold MAXIMUM_AGGREGATION_COUNT. destruct (c <? 8) eqn:E.
      * apply Z.ltb_lt in E.
        destruct (IH (Some (t, r, c + 1))) as [H1 H2]; [lia|].
        rewrite H1, H2.
        replace (len items + (c + 1)) with (len items + 1 + c) by lia.
        split; reflexivity.
      * apply Z.ltb_ge in E. assert (c = 8) as -> by lia.
        destruct (IH None) as [H1 H2]; [exact I|].
        assert (len ((t, set_duplicate_count r 8) :: run_survivors None items)
                = len (run_survivors None items) + 1) as Hl
            by (unfold len; simpl List.length; lia).
        rewrite Hl, H1. cbn [total_multiplicity fold_right snd
                               duplicate_count set_duplicate_count].
        fold (total_multiplicity (run_survivors None items)). rewrite H2.
        replace (len items + 1 + 8 + 8) with (len items + 0 + 8 + 1 * 9) by lia.
        replace (len items + 1 + 8) with (len items + 0 + 1 * 9) by lia.
        rewrite !Z.div_add by lia. split; lia.
    + destruct (IH (Some (t', v, 1))) as [H1 H2]; [lia|].
      rewrite H1, H2.
      replace (len items + 1 + 0) with (len items + 1) by lia.
      split; reflexivity.
Qed.

Lemma run_survivors_origin (items : list (Z * ReadAccess)) :
  forall cur : option (Z * ReadAccess * Z),
    match cur with
    | None => True
    | Some (_, _, c) => 1 <= c <= MAXIMUM_AGGREGATION_COUNT
    end ->
    Forall (fun kv =>
              exists v n,
                In (fst kv, v)
                   (match cur with None => [] | Some (t, r, _) => [(t, r)] end
                    ++ items)
                /\ 1 <= n <= MAXIMUM_AGGREGATION_COUNT
                /\ snd kv = set_duplicate_count v n)
           (run_survivors cur items).
Proof.
  induction items as [|[t' v] items IH]; intros cur Hc.
  - destruct cur as [[[t r] c]|]; simpl; constructor; [|constructor].
    exists r, c. simpl. auto.
  - destruct cur as [[[t r] c]|]; cbn [run_survivors].
    + destruct (c <? MAXIMUM_AGGREGATION_COUNT) eqn:E.
      * apply Z.ltb_lt in E.
        specialize (IH (Some (t, r, c + 1))). cbn beta iota in IH.
        eapply Forall_impl; [|apply IH; lia].
        intros kv (v0 & n & Hin & Hn & Hkv). exists v0, n.
        repeat split; try tauto. simpl in *. tauto.
      * constructor.
        -- exists r, c. simpl. auto.
        -- specialize (IH None I). cbn beta iota in IH.
           eapply Forall_impl; [|exact IH].
           intros kv (v0 & n & Hin & Hn & Hkv). exists v0, n.
           repeat split; try tauto. simpl in *. tauto.
    + specialize (IH (Some (t', v, 1))). cbn beta iota in IH.
      eapply Forall_impl; [|apply IH; unfold MAXIMUM_AGGREGATION_COUNT; lia].
      intros kv (v0 & n & Hin & Hn & Hkv). exists v0, n.
      repeat split; try tauto.
Qed.

(** A run no longer than the maximum leaves its first access alone, with
    the length of the run as its count. *)
Lemma run_survivors_short (items : list (Z * ReadAccess)) :
  forall t r c,
    c + len items <= MAXIMUM_AGGREGATION_COUNT ->
    run_survivors (Some (t, r, c)) items
    = [(t, set_duplicate_count r (c + len items))].
Proof.
  induction items as [|[t' v] items IH]; intros t r c Hc.
  - unfold len. simpl. now rewrite Z.add_0_r.
  - assert (len ((t', v) :: items) = len items + 1) as Hlen
        by (unfold len; simpl List.length; lia).
    rewrite Hlen in *. pose proof (len_nonneg items) as Hn.
    cbn [run_survivors]. rewrite (proj2 (Z.ltb_lt _ _)) by lia.
    rewrite IH by lia. do 3 f_equal. lia.
Qed.

(** The second loop tags every survivor with its count. *)
Lemma annotate_counts_tagged (run d : dict Z ReadAccess) :
  Forall (fun kv =>
            exists v n, In (fst kv, v) run
                        /\ 1 <= n <= MAXIMUM_AGGREGATION_COUNT
                        /\ snd kv = set_duplicate_count v n) d ->
  exists out,
    annotate_counts d = Ok out
    /\ len out = len d
    /\ total_multiplicity out = total_multiplicity d
    /\ Forall (fun kv =>
                 exists v n, In (fst kv, v) run
                             /\ 1 <= n <= MAXIMUM_AGGREGATION_COUNT
                             /\ snd kv = tagged v n) out.
Proof.
  induction 1 as [|[t r] d (v & n & Hin & Hn & Hr) Hall (out & Ho & Hl & Ht & Hf)].
  - exists []. repeat split. constructor.
  - cbn [fst snd] in *. subst r. cbn [annotate_counts].
    change (get_duplicate_count (set_duplicate_count v n)) with (Ok n).
    cbn [bind]. rewrite Ho. cbn [bind].
    eexists. split; [reflexivity|]. repeat split.
    + unfold len in *. simpl List.length. lia.
    + unfold total_multiplicity in *. cbn. now rewrite Ht.
    + constructor; [|exact Hf]. exists v, n. repeat split; auto; lia.
Qed.

(** C3, as amended.  A run of accesses to one address, presented in
    start-time order.  The originals that survive are accesses of the run,
    each tagged with its multiplicity, which is between 1 and the maximum.
    An original counts itself and the next occurrences up to the maximum;
    the occurrence after that evicts it from the window and is dropped
    without being counted; the one after that is the next original.  So of
    [N] occurrences [(N + MAX) / (MAX + 1)] originals survive, and their
    multiplicities sum to [N - N / (MAX + 1)].  A run of at most [MAX]
    occurrences leaves its first access alone, with multiplicity [N]. *)
Theorem aggregation_of_a_run (run : dict Z ReadAccess) (A : Z) :
  StronglySorted Z.lt (keys run) ->
  Forall (fun kv => address (snd kv) = A) run ->
  exists out,
    aggregate_duplicates run = Ok out
    /\ len out
       = (len run + MAXIMUM_AGGREGATION_COUNT) / (MAXIMUM_AGGREGATION_COUNT + 1)
    /\ total_multiplicity out
       = len run - len run / (MAXIMUM_AGGREGATION_COUNT + 1)
    /\ Forall (fun kv =>
                 exists v n, In (fst kv, v) run
                             /\ 1 <= n <= MAXIMUM_AGGREGATION_COUNT
                             /\ snd kv = tagged v n) out
    /\ (1 <= len run <= MAXIMUM_AGGREGATION_COUNT ->
        exists t v, hd_error run = Some (t, v)
                    /\ out = [(t, tagged v (len run))]).
Proof.
  intros Hsorted HA. unfold aggregate_duplicates.
  rewrite sorted_items_sorted by exact Hsorted.
  destruct (@aggregate_loop_run A run [] None HA) as (w1 & w2 & Hloop).
  { cbn [app keys map]. apply sorted_keys_NoDup. exact Hsorted. }
  cbn [app] in Hloop. rewrite Hloop. cbn [bind aggregated_accesses].
  destruct (@annotate_counts_tagged run (run_survivors None run))
    as (out & Hout & Hlen & Htot & Hall).
  { exact (run_survivors_origin run None I). }
  destruct (run_survivors_count run None I) as [Hc1 Hc2].
  exists out. split; [exact Hout|].
  split; [rewrite Hlen, Hc1; f_equal; lia|].
  split; [rewrite Htot, Hc2; f_equal; [lia | f_equal; lia]|].
  split; [exact Hall|].
  intros [H1 H8]. destruct run as [|[t v] rest]; [unfold len in H1; simpl in H1; lia|].
  exists t, v. split; [reflexivity|].
  assert (len ((t, v) :: rest) = 1 + len rest) as Hl
      by (unfold len; simpl List.length; lia).
  cbn [run_survivors] in Hout. rewrite run_survivors_short in Hout by lia.
  rewrite Hl. cbn in Hout. inversion Hout. reflexivity.
Qed.

Lemma aggregation_of_a_run_witness :
  let acc t :=
    {| instr_index := t; start_time := t; end_time := t + 1; duration := 1;
       latency := 0; address := 0x1000; size := 4; type_ := None; info := [];
       duplicate_count := None |} in
  aggregate_duplicates [(0, acc 0); (1, acc 1); (2, acc 2)]
  = Ok [(0, tagged (acc 0) 3)].
Proof.
  intros acc.
  destruct (@aggregation_of_a_run [(0, acc 0); (1, acc 1); (2, acc 2)] 0x1000)
    as (out & Hout & _ & _ & _ & Hshort).
  - repeat constructor.
  - repeat constructor.
  - destruct Hshort as (t & v & Hhd & ->); [vm_compute; split; discriminate|].
    inversion Hhd; subst. exact Hout.
Defined.

(** C3 as stated fails for [N] above the maximum.  Of nine accesses to one
    address a single original survives, not two, and its multiplicity is 8:
    the ninth occurrence is counted by no survivor.  Of ten, two survive,
    with multiplicities 8 and 1. *)
Lemma ninth_occurrence_is_lost :
  let acc t :=
    {| instr_index := t; start_time := t; end_time := t + 1; duration := 1;
       latency := 0; address := 0x1000; size := 4; type_ := None; info := [];
       duplicate_count := None |} in
  let run n := map (fun i => (Z.of_nat i, acc (Z.of_nat i))) (seq 0 n) in
  len (run 9%nat) = 9
  /\ aggregate_duplicates (run 9%nat) = Ok [(0, tagged (acc 0) 8)]
  /\ aggregate_duplicates (run 10%nat)
     = Ok [(0, tagged (acc 0) 8); (9, tagged (acc 9) 1)].
Proof. repeat split. Qed.

(** * Further properties of the code *)

Unset Implicit Arguments.

(** ** [count_data_bytes] *)

Lemma count_data_bytes_loop_sound (fuel : nat) (base_addr : Z) (s : list Z) :
  forall data_bytes,
    (Z.to_nat (len s - (base_addr + data_bytes)) < fuel)%nat ->
    exists k,
      count_data_bytes_loop fuel base_addr s data_bytes = Ok k
      /\ data_bytes <= k
      /\ (forall j, data_bytes <= j < k ->
            exists b, getitem s (base_addr + j) = Ok b
                      /\ is_instruction b = false)
      /\ (getitem s (base_addr + k) = Raise IndexError
          \/ exists b, getitem s (base_addr + k) = Ok b
                       /\ is_instruction b = true).
Proof.
  induction fuel as [|fuel IH]; intros d Hf; [lia|].
  simpl. destruct (getitem_cases s (base_addr + d)) as [(b & Hb & Hlt)|Hr].
  - rewrite Hb. destruct (is_instruction b) eqn:E; simpl.
    + exists d. repeat split; try lia. right. eauto.
    + destruct (IH (d + 1)) as (k & Hk & Hle & Hskip & Hstop); [lia|].
      exists k. repeat split; auto; try lia.
      intros j Hj. destruct (Z.eq_dec j d) as [->|Hne]; [eauto|].
      apply Hskip. lia.
  - rewrite Hr. exists d. repeat split; try lia. now left.
Qed.

(** [count_data_bytes] returns on every input, swallowing the
    [IndexError].  Its result [k] is at least 1; the samples at distance 1
    to [k - 1] from [base_addr] are no opcode bytes; and the sample at
    distance [k] is an opcode byte or lies outside the stream.  The sample
    at [base_addr] itself is not among those looked at. *)
Theorem count_data_bytes_characterized (base_addr : Z) (s : list Z) :
  exists k,
    count_data_bytes base_addr s = Ok k
    /\ 1 <= k
    /\ (forall j, 1 <= j < k ->
          exists b, getitem s (base_addr + j) = Ok b
                    /\ is_instruction b = false)
    /\ (getitem s (base_addr + k) = Raise IndexError
        \/ exists b, getitem s (base_addr + k) = Ok b
                     /\ is_instruction b = true).
Proof.
  unfold count_data_bytes.
  apply count_data_bytes_loop_sound. unfold len. lia.
Qed.

Lemma getitem_app_other {A : Type} (l1 l2 : list A) (x y : A) (i : Z) :
  0 <= i -> i <> len l1 ->
  getitem (l1 ++ x :: l2) i = getitem (l1 ++ y :: l2) i.
Proof.
  intros H0 Hne. unfold getitem.
  rewrite (proj2 (Z.ltb_ge i 0) H0).
  destruct (Z_lt_ge_dec i (len l1)) as [Hlt|Hge].
  - rewrite !nth_error_app1 by (unfold len in Hlt; lia). reflexivity.
  - rewrite !nth_error_app2 by (unfold len in Hge; lia).
    assert (exists n, (Z.to_nat i - List.length l1)%nat = S n) as (n & ->).
    { exists (Z.to_nat i - List.length l1 - 1)%nat. unfold len in *. lia. }
    reflexivity.
Qed.

Lemma count_data_bytes_loop_first_byte (fuel : nat) (l1 l2 : list Z) (x y : Z) :
  forall data_bytes,
    1 <= data_bytes ->
    count_data_bytes_loop fuel (len l1) (l1 ++ x :: l2) data_bytes
    = count_data_bytes_loop fuel (len l1) (l1 ++ y :: l2) data_bytes.
Proof.
  pose proof (len_nonneg l1) as Hl.
  induction fuel as [|fuel IH]; intros d Hd; [reflexivity|].
  simpl. rewrite (getitem_app_other l1 l2 x y (len l1 + d)) by lia.
  destruct (getitem (l1 ++ y :: l2) (len l1 + d)) as [b|e|]; try reflexivity.
  destruct (negb (is_instruction b)); [|reflexivity].
  apply IH. lia.
Qed.

(** The first returned byte is never inspected: whatever the sample at
    [base_addr] is, an opcode byte or not, the count is the same. *)
Theorem count_data_bytes_ignores_first_byte (l1 l2 : list Z) (x y : Z) :
  count_data_bytes (len l1) (l1 ++ x :: l2)
  = count_data_bytes (len l1) (l1 ++ y :: l2).
Proof.
  unfold count_data_bytes. rewrite !length_app. cbn [List.length].
  apply count_data_bytes_loop_first_byte. lia.
Qed.

(** ** Case 1 of the decoder: the accesses it stores *)

Lemma getitem_In {A : Type} (l : list A) (i : Z) (a : A) :
  getitem l i = Ok a -> In a l.
Proof.
  unfold getitem. destruct ((if i <? 0 then len l + i else i) <? 0); [discriminate|].
  destruct (nth_error l _) eqn:N; [|discriminate].
  intros H; inversion H; subst. eapply nth_error_In; eassumption.
Qed.

Lemma keys_dict_set_Z {V : Type} (k : Z) (v : V) (d : dict Z V) :
  keys (dict_set Z.eqb k v d) = keys d
  \/ (~ In k (keys d) /\ keys (dict_set Z.eqb k v d) = keys d ++ [k]).
Proof.
  induction d as [|[k1 v1] d IH]; simpl.
  - right. split; [tauto|reflexivity].
  - destruct (k =? k1) eqn:E; simpl.
    + now left.
    + apply Z.eqb_neq in E. destruct IH as [IH|[Hn IH]].
      * left. now rewrite IH.
      * right. split; [|now rewrite IH]. intros [H|H]; [congruence|tauto].
Qed.

Lemma NoDup_keys_dict_set {V : Type} (k : Z) (v : V) (d : dict Z V) :
  NoDup (keys d) -> NoDup (keys (dict_set Z.eqb k v d)).
Proof.
  intros H. destruct (keys_dict_set_Z k v d) as [->|[Hn ->]]; [exact H|].
  apply NoDup_app; [exact H | repeat constructor; tauto |].
  intros x Hx [<-|[]]. contradiction.
Qed.

Lemma Forall_dict_set_pair {V : Type} (P : Z * V -> Prop) (k : Z) (v : V)
    (d : dict Z V) :
  Forall P d -> P (k, v) -> Forall P (dict_set Z.eqb k v d).
Proof.
  intros Hd Hv. induction d as [|[k1 v1] d IH]; simpl.
  - constructor; [exact Hv|constructor].
  - inversion Hd; subst. destruct (k =? k1) eqn:E; constructor; auto.
    apply Z.eqb_eq in E. now subst.
Qed.

Lemma from_bytes_big_bound (bs : list Z) :
  forall acc,
    0 <= acc ->
    Forall (fun b => 0 <= b < 256) bs ->
    0 <= fold_left (fun acc b => acc * 256 + b) bs acc
      < (acc + 1) * 256 ^ len bs.
Proof.
  induction bs as [|b bs IH]; intros acc Hacc Hb.
  - unfold len. simpl. lia.
  - inversion Hb as [|? ? Hb1 Hb2]; subst. cbn [fold_left].
    specialize (IH (acc * 256 + b) ltac:(lia) Hb2).
    assert (len (b :: bs) = len bs + 1) as -> by (unfold len; simpl List.length; lia).
    pose proof (len_nonneg bs) as Hn.
    rewrite Z.pow_add_r by lia. change (256 ^ 1) with 256.
    assert (0 < 256 ^ len bs) by (apply Z.pow_pos_nonneg; lia).
    nia.
Qed.

Lemma py_bytes_Ok (l bs : list Z) :
  py_bytes l = Ok bs -> bs = l /\ Forall (fun b => 0 <= b < 256) l.
Proof.
  unfold py_bytes. destruct (forallb _ l) eqn:E; [|discriminate].
  intros H; inversion H; subst. split; [reflexivity|].
  rewrite forallb_forall in E. apply Forall_forall. intros x Hx.
  specialize (E x Hx). apply andb_prop in E. destruct E as [E1 E2].
  apply Z.leb_le in E1. apply Z.ltb_lt in E2. lia.
Qed.

Lemma slice_length_le {A : Type} (l : list A) (lo : Z) :
  len (slice l (lo + 1) (lo + 4)) <= 3.
Proof.
  unfold slice, len. rewrite length_firstn.
  replace (lo + 4 - (lo + 1)) with 3 by lia. lia.
Qed.

(** The address of a read is a number of at most 24 bits. *)
Lemma read_address_bound (mosi bs : list Z) (index : Z) :
  py_bytes (slice mosi (index + 1) (index + 4)) = Ok bs ->
  0 <= from_bytes_big bs < 2 ^ 24.
Proof.
  intros H. apply py_bytes_Ok in H. destruct H as [-> Hb].
  pose proof (from_bytes_big_bound _ 0 ltac:(lia) Hb) as Hbound.
  pose proof (slice_length_le mosi index) as Hl.
  pose proof (len_nonneg (slice mosi (index + 1) (index + 4))) as Hn.
  unfold from_bytes_big.
  assert (256 ^ len (slice mosi (index + 1) (index + 4)) <= 256 ^ 3)
    by (apply Z.pow_le_mono_r; lia).
  change (2 ^ 24) with (256 ^ 3). lia.
Qed.

Lemma decoded_access_ok_weaken (time : list Z) (type_at : RangeDict)
    (b1 b2 : Z) (kv : Z * ReadAccess) :
  b1 <= b2 ->
  decoded_access_ok time type_at b1 kv -> decoded_access_ok time type_at b2 kv.
Proof. unfold decoded_access_ok. intros Hb H. intuition lia. Qed.

Lemma mosi_step_keeps_ok (time mosi : list Z) (type_at : RangeDict)
    (st st' : state) :
  0 <= st_instr_index st ->
  NoDup (keys (st_read_accesses st)) ->
  Forall (decoded_access_ok time type_at (st_instr_index st))
         (st_read_accesses st) ->
  mosi_step time mosi type_at st = Ok st' ->
  NoDup (keys (st_read_accesses st'))
  /\ Forall (decoded_access_ok time type_at (st_instr_index st'))
            (st_read_accesses st').
Proof.
  intros Hi Hnd Hall H.
  destruct (mosi_step_advance _ _ _ _ H) as (f & d & _ & _ & Hn & _).
  assert (Forall (decoded_access_ok time type_at (st_instr_index st'))
                 (st_read_accesses st)) as Hall'.
  { eapply Forall_impl; [|exact Hall]. intros kv.
    apply decoded_access_ok_weaken. lia. }
  unfold mosi_step in H.
  bind_ok H instr Hinstr.
  destruct ((instr =? 3) || (instr =? 11)) eqn:E.
  - bind_ok H ins Hins. bind_ok H k Hk. bind_ok H ts Hts. bind_ok H te Hte.
    bind_ok H bs Hbs. inversion H; subst st'; clear H.
    cbn [st_read_accesses st_instr_index] in *. split.
    + now apply NoDup_keys_dict_set.
    + apply Forall_dict_set_pair; [exact Hall'|].
      destruct (count_data_bytes_total (st_index st + Winbond.size ins) mosi)
        as (k' & Hk' & Hk1 & _).
      rewrite Hk' in Hk. inversion Hk; subst k'.
      unfold decoded_access_ok. cbn.
      repeat split; try lia.
      * exact (getitem_In _ _ _ Hts).
      * exact (getitem_In _ _ _ Hte).
      * apply (read_address_bound _ _ _ Hbs).
      * apply (read_address_bound _ _ _ Hbs).
  - destruct (is_instruction instr).
    + bind_ok H ins Hins. bind_ok H u Hu. bind_ok H k Hk.
      inversion H; subst st'; clear H. cbn [st_read_accesses] in *. now split.
    + bind_ok H inv Hinv. inversion H; subst st'; clear H.
      cbn [st_read_accesses] in *. now split.
Qed.

Lemma mosi_loop_keeps_ok (time mosi : list Z) (type_at : RangeDict) (fuel : nat) :
  forall st st',
    0 <= st_instr_index st ->
    NoDup (keys (st_read_accesses st)) ->
    Forall (decoded_access_ok time type_at (st_instr_index st))
           (st_read_accesses st) ->
    mosi_loop fuel time mosi type_at st = Ok st' ->
    NoDup (keys (st_read_accesses st'))
    /\ Forall (decoded_access_ok time type_at (st_instr_index st'))
              (st_read_accesses st').
Proof.
  induction fuel as [|fuel IH]; intros st st' Hi Hnd Hall H; simpl in H.
  - destruct (st_index st <? len mosi); [discriminate|].
    inversion H; subst. now split.
  - destruct (st_index st <? len mosi).
    + bind_ok H st1 Hst1.
      destruct (mosi_step_keeps_ok _ _ _ _ _ Hi Hnd Hall Hst1) as [Hnd1 Hall1].
      destruct (mosi_step_advance _ _ _ _ Hst1) as (f & d & _ & _ & Hn & _).
      apply (IH st1 st'); auto. lia.
    + inversion H; subst. now split.
Qed.

(** The loop counts an instruction per iteration and every iteration
    consumes at least one sample, so the count never passes the number of
    samples. *)
Lemma mosi_loop_instr_bound (time mosi : list Z) (type_at : RangeDict)
    (fuel : nat) :
  forall st st',
    st_instr_index st <= st_index st ->
    st_instr_index st <= len mosi ->
    mosi_loop fuel time mosi type_at st = Ok st' ->
    st_instr_index st' <= len mosi.
Proof.
  induction fuel as [|fuel IH]; intros st st' Hi Hl H; simpl in H.
  - destruct (st_index st <? len mosi); [discriminate|].
    inversion H; subst. exact Hl.
  - destruct (st_index st <? len mosi) eqn:E.
    + apply Z.ltb_lt in E. bind_ok H st1 Hst1.
      destruct (mosi_step_advance _ _ _ _ Hst1) as (f & d & _ & Hx & Hn & Hf & Hd & _).
      apply (IH st1 st'); [lia | lia | exact H].
    + inversion H; subst. exact Hl.
Qed.

(** Every access that the decoder returns for a single-line capture is
    stored under its start time, which like its end time is a timestamp of
    the capture; its duration is end minus start; its size is at least 1;
    its address has at most 24 bits and its type is what the classifier
    says of that address; it carries no tag and no multiplicity; and its
    instruction index is at least 0 and below the number of samples of the
    capture.  The keys are distinct. *)
Theorem decoded_accesses_well_formed (data : raw) (data_mosi : list Z)
    (psptool : list Directory) (read_accesses : dict Z ReadAccess) :
  mosi data = Some data_mosi ->
  find_read_accesses data psptool = Ok (Accesses read_accesses) ->
  NoDup (keys read_accesses)
  /\ Forall (decoded_access_ok (time data) (type_at_address_range psptool)
               (len data_mosi))
            read_accesses.
Proof.
  intros Hm H. unfold find_read_accesses in H. rewrite Hm in H.
  bind_ok H e He. bind_ok H st Hst. inversion H; subst; clear H.
  unfold decode_mosi in Hst.
  destruct (mosi_loop_keeps_ok (time data) data_mosi
              (type_at_address_range psptool) (List.length data_mosi)
              (initial_state e) st)
    as [Hnd Hall];
    [cbn; lia | cbn; constructor | cbn; constructor | exact Hst | ].
  split; [exact Hnd|].
  assert (st_instr_index st <= len data_mosi) as Hb.
  { apply (mosi_loop_instr_bound (time data) data_mosi
             (type_at_address_range psptool) (List.length data_mosi)
             (initial_state e) st); [cbn; lia | | exact Hst].
    cbn. apply len_nonneg. }
  eapply Forall_impl; [|exact Hall]. intros kv.
  apply decoded_access_ok_weaken. exact Hb.
Qed.

Lemma decoded_accesses_well_formed_witness :
  let data :=
    {| time := [0; 10; 20; 30; 40; 50; 60; 70];
       mosi := Some [0x03; 0x00; 0x01; 0x00; 0xFF; 0xFF; 0xFF; 0x06];
       value := None |} in
  exists read_accesses,
    find_read_accesses data [] = Ok (Accesses read_accesses)
    /\ NoDup (keys read_accesses)
    /\ Forall (decoded_access_ok (time data) (type_at_address_range []) 8)
              read_accesses.
Proof.
  intros data. eexists. split; [reflexivity|].
  apply (decoded_accesses_well_formed data
           [0x03; 0x00; 0x01; 0x00; 0xFF; 0xFF; 0xFF; 0x06] []);
    reflexivity.
Defined.

(** ** Case 1 of the decoder: when it returns *)

Lemma getitem_inside (A : Type) (l : list A) (i : Z) :
  0 <= i < len l -> exists a, getitem l i = Ok a.
Proof.
  intros Hi. unfold getitem.
  destruct (i <? 0) eqn:E; [apply Z.ltb_lt in E; lia|]. rewrite E.
  destruct (nth_error l (Z.to_nat i)) as [a|] eqn:N; [eauto|].
  apply nth_error_None in N. unfold len in Hi. lia.
Qed.

Lemma In_firstn (A : Type) (n : nat) (l : list A) (x : A) :
  In x (firstn n l) -> In x l.
Proof.
  revert l. induction n as [|n IH]; intros [|y l]; simpl; try tauto.
  intros [H|H]; auto.
Qed.

Lemma In_skipn (A : Type) (n : nat) (l : list A) (x : A) :
  In x (skipn n l) -> In x l.
Proof.
  revert l. induction n as [|n IH]; intros [|y l]; simpl; try tauto.
  intros H. right. auto.
Qed.

Lemma py_bytes_slice (s : list Z) (lo hi : Z) :
  Forall (fun b => 0 <= b < 256) s ->
  py_bytes (slice s lo hi) = Ok (slice s lo hi).
Proof.
  intros Hs. unfold py_bytes.
  replace (forallb _ (slice s lo hi)) with true; [reflexivity|].
  symmetry. apply forallb_forall. intros x Hx.
  unfold slice in Hx. apply In_firstn, In_skipn in Hx.
  rewrite Forall_forall in Hs. specialize (Hs x Hx).
  apply andb_true_intro. split; [apply Z.leb_le|apply Z.ltb_lt]; lia.
Qed.

(** An iteration inside the stream returns when the stream is a stream of
    bytes, every sample has its timestamp, and the last sample is no read
    opcode. *)
Lemma mosi_step_returns (time mosi : list Z) (type_at : RangeDict) (st : state) :
  counters_complete st ->
  0 <= st_index st < len mosi ->
  len mosi <= len time ->
  Forall (fun b => 0 <= b < 256) mosi ->
  (forall b, getitem mosi (len mosi - 1) = Ok b ->
             (b =? 0x03) || (b =? 0x0b) = false) ->
  exists st', mosi_step time mosi type_at st = Ok st'.
Proof.
  intros Hc Hi Ht Hb Hlast. unfold mosi_step.
  destruct (getitem_inside _ mosi (st_index st) Hi) as (instr & Hinstr).
  rewrite Hinstr. cbn [bind].
  destruct ((instr =? 3) || (instr =? 11)) eqn:E.
  - assert (st_index st <> len mosi - 1) as Hnl.
    { intros Heq. rewrite Heq in Hinstr. specialize (Hlast _ Hinstr).
      congruence. }
    assert (exists ins, dict_get Z.eqb instr WINBOND_INSTRUCTIONS = Ok ins
                        /\ 4 <= Winbond.size ins) as (ins & Hins & Hsz).
    { apply orb_true_iff in E.
      destruct E as [E|E]; apply Z.eqb_eq in E; subst instr;
        eexists; (split; [reflexivity|cbn; lia]). }
    rewrite Hins. cbn [bind].
    destruct (count_data_bytes_total (st_index st + Winbond.size ins) mosi)
      as (k & Hk & Hk1 & Hk2).
    rewrite Hk. cbn [bind].
    destruct (getitem_inside _ time (st_index st) ltac:(lia)) as (ts & Hts).
    rewrite Hts. cbn [bind].
    destruct (getitem_inside _ time (st_index st + k) ltac:(lia)) as (te & Hte).
    rewrite Hte. cbn [bind].
    rewrite py_bytes_slice by exact Hb. cbn [bind]. eauto.
  - destruct (is_instruction instr) eqn:I.
    + destruct (is_instruction_find _ I) as (ins & Hins).
      unfold dict_get at 1. rewrite Hins. cbn [bind].
      destruct (@dict_incr_mem _ String.eqb _ _ (Hc _ _ Hins)) as (u & Hu & _).
      rewrite Hu. cbn [bind].
      destruct (Winbond.expects_data ins).
      * destruct (count_data_bytes_total (st_index st + Winbond.size ins) mosi)
          as (k & Hk & _).
        rewrite Hk. cbn [bind]. eauto.
      * cbn [bind]. eauto.
    + destruct (dict_mem Z.eqb instr (st_invalid_instructions st)) eqn:M.
      * destruct (@dict_incr_mem _ Z.eqb _ _ M) as (u & Hu & _).
        rewrite Hu. cbn [bind]. eauto.
      * cbn [bind]. eauto.
Qed.

Lemma mosi_loop_returns (time mosi : list Z) (type_at : RangeDict) (fuel : nat) :
  len mosi <= len time ->
  Forall (fun b => 0 <= b < 256) mosi ->
  (forall b, getitem mosi (len mosi - 1) = Ok b ->
             (b =? 0x03) || (b =? 0x0b) = false) ->
  forall st,
    counters_complete st ->
    0 <= st_index st ->
    (Z.to_nat (len mosi - st_index st) <= fuel)%nat ->
    exists st', mosi_loop fuel time mosi type_at st = Ok st'.
Proof.
  intros Ht Hb Hlast.
  induction fuel as [|fuel IH]; intros st Hc Hi Hf; simpl.
  - destruct (st_index st <? len mosi) eqn:E; [|eauto].
    apply Z.ltb_lt in E. lia.
  - destruct (st_index st <? len mosi) eqn:E; [|eauto].
    apply Z.ltb_lt in E.
    destruct (mosi_step_returns time mosi type_at st Hc ltac:(lia) Ht Hb Hlast)
      as (st1 & Hst1).
    rewrite Hst1. cbn [bind].
    destruct (mosi_step_advance _ _ _ _ Hst1) as (f & d & _ & Hidx & _ & Hf1 & Hd & _).
    apply IH; [exact (mosi_step_counters _ _ _ Hc Hst1) | lia | lia].
Qed.

(** A single-line capture is decoded without an exception when it is not
    empty, holds a timestamp for every sample, holds bytes only, and does
    not end in a read opcode (0x03 or 0x0B). *)
Theorem decoder_returns_unless_trailing_read (times samples : list Z)
    (psptool : list Directory) :
  samples <> [] ->
  len samples <= len times ->
  Forall (fun b => 0 <= b < 256) samples ->
  (forall b, getitem samples (len samples - 1) = Ok b ->
             (b =? 0x03) || (b =? 0x0b) = false) ->
  exists read_accesses,
    find_read_accesses
      {| time := times; mosi := Some samples; value := None |} psptool
    = Ok (Accesses read_accesses).
Proof.
  intros Hne Ht Hb Hlast. unfold find_read_accesses. cbn [time mosi value].
  assert (0 < len samples) as Hpos.
  { destruct samples; [congruence|]. unfold len. simpl. lia. }
  destruct (getitem_inside _ times 0 ltac:(lia)) as (e & He).
  rewrite He. cbn [bind]. unfold decode_mosi.
  destruct (mosi_loop_returns times samples (type_at_address_range psptool)
              (List.length samples) Ht Hb Hlast (initial_state e))
    as (st & Hst).
  - apply counters_complete_initial.
  - cbn. lia.
  - cbn. unfold len. lia.
  - rewrite Hst. cbn [bind]. eauto.
Qed.

Lemma decoder_returns_unless_trailing_read_witness :
  exists read_accesses,
    find_read_accesses
      {| time := [0; 10; 20; 30; 40; 50];
         mosi := Some [0x0B; 0x00; 0x01; 0x00; 0x00; 0xAA];
         value := None |} []
    = Ok (Accesses read_accesses).
Proof.
  apply (decoder_returns_unless_trailing_read
           [0; 10; 20; 30; 40; 50] [0x0B; 0x00; 0x01; 0x00; 0x00; 0xAA] []).
  - discriminate.
  - cbn. lia.
  - repeat constructor; lia.
  - cbn. intros b H; inversion H; subst. reflexivity.
Defined.

(** ** Case 2 of the decoder *)

Lemma Forall_dict_set_replace (V : Type) (P Q : Z * V -> Prop) (k : Z) (v : V)
    (d : dict Z V) :
  NoDup (keys d) ->
  Forall Q d ->
  (forall kv, Q kv -> fst kv <> k -> P kv) ->
  P (k, v) ->
  Forall P (dict_set Z.eqb k v d).
Proof.
  intros Hnd Hd Hother Hv. induction d as [|[k1 v1] d IH]; simpl.
  - constructor; [exact Hv|constructor].
  - inversion Hd as [|? ? Hq Hd']; subst.
    inversion Hnd as [|? ? Hnotin Hnd']; subst.
    destruct (k =? k1) eqn:E.
    + apply Z.eqb_eq in E. subst k1. constructor; [exact Hv|].
      rewrite Forall_forall in *. intros kv Hin.
      apply Hother; [auto|]. intros Heq. apply Hnotin. rewrite <- Heq.
      unfold keys. now apply in_map.
    + apply Z.eqb_neq in E. constructor; [|auto].
      apply Hother; [exact Hq|]. cbn. congruence.
Qed.

Lemma dict_mem_set_same (V : Type) (k : Z) (v : V) (d : dict Z V) :
  dict_mem Z.eqb k (dict_set Z.eqb k v d) = true.
Proof. unfold dict_mem. now rewrite dict_find_set_same. Qed.

Lemma dict_mem_nonempty (V : Type) (k : Z) (d : dict Z V) :
  dict_mem Z.eqb k d = true -> d <> [].
Proof. destruct d; [discriminate|discriminate]. Qed.

(** Finalizing the access opened last leaves every stored access
    finalized. *)
Lemma finalize_previous_finalizes (time values : list Z) (type_at : RangeDict)
    (st : qstate) (index : Z) :
  value_loop_invariant time values type_at st ->
  0 < qs_instr_index st ->
  qs_last_index st + 2 <= index <= len values ->
  len values <= len time ->
  exists ra e,
    finalize_previous time (qs_read_accesses st) (qs_last_start_time st)
      index (qs_last_index st) = Ok (ra, e)
    /\ ra <> []
    /\ NoDup (keys ra)
    /\ Forall (fun kv => opened_access_ok time type_at kv
                         /\ finalized (snd kv)) ra.
Proof.
  intros (Hidx & Hn & Hzero & Hpos & Hnd & Hall) Hi Hindex Ht.
  destruct (Hpos Hi) as (Hmem & Hl0 & Hl2).
  unfold finalize_previous, dict_get.
  unfold dict_mem in Hmem.
  destruct (dict_find Z.eqb (qs_last_start_time st) (qs_read_accesses st))
    as [p|] eqn:Hp; [|discriminate].
  cbn [bind].
  destruct (getitem_inside _ time (index - 1) ltac:(lia)) as (e & He).
  rewrite He. cbn [bind]. eexists _, e. split; [reflexivity|].
  split; [|split].
  - apply (dict_mem_nonempty _ (qs_last_start_time st)).
    apply dict_mem_set_same.
  - now apply NoDup_keys_dict_set.
  - assert (opened_access_ok time type_at (qs_last_start_time st, p)) as Hok.
    { apply dict_find_In in Hp. destruct Hp as (k' & Hin & Hk').
      apply Z.eqb_eq in Hk'. subst k'.
      rewrite Forall_forall in Hall. exact (proj1 (Hall _ Hin)). }
    eapply Forall_dict_set_replace; [exact Hnd | exact Hall | |].
    + intros kv [Hkv [Hf|Hk]] Hne; [now split|contradiction].
    + split.
      * unfold opened_access_ok in *. cbn in *. exact Hok.
      * unfold finalized. cbn. eexists _, _. repeat split. lia.
Qed.

Lemma value_step_keeps_invariant (time values : list Z) (type_at : RangeDict)
    (st : qstate) :
  value_loop_invariant time values type_at st ->
  qs_index st < len values - 1 ->
  len values <= len time ->
  exists st',
    value_step time values type_at st = Ok st'
    /\ value_loop_invariant time values type_at st'.
Proof.
  intros Hinv Hlt Ht.
  pose proof Hinv as (Hidx & Hn & Hzero & Hpos & Hnd & Hall).
  unfold value_step.
  destruct (getitem_inside _ values (qs_index st) ltac:(lia)) as (v & Hv).
  destruct (getitem_inside _ values (qs_index st + 1) ltac:(lia)) as (nv & Hnv).
  rewrite Hv, Hnv. cbn [bind].
  destruct (is_read_command v && (255 <? nv)) eqn:E.
  - apply andb_prop in E. destruct E as [_ E]. apply Z.ltb_lt in E.
    destruct (getitem_inside _ time (qs_index st) ltac:(lia)) as (ts & Hts).
    rewrite Hts. cbn [bind].
    assert (exists ra e,
               (if 0 <? qs_instr_index st
                then finalize_previous time (qs_read_accesses st)
                       (qs_last_start_time st) (qs_index st) (qs_last_index st)
                else Ok (qs_read_accesses st, 0)) = Ok (ra, e)
               /\ NoDup (keys ra)
               /\ Forall (fun kv => opened_access_ok time type_at kv
                                    /\ finalized (snd kv)) ra)
      as (ra & e & Hfin & Hnd' & Hall').
    { destruct (0 <? qs_instr_index st) eqn:P.
      - apply Z.ltb_lt in P. destruct (Hpos P) as (_ & _ & Hl2).
        destruct (finalize_previous_finalizes time values type_at st
                    (qs_index st) Hinv P ltac:(lia) Ht)
          as (ra & e & H1 & _ & H2 & H3).
        exists ra, e. auto.
      - apply Z.ltb_ge in P. assert (qs_instr_index st = 0) as Hz by lia.
        rewrite (Hzero Hz). exists [], 0. repeat split; constructor. }
    rewrite Hfin. cbn [bind fst snd]. eexists. split; [reflexivity|].
    unfold value_loop_invariant. cbn.
    split; [lia|]. split; [lia|]. split; [lia|].
    split; [intros _; split; [apply dict_mem_set_same|lia]|].
    split; [now apply NoDup_keys_dict_set|].
    eapply Forall_dict_set_replace; [exact Hnd' | exact Hall' | |].
    + intros kv [Hkv Hf] _. split; [exact Hkv|now left].
    + split; [|now right].
      unfold opened_access_ok. cbn. repeat split; try lia.
      * exact (getitem_In _ _ _ Hts).
      * match goal with
        | |- context [if ?c then _ else _] => destruct c
        end; auto.
  - cbn [bind]. eexists. split; [reflexivity|].
    unfold value_loop_invariant. cbn.
    split; [lia|]. split; [lia|]. split; [exact Hzero|].
    split; [intros P; destruct (Hpos P) as (? & ? & ?); repeat split; auto; lia|].
    split; [exact Hnd|exact Hall].
Qed.

Lemma value_loop_keeps_invariant (time values : list Z) (type_at : RangeDict)
    (fuel : nat) :
  len values <= len time ->
  forall st,
    value_loop_invariant time values type_at st ->
    (Z.to_nat (len values - 1 - qs_index st) <= fuel)%nat ->
    exists st',
      value_loop fuel time values type_at st = Ok st'
      /\ value_loop_invariant time values type_at st'.
Proof.
  intros Ht. induction fuel as [|fuel IH]; intros st Hinv Hf; simpl.
  - destruct (qs_index st <? len values - 1) eqn:E; [|eauto].
    apply Z.ltb_lt in E. lia.
  - destruct (qs_index st <? len values - 1) eqn:E; [|eauto].
    apply Z.ltb_lt in E.
    destruct (value_step_keeps_invariant time values type_at st Hinv E Ht)
      as (st1 & Hst1 & Hinv1).
    rewrite Hst1. cbn [bind]. apply IH; [exact Hinv1|].
    pose proof (value_step_advance _ _ _ _ Hst1). lia.
Qed.

(** A quad-I/O capture that holds a timestamp for every value: the decoder
    raises [KeyError] and no other exception, or it returns at least one
    access.  The keys it returns are distinct, and every access it returns
    is stored under its start time, a timestamp of the capture, has an
    address above 0xFF with the classifier's type, carries no tag or
    ["QSPI"], and is finalized: its size is not negative, its duration is
    end minus start and its latency is start minus the end recorded when it
    was opened. *)
Theorem quad_decoder_outcome (times values : list Z) (psptool : list Directory) :
  times <> [] ->
  len values <= len times ->
  let result :=
    find_read_accesses
      {| time := times; mosi := None; value := Some values |} psptool in
  result = Raise KeyError
  \/ exists read_accesses,
       result = Ok (QuadAccesses read_accesses)
       /\ read_accesses <> []
       /\ NoDup (keys read_accesses)
       /\ Forall (fun kv =>
                    opened_access_ok times (type_at_address_range psptool) kv
                    /\ finalized (snd kv)) read_accesses.
Proof.
  intros Hne Ht result. subst result.
  unfold find_read_accesses. cbn [time mosi value].
  assert (0 < len times) as Hpos.
  { destruct times; [congruence|]. unfold len. simpl. lia. }
  destruct (getitem_inside _ times 0 ltac:(lia)) as (e0 & He0).
  rewrite He0. cbn [bind]. unfold decode_value.
  pose proof (len_nonneg values) as Hlv.
  destruct (value_loop_keeps_invariant times values
              (type_at_address_range psptool) (List.length values) Ht
              initial_qstate) as (st & Hst & Hinv).
  { unfold value_loop_invariant. cbn.
    repeat split; try lia; try constructor. }
  { cbn. unfold len. lia. }
  rewrite Hst. cbn [bind].
  pose proof Hinv as (Hidx & Hn & Hzero & Hp & Hnd & Hall).
  destruct (Z.eq_dec (qs_instr_index st) 0) as [Hz|Hnz].
  - left. unfold finalize_previous. rewrite (Hzero Hz). reflexivity.
  - right. assert (0 < qs_instr_index st) as P by lia.
    destruct (Hp P) as (_ & _ & Hl2).
    destruct (finalize_previous_finalizes times values
                (type_at_address_range psptool) st (qs_index st) Hinv P
                ltac:(lia) Ht) as (ra & e & H1 & H2 & H3 & H4).
    rewrite H1. cbn [bind fst]. exists ra. auto.
Qed.

Lemma quad_decoder_outcome_witness :
  let times := [0; 10; 20; 30; 40; 50; 60] in
  let values := [0xEB; 0x20000; 0x00; 0x11; 0x03; 0x1000; 0x22] in
  let result :=
    find_read_accesses
      {| time := times; mosi := None; value := Some values |} [] in
  result = Raise KeyError
  \/ exists read_accesses,
       result = Ok (QuadAccesses read_accesses)
       /\ read_accesses <> []
       /\ NoDup (keys read_accesses)
       /\ Forall (fun kv =>
                    opened_access_ok times (type_at_address_range []) kv
                    /\ finalized (snd kv)) read_accesses.
Proof.
  intros times values.
  apply (quad_decoder_outcome times values []).
  - discriminate.
  - cbn. lia.
Defined.

(** ** The address classifier: what resolves, and to what *)

Lemma first_containing_split (items : list (range * region_type)) (x : Z) :
  (exists kv, In kv items /\ range_contains (fst kv) x = true) ->
  exists pre r ty post,
    items = pre ++ (r, ty) :: post
    /\ range_contains r x = true
    /\ (forall kv, In kv pre -> range_contains (fst kv) x = false).
Proof.
  induction items as [|[r ty] items IH]; intros (kv & Hin & Hc); [destruct Hin|].
  destruct (range_contains r x) eqn:E.
  - exists [], r, ty, items. repeat split; auto. intros ? [].
  - destruct IH as (pre & r' & ty' & post & Heq & Hr & Hpre).
    { destruct Hin as [<-|Hin]; [cbn in Hc; congruence|eauto]. }
    exists ((r, ty) :: pre), r', ty', post. rewrite Heq. repeat split; auto.
    intros kv' [<-|H]; auto.
Qed.

(** A later item leaves an entry where it is; the entry's value becomes the
    later item's only if the ranges are equal. *)
Lemma dict_set_entry (d0 rest : RangeDict) (r r' : range) (ty t' : region_type) :
  exists d0' rest' ty',
    dict_set range_eqb r' t' (d0 ++ (r, ty) :: rest) = d0' ++ (r, ty') :: rest'
    /\ keys d0' = keys d0
    /\ (ty' = ty \/ (ty' = t' /\ range_eqb r' r = true)).
Proof.
  induction d0 as [|[k v] d0 IH]; simpl.
  - destruct (range_eqb r' r) eqn:E.
    + exists [], rest, t'. repeat split. now right.
    + exists [], (dict_set range_eqb r' t' rest), ty. repeat split. now left.
  - destruct (range_eqb r' k).
    + exists ((k, t') :: d0), rest, ty. repeat split. now left.
    + destruct IH as (d0' & rest' & ty' & Heq & Hk & Hty).
      exists ((k, v) :: d0'), rest', ty'. rewrite Heq. simpl. rewrite Hk.
      repeat split. exact Hty.
Qed.

Lemma fold_dict_set_entry (post : list (range * region_type)) (r : range) (x : Z) :
  range_contains r x = true ->
  forall d0 rest ty,
  exists d0' rest' ty',
    fold_left (fun d kv => dict_set range_eqb (fst kv) (snd kv) d) post
              (d0 ++ (r, ty) :: rest)
    = d0' ++ (r, ty') :: rest'
    /\ keys d0' = keys d0
    /\ (ty' = ty \/ In (r, ty') post).
Proof.
  intros Hr. induction post as [|[r' t'] post IH]; simpl; intros d0 rest ty.
  - exists d0, rest, ty. repeat split. now left.
  - destruct (dict_set_entry d0 rest r r' ty t') as (d1 & rest1 & ty1 & Heq & Hk & Hty).
    rewrite Heq.
    destruct (IH d1 rest1 ty1) as (d2 & rest2 & ty2 & Heq2 & Hk2 & Hty2).
    exists d2, rest2, ty2. split; [exact Heq2|]. split; [congruence|].
    destruct Hty2 as [->|Hin]; [|now right; right].
    destruct Hty as [->|[-> He]]; [now left|].
    right. left. f_equal.
    apply (@range_eqb_nonempty r r' x Hr). now right.
Qed.

Lemma RangeDict_getitem_registered (items : list (range * region_type))
    (x : Z) :
  (RangeDict_getitem (RangeDict_of items) x = None
   <-> forall kv, In kv items -> range_contains (fst kv) x = false)
  /\ forall ty,
       RangeDict_getitem (RangeDict_of items) x = Some ty ->
       exists r, In (r, ty) items /\ range_contains r x = true.
Proof.
  assert ((exists kv, In kv items /\ range_contains (fst kv) x = true) ->
          exists r ty, RangeDict_getitem (RangeDict_of items) x = Some ty
                       /\ In (r, ty) items /\ range_contains r x = true) as Hsome.
  { intros Hex.
    destruct (first_containing_split items x Hex)
      as (pre & r & ty & post & Heq & Hr & Hpre).
    rewrite Heq. unfold RangeDict_of. rewrite fold_left_app. simpl.
    match goal with
    | |- context [fold_left ?f pre []] => set (d0 := fold_left f pre [])
    end.
    assert (forall k, In k (keys d0) -> range_contains k x = false) as Hd0.
    { intros k Hk. apply keys_fold_dict_set in Hk. destruct Hk as [[]|Hk].
      apply in_map_iff in Hk. destruct Hk as (kv & <- & Hin). now apply Hpre. }
    assert (forall k, In k (keys d0) -> range_eqb r k = false) as Hne.
    { intros k Hk. destruct (range_eqb r k) eqn:E; [|reflexivity].
      rewrite (@range_eqb_nonempty r k x Hr (or_introl E)) in Hk.
      specialize (Hd0 _ Hk). congruence. }
    rewrite dict_set_fresh by exact Hne.
    destruct (fold_dict_set_entry post r x Hr d0 [] ty)
      as (d1 & rest & ty' & Hfold & Hk & Hty).
    rewrite Hfold. exists r, ty'. split; [|split; [|exact Hr]].
    - unfold RangeDict_getitem.
      rewrite first_key_containing_app; [| rewrite Hk; exact Hd0 | exact Hr].
      apply dict_find_app. rewrite Hk. exact Hne.
    - apply in_or_app. right. destruct Hty as [->|Hin]; [now left|now right]. }
  split; [split|].
  - intros Hnone kv Hin.
    destruct (range_contains (fst kv) x) eqn:E; [|reflexivity].
    destruct Hsome as (r & ty & Hget & _); [eauto|]. congruence.
  - intros Hall. now apply unregistered_is_None.
  - intros ty Hget.
    assert (exists kv, In kv items /\ range_contains (fst kv) x = true) as Hex.
    { destruct (existsb (fun kv => range_contains (fst kv) x) items) eqn:E.
      - apply existsb_exists in E. exact E.
      - rewrite (@unregistered_is_None items x) in Hget; [discriminate|].
        intros kv Hin.
        destruct (range_contains (fst kv) x) eqn:C; [|reflexivity].
        assert (existsb (fun kv => range_contains (fst kv) x) items = true)
          by (apply existsb_exists; eauto).
        congruence. }
    destruct (Hsome Hex) as (r & ty' & Hget' & Hin & Hr).
    exists r. assert (ty' = ty) by congruence. subst. auto.
Qed.

(** An address resolves exactly when a registered range contains it, and
    then to the type of a registered item whose range contains it. *)
Theorem classifier_resolves_registered (items : list (range * region_type))
    (x : Z) :
  (RangeDict_getitem (RangeDict_of items) x = None
   <-> forall kv, In kv items -> range_contains (fst kv) x = false)
  /\ forall ty,
       RangeDict_getitem (RangeDict_of items) x = Some ty ->
       exists r, In (r, ty) items /\ range_contains r x = true.
Proof. exact (RangeDict_getitem_registered items x). Qed.

(** The addresses of the synthetic region [0x20000, 0x20040) always
    resolve, whatever the firmware layout. *)
Theorem entry_table_always_resolves (psptool : list Directory) (x : Z) :
  0x20000 <= x < 0x20040 ->
  RangeDict_getitem (type_at_address_range psptool) x <> None.
Proof.
  intros Hx Hnone.
  apply (proj1 (proj1 (RangeDict_getitem_registered _ x))) with
    (kv := (Range 0x20000 0x20040, Label "Firmware Entry Table")) in Hnone.
  - unfold range_contains in Hnone. cbn in Hnone.
    apply andb_false_iff in Hnone.
    destruct Hnone as [H|H]; [apply Z.leb_gt in H|apply Z.ltb_ge in H]; lia.
  - unfold registered. apply in_or_app. right. apply in_or_app. right. now left.
Qed.

Lemma entry_table_always_resolves_witness :
  RangeDict_getitem (type_at_address_range []) 0x20010 <> None.
Proof. apply entry_table_always_resolves. lia. Defined.

(** ** Duplicate aggregation on any collection *)

Lemma insert_item_perm (V : Type) (kv : Z * V) (l : list (Z * V)) :
  Permutation (insert_item kv l) (kv :: l).
Proof.
  induction l as [|x l IH]; simpl; [reflexivity|].
  destruct (fst kv <? fst x); [reflexivity|].
  rewrite IH. apply perm_swap.
Qed.

Lemma sorted_items_perm (V : Type) (d : dict Z V) :
  Permutation (sorted_items d) d.
Proof.
  induction d as [|kv d IH]; simpl; [reflexivity|].
  unfold sorted_items in *. simpl. rewrite insert_item_perm. now constructor.
Qed.

Lemma dict_find_Some_In (V : Type) (k : Z) (v : V) (d : dict Z V) :
  dict_find Z.eqb k d = Some v -> In (k, v) d.
Proof.
  intros H. apply dict_find_In in H. destruct H as (k' & Hin & He).
  apply Z.eqb_eq in He. now subst.
Qed.

Lemma dict_find_In_NoDup (V : Type) (k : Z) (v : V) (d : dict Z V) :
  NoDup (keys d) -> In (k, v) d -> dict_find Z.eqb k d = Some v.
Proof.
  induction d as [|[k1 v1] d IH]; simpl; intros Hnd Hin; [destruct Hin|].
  inversion Hnd as [|? ? Hnotin Hnd']; subst.
  destruct Hin as [Heq|Hin].
  - inversion Heq; subst. now rewrite Z.eqb_refl.
  - destruct (k =? k1) eqn:E; [|auto].
    apply Z.eqb_eq in E. subst. exfalso. apply Hnotin.
    unfold keys. change k1 with (fst (k1, v)). now apply in_map.
Qed.

Lemma In_keys (V : Type) (kv : Z * V) (d : dict Z V) :
  In kv d -> In (fst kv) (keys d).
Proof. intros H. unfold keys. now apply in_map. Qed.

Lemma In_dict_set (V : Type) (k : Z) (v : V) (d : dict Z V) (kv : Z * V) :
  NoDup (keys d) ->
  (In kv (dict_set Z.eqb k v d) <-> kv = (k, v) \/ (In kv d /\ fst kv <> k)).
Proof.
  induction d as [|[k1 v1] d IH]; simpl; intros Hnd.
  - split; [intros [<-|[]]; now left | intros [->|[[] _]]; now left].
  - inversion Hnd as [|? ? Hnotin Hnd']; subst. specialize (IH Hnd').
    destruct (k =? k1) eqn:E.
    + apply Z.eqb_eq in E. subst k1. split.
      * intros [<-|H]; [now left|]. right. split; [now right|].
        intros Heq. apply Hnotin. rewrite <- Heq. now apply In_keys.
      * intros [->|[[<-|H] Hne]]; [now left | cbn in Hne; congruence | now right].
    + apply Z.eqb_neq in E. split.
      * intros [<-|H]; [right; split; [now left|cbn; congruence]|].
        apply IH in H. destruct H as [->|[Hin Hne]]; [now left|].
        right. split; [now right|exact Hne].
      * intros [->|[[<-|H] Hne]].
        -- right. apply IH. now left.
        -- now left.
        -- right. apply IH. right. now split.
Qed.

Lemma keys_dict_set_present (V : Type) (k : Z) (v : V) (d : dict Z V) :
  In k (keys d) -> keys (dict_set Z.eqb k v d) = keys d.
Proof.
  intros H. destruct (keys_dict_set_Z k v d) as [Heq|[Hn _]]; [exact Heq|].
  contradiction.
Qed.

Lemma In_dict_remove (V : Type) (k : Z) (d : dict Z V) (kv : Z * V) :
  NoDup (keys d) ->
  (In kv (dict_remove Z.eqb k d) <-> In kv d /\ fst kv <> k).
Proof.
  induction d as [|[k1 v1] d IH]; simpl; intros Hnd; [tauto|].
  inversion Hnd as [|? ? Hnotin Hnd']; subst. specialize (IH Hnd').
  destruct (k =? k1) eqn:E.
  - apply Z.eqb_eq in E. subst k1. split.
    + intros H. split; [now right|].
      intros Heq. apply Hnotin. rewrite <- Heq. now apply In_keys.
    + intros [[<-|H] Hne]; [cbn in Hne; congruence|exact H].
  - apply Z.eqb_neq in E. split.
    + intros [<-|H]; [split; [now left|cbn; congruence]|].
      apply IH in H. destruct H. split; [now right|assumption].
    + intros [[<-|H] Hne]; [now left|]. right. apply IH. now split.
Qed.

Lemma keys_dict_remove (V : Type) (k : Z) (d : dict Z V) :
  NoDup (keys d) ->
  NoDup (keys (dict_remove Z.eqb k d))
  /\ incl (keys (dict_remove Z.eqb k d)) (keys d).
Proof.
  induction d as [|[k1 v1] d IH]; simpl; intros Hnd.
  - split; [constructor|intros ? []].
  - inversion Hnd as [|? ? Hnotin Hnd']; subst. specialize (IH Hnd').
    destruct IH as [IH1 IH2]. destruct (k =? k1).
    + split; [exact Hnd'|]. intros x Hx. now right.
    + split.
      * cbn. constructor; [|exact IH1]. intros Hin. apply Hnotin. now apply IH2.
      * cbn. intros x [<-|Hx]; [now left|right; now apply IH2].
Qed.

Lemma deque_index_found (x : Z) (q : list Z) :
  existsb (Z.eqb x) q = true ->
  exists i, deque_index x q = Ok i /\ 0 <= i < len q.
Proof.
  induction q as [|y q IH]; simpl; [discriminate|].
  destruct (x =? y) eqn:E; simpl.
  - intros _. exists 0. split; [reflexivity|]. unfold len. simpl. lia.
  - intros H. destruct (IH H) as (i & Hi & Hb). rewrite Hi. cbn [bind].
    exists (i + 1). split; [reflexivity|]. unfold len in *. simpl List.length. lia.
Qed.

Lemma deque_del_inside (A : Type) (i : Z) (q : list A) :
  0 <= i < len q ->
  exists q', deque_del i q = Ok q'
             /\ incl q' q
             /\ S (List.length q') = List.length q.
Proof.
  intros Hi. unfold deque_del.
  destruct (getitem_inside _ q i Hi) as (a & Ha). rewrite Ha. cbn [bind].
  eexists. split; [reflexivity|]. split.
  - intros x Hx. apply in_app_or in Hx.
    destruct Hx as [Hx|Hx]; [now apply In_firstn in Hx|now apply In_skipn in Hx].
  - rewrite length_app, length_firstn, length_skipn. unfold len in Hi. lia.
Qed.

Lemma deque_append_incl (A : Type) (n : nat) (x : A) (q : list A) :
  incl (deque_append n x q) (x :: q).
Proof.
  unfold deque_append. intros y Hy. destruct (n <=? List.length q)%nat.
  - apply in_app_or in Hy. destruct Hy as [Hy|[<-|[]]]; [|now left].
    right. destruct q; [destruct Hy|now right].
  - apply in_app_or in Hy. destruct Hy as [Hy|[<-|[]]]; [now right|now left].
Qed.

Lemma deque_append_length (A B : Type) (n : nat) (x : A) (y : B)
    (q : list A) (q' : list B) :
  List.length q = List.length q' ->
  List.length (deque_append n x q) = List.length (deque_append n y q').
Proof.
  intros H. unfold deque_append. rewrite <- H.
  destruct (n <=? List.length q)%nat; rewrite !length_app; simpl; [|lia].
  destruct q, q'; simpl in *; lia.
Qed.

Lemma dict_find_set (V : Type) (k k' : Z) (v : V) (d : dict Z V) :
  dict_find Z.eqb k (dict_set Z.eqb k' v d)
  = if k =? k' then Some v else dict_find Z.eqb k d.
Proof.
  induction d as [|[k1 v1] d IH]; simpl.
  - destruct (k =? k'); reflexivity.
  - destruct (k' =? k1) eqn:E; simpl.
    + apply Z.eqb_eq in E. subst k1. destruct (k =? k'); reflexivity.
    + rewrite IH. destruct (k =? k1) eqn:E1; [|reflexivity].
      apply Z.eqb_eq in E1. subst k1.
      rewrite Z.eqb_sym in E. now rewrite E.
Qed.

Lemma dict_find_remove (V : Type) (k k' : Z) (d : dict Z V) :
  NoDup (keys d) ->
  dict_find Z.eqb k (dict_remove Z.eqb k' d)
  = if k =? k' then None else dict_find Z.eqb k d.
Proof.
  induction d as [|[k1 v1] d IH]; simpl; intros Hnd.
  - destruct (k =? k'); reflexivity.
  - inversion Hnd as [|? ? Hnotin Hnd']; subst. specialize (IH Hnd').
    destruct (k' =? k1) eqn:E; simpl.
    + apply Z.eqb_eq in E. subst k1. destruct (k =? k') eqn:E1; [|reflexivity].
      apply Z.eqb_eq in E1. subst k.
      destruct (dict_find Z.eqb k' d) eqn:F; [|reflexivity].
      exfalso. apply Hnotin. apply dict_find_Some_In in F.
      now apply (In_keys _ (k', v)).
    + rewrite IH. destruct (k =? k1) eqn:E1; [|reflexivity].
      apply Z.eqb_eq in E1. subst k1.
      rewrite Z.eqb_sym in E. now rewrite E.
Qed.

Lemma dict_mem_keys (V : Type) (k : Z) (d : dict Z V) :
  dict_mem Z.eqb k d = true -> In k (keys d).
Proof.
  unfold dict_mem. destruct (dict_find Z.eqb k d) eqn:F; [|discriminate].
  intros _. apply dict_find_Some_In in F. now apply (In_keys _ (k, v)).
Qed.

Lemma aggregate_step_keeps_invariant (d : dict Z ReadAccess) (st : agg_state)
    (t : Z) (v : ReadAccess) (todo : list (Z * ReadAccess)) :
  aggregate_invariant d st ((t, v) :: todo) ->
  exists st',
    aggregate_step st (t, v) = Ok st'
    /\ aggregate_invariant d st' todo
    /\ aggregated_accesses st' <> [].
Proof.
  intros (Hnd & Hndt & Hind & Hkeys & Htodo & Hent & Hlen & Hro).
  set (agg := aggregated_accesses st) in *.
  assert (dict_find Z.eqb t agg = Some v) as Hfind
      by (apply (Htodo (t, v)); now left).
  cbn [keys map fst] in Hndt. inversion Hndt as [|? ? Htn Hndt']; subst.
  fold (keys todo) in Htn, Hndt'.
  assert (forall kv, In kv todo -> (fst kv =? t) = false) as Htodo_ne.
  { intros kv Hin. apply Z.eqb_neq. intros Heq. apply Htn. rewrite <- Heq.
    now apply In_keys. }
  rewrite Forall_forall in Hro.
  unfold aggregate_step. cbn [fst snd].
  destruct (existsb (Z.eqb (address v)) (recent_addresses st)) eqn:Hseen;
    cbn [negb].
  - (* a duplicate of an original in the window *)
    destruct (deque_index_found _ _ Hseen) as (i & Hi & Hib).
    rewrite Hi. cbn [bind].
    destruct (getitem_inside _ (recent_originals st) i
                ltac:(unfold len in *; lia)) as (t_o & Hto).
    rewrite Hto. cbn [bind].
    destruct (Hro _ (getitem_In _ _ _ Hto)) as [Hto_mem Hto_todo].
    assert (t_o <> t) as Hne by (intros ->; apply Hto_todo; now left).
    assert ((t =? t_o) = false) as Hneb by (apply Z.eqb_neq; congruence).
    unfold dict_mem in Hto_mem. unfold dict_get at 1. fold agg.
    destruct (dict_find Z.eqb t_o agg) as [r|] eqn:Hr; [|discriminate].
    cbn [bind].
    destruct (Hent _ _ Hr) as [Hbad|(v0 & c & Hv0 & Hc & Hrc)]; [contradiction|].
    cbn [fst snd] in Hv0, Hrc. subst r.
    change (get_duplicate_count (set_duplicate_count v0 c)) with (Ok c).
    cbn [bind].
    assert (exists st1,
              (if c <? MAXIMUM_AGGREGATION_COUNT
               then Ok {| aggregated_accesses :=
                            dict_set Z.eqb t_o
                              (set_duplicate_count (set_duplicate_count v0 c) (c + 1))
                              agg;
                          recent_addresses := recent_addresses st;
                          recent_originals := recent_originals st |}
               else
                 addresses <- deque_del i (recent_addresses st) ;;
                 originals <- deque_del i (recent_originals st) ;;
                 Ok {| aggregated_accesses := agg;
                       recent_addresses := addresses;
                       recent_originals := originals |}) = Ok st1
              /\ NoDup (keys (aggregated_accesses st1))
              /\ keys (aggregated_accesses st1) = keys agg
              /\ (forall k, k <> t_o ->
                    dict_find Z.eqb k (aggregated_accesses st1)
                    = dict_find Z.eqb k agg)
              /\ (exists c', 1 <= c' <= MAXIMUM_AGGREGATION_COUNT
                    /\ dict_find Z.eqb t_o (aggregated_accesses st1)
                       = Some (set_duplicate_count v0 c'))
              /\ List.length (recent_addresses st1)
                 = List.length (recent_originals st1)
              /\ incl (recent_originals st1) (recent_originals st))
      as (st1 & Hst1 & Hnd1 & Hkeys1 & Hother1 & (c' & Hc' & Hto1) & Hlen1 & Hro1).
    { destruct (c <? MAXIMUM_AGGREGATION_COUNT) eqn:Hlt.
      - apply Z.ltb_lt in Hlt. eexists. split; [reflexivity|].
        cbn [aggregated_accesses recent_addresses recent_originals].
        split; [now apply NoDup_keys_dict_set|].
        split.
        { apply keys_dict_set_present. apply dict_mem_keys.
          unfold dict_mem. now rewrite Hr. }
        split.
        { intros k Hk. rewrite dict_find_set.
          now rewrite (proj2 (Z.eqb_neq k t_o) Hk). }
        split.
        { exists (c + 1). split; [lia|]. rewrite dict_find_set, Z.eqb_refl.
          reflexivity. }
        split; [exact Hlen|intros x Hx; exact Hx].
      - destruct (deque_del_inside _ i (recent_addresses st) Hib)
          as (ra' & Hra' & _ & Hra_len).
        destruct (deque_del_inside _ i (recent_originals st)
                    ltac:(unfold len in *; lia)) as (ro' & Hro' & Hro_incl & Hro_len).
        rewrite Hra'. cbn [bind]. rewrite Hro'. cbn [bind].
        eexists. split; [reflexivity|].
        cbn [aggregated_accesses recent_addresses recent_originals].
        split; [exact Hnd|]. split; [reflexivity|]. split; [reflexivity|].
        split; [exists c; split; [exact Hc|exact Hr]|].
        split; [lia|exact Hro_incl]. }
    rewrite Hst1. cbn [bind].
    unfold dict_del, dict_mem.
    rewrite (Hother1 t ltac:(congruence)), Hfind. cbn [bind].
    eexists. split; [reflexivity|].
    destruct (keys_dict_remove _ t (aggregated_accesses st1) Hnd1) as [Hnd2 Hincl2].
    assert (dict_find Z.eqb t_o (dict_remove Z.eqb t (aggregated_accesses st1))
            = Some (set_duplicate_count v0 c')) as Hto2.
    { rewrite dict_find_remove by exact Hnd1.
      rewrite (proj2 (Z.eqb_neq t_o t) Hne). exact Hto1. }
    split; [|intros Habs; cbn in Habs; rewrite Habs in Hto2; discriminate].
    unfold aggregate_invariant.
    cbn [aggregated_accesses recent_addresses recent_originals].
    split; [exact Hnd2|]. split; [exact Hndt'|].
    split; [intros kv Hkv; apply Hind; now right|].
    split.
    { intros x Hx. apply Hkeys. fold agg. rewrite <- Hkeys1. now apply Hincl2. }
    split.
    { intros kv Hkv. rewrite dict_find_remove by exact Hnd1.
      rewrite (Htodo_ne _ Hkv). rewrite Hother1.
      - apply Htodo. now right.
      - intros Heq. apply Hto_todo. right. rewrite <- Heq. now apply In_keys. }
    split.
    { intros k r Hk. rewrite dict_find_remove in Hk by exact Hnd1.
      destruct (k =? t) eqn:Ekt; [discriminate|].
      apply Z.eqb_neq in Ekt.
      destruct (Z.eq_dec k t_o) as [->|Hkto].
      - right. rewrite Hto1 in Hk. inversion Hk; subst r.
        exists v0, c'. cbn. auto.
      - rewrite (Hother1 _ Hkto) in Hk.
        destruct (Hent _ _ Hk) as [[Heq|Hin]|Ho];
          [cbn in Heq; congruence|now left|now right]. }
    split; [exact Hlen1|].
    apply Forall_forall. intros x Hx. apply Hro1 in Hx.
    destruct (Hro _ Hx) as [Hx1 Hx2]. split.
    + assert (x <> t) as Hxt by (intros ->; apply Hx2; now left).
      unfold dict_mem. rewrite dict_find_remove by exact Hnd1.
      rewrite (proj2 (Z.eqb_neq x t) Hxt).
      destruct (Z.eq_dec x t_o) as [->|Hxto]; [now rewrite Hto1|].
      rewrite (Hother1 _ Hxto). exact Hx1.
    + intros Hin. apply Hx2. now right.
  - (* an original *)
    unfold dict_get. fold agg. rewrite Hfind. cbn [bind].
    eexists. split; [reflexivity|].
    assert (dict_find Z.eqb t (dict_set Z.eqb t (set_duplicate_count v 1) agg)
            = Some (set_duplicate_count v 1)) as Ht1
        by (rewrite dict_find_set, Z.eqb_refl; reflexivity).
    split; [|intros Habs; cbn in Habs; rewrite Habs in Ht1; discriminate].
    unfold aggregate_invariant.
    cbn [aggregated_accesses recent_addresses recent_originals].
    split; [now apply NoDup_keys_dict_set|]. split; [exact Hndt'|].
    split; [intros kv Hkv; apply Hind; now right|].
    assert (keys (dict_set Z.eqb t (set_duplicate_count v 1) agg) = keys agg)
      as Hk1.
    { apply keys_dict_set_present. apply dict_mem_keys.
      unfold dict_mem. now rewrite Hfind. }
    split; [rewrite Hk1; exact Hkeys|].
    split.
    { intros kv Hkv. rewrite dict_find_set, (Htodo_ne _ Hkv).
      apply Htodo. now right. }
    split.
    { intros k r Hk. rewrite dict_find_set in Hk.
      destruct (k =? t) eqn:Ekt.
      - apply Z.eqb_eq in Ekt. subst k. inversion Hk; subst r. right.
        exists v, 1. cbn. repeat split; try (unfold MAXIMUM_AGGREGATION_COUNT; lia).
        apply Hind. now left.
      - apply Z.eqb_neq in Ekt.
        destruct (Hent _ _ Hk) as [[Heq|Hin]|Ho];
          [cbn in Heq; congruence|now left|now right]. }
    split; [now apply deque_append_length|].
    apply Forall_forall. intros x Hx. apply deque_append_incl in Hx.
    destruct Hx as [<-|Hx].
    + split; [|exact Htn]. unfold dict_mem. now rewrite Ht1.
    + destruct (Hro _ Hx) as [Hx1 Hx2]. split.
      * unfold dict_mem. rewrite dict_find_set.
        destruct (x =? t); [reflexivity|exact Hx1].
      * intros Hin. apply Hx2. now right.
Qed.

Lemma aggregate_loop_keeps_invariant (d : dict Z ReadAccess)
    (todo : list (Z * ReadAccess)) :
  forall st,
    aggregate_invariant d st todo ->
    exists st',
      aggregate_loop st todo = Ok st'
      /\ aggregate_invariant d st' []
      /\ (aggregated_accesses st <> [] \/ todo <> [] ->
          aggregated_accesses st' <> []).
Proof.
  induction todo as [|[t v] todo IH]; intros st Hinv.
  - exists st. split; [reflexivity|]. split; [exact Hinv|].
    intros [H|H]; [exact H|congruence].
  - destruct (aggregate_step_keeps_invariant d st t v todo Hinv)
      as (st1 & Hst1 & Hinv1 & Hne1).
    destruct (IH st1 Hinv1) as (st' & Hst' & Hinv' & Hne').
    exists st'. cbn [aggregate_loop]. rewrite Hst1. cbn [bind].
    split; [exact Hst'|]. split; [exact Hinv'|]. intros _. apply Hne'. now left.
Qed.

Lemma annotate_counts_keys (d out : dict Z ReadAccess) :
  annotate_counts d = Ok out -> keys out = keys d.
Proof.
  revert out. induction d as [|[t r] d IH]; simpl; intros out H.
  - inversion H. reflexivity.
  - bind_ok H n Hn. bind_ok H rest Hrest. inversion H; subst.
    unfold keys in *. cbn [map fst]. now rewrite (IH rest Hrest).
Qed.

Lemma aggregate_duplicates_survivors (read_accesses : dict Z ReadAccess) :
  NoDup (keys read_accesses) ->
  exists out,
    aggregate_duplicates read_accesses = Ok out
    /\ NoDup (keys out)
    /\ incl (keys out) (keys read_accesses)
    /\ len out <= len read_accesses
    /\ (read_accesses <> [] -> out <> [])
    /\ Forall (fun kv =>
                 exists v n, In (fst kv, v) read_accesses
                             /\ 1 <= n <= MAXIMUM_AGGREGATION_COUNT
                             /\ snd kv = tagged v n) out.
Proof.
  intros Hnd. unfold aggregate_duplicates.
  pose proof (sorted_items_perm _ read_accesses) as Hperm.
  destruct (aggregate_loop_keeps_invariant read_accesses
              (sorted_items read_accesses)
              {| aggregated_accesses := read_accesses;
                 recent_addresses := [];
                 recent_originals := [] |})
    as (st & Hst & Hinv & Hne).
  { unfold aggregate_invariant.
    cbn [aggregated_accesses recent_addresses recent_originals].
    split; [exact Hnd|].
    split.
    { unfold keys. eapply Permutation_NoDup; [|exact Hnd].
      apply Permutation_map. now symmetry. }
    split; [intros kv Hkv; eapply Permutation_in; eassumption|].
    split; [intros x Hx; exact Hx|].
    split.
    { intros [k v] Hkv. apply dict_find_In_NoDup; [exact Hnd|].
      eapply Permutation_in; eassumption. }
    split.
    { intros k r Hk. left. apply dict_find_Some_In in Hk.
      apply (In_keys _ (k, r)). eapply Permutation_in; [|exact Hk].
      now symmetry. }
    split; [reflexivity|constructor]. }
  rewrite Hst. cbn [bind].
  destruct Hinv as (Hnd' & _ & _ & Hkeys & _ & Hent & _ & _).
  destruct (@annotate_counts_tagged read_accesses (aggregated_accesses st))
    as (out & Hout & Hlen & _ & Hall).
  { apply Forall_forall. intros [k r] Hkr.
    destruct (Hent k r (dict_find_In_NoDup _ _ _ _ Hnd' Hkr)) as [[]|Ho].
    exact Ho. }
  pose proof (annotate_counts_keys _ _ Hout) as Hk.
  exists out. split; [exact Hout|].
  split; [rewrite Hk; exact Hnd'|].
  split; [rewrite Hk; exact Hkeys|].
  split.
  { rewrite Hlen. unfold len.
    apply inj_le. rewrite <- (length_map fst (aggregated_accesses st)).
    rewrite <- (length_map fst read_accesses).
    apply NoDup_incl_length; [exact Hnd'|exact Hkeys]. }
  split; [|exact Hall].
  intros Hin Hout_nil.
  assert (aggregated_accesses st <> []) as Hagg by (apply Hne; now left).
  apply Hagg. destruct (aggregated_accesses st); [reflexivity|].
  subst out. cbn in Hk. discriminate.
Qed.

(** On any collection with distinct keys [aggregate_duplicates] returns.
    What survives are accesses of the input under their keys, changed only
    by a multiplicity between 1 and the maximum and by its tag; no key is
    new; and a non-empty input leaves a non-empty output. *)
Theorem aggregation_keeps_tagged_originals (read_accesses : dict Z ReadAccess) :
  NoDup (keys read_accesses) ->
  exists out,
    aggregate_duplicates read_accesses = Ok out
    /\ NoDup (keys out)
    /\ incl (keys out) (keys read_accesses)
    /\ len out <= len read_accesses
    /\ (read_accesses <> [] -> out <> [])
    /\ Forall (fun kv =>
                 exists v n, In (fst kv, v) read_accesses
                             /\ 1 <= n <= MAXIMUM_AGGREGATION_COUNT
                             /\ snd kv = tagged v n) out.
Proof. exact (aggregate_duplicates_survivors read_accesses). Qed.

Lemma aggregation_keeps_tagged_originals_witness :
  let acc t a :=
    {| instr_index := t; start_time := t; end_time := t + 1; duration := 1;
       latency := 0; address := a; size := 4; type_ := None; info := [];
       duplicate_count := None |} in
  let d := [(5, acc 5 0x2000); (1, acc 1 0x1000); (3, acc 3 0x1000)] in
  exists out,
    aggregate_duplicates d = Ok out
    /\ NoDup (keys out)
    /\ incl (keys out) (keys d)
    /\ len out <= len d
    /\ (d <> [] -> out <> [])
    /\ Forall (fun kv =>
                 exists v n, In (fst kv, v) d
                             /\ 1 <= n <= MAXIMUM_AGGREGATION_COUNT
                             /\ snd kv = tagged v n) out.
Proof.
  intros acc d. apply (aggregation_keeps_tagged_originals d).
  repeat constructor; cbn; intuition lia.
Defined.

(** An access whose address is not in the window becomes an original,
    whatever the window holds. *)
Lemma aggregate_step_unseen (s todo : dict Z ReadAccess) (t : Z) (v : ReadAccess)
    (ra ro : list Z) :
  ~ In t (keys s) ->
  ~ In (address v) ra ->
  aggregate_step
    {| aggregated_accesses := s ++ (t, v) :: todo;
       recent_addresses := ra;
       recent_originals := ro |} (t, v)
  = Ok {| aggregated_accesses := s ++ (t, set_duplicate_count v 1) :: todo;
          recent_addresses := deque_append 200 (address v) ra;
          recent_originals := deque_append 200 t ro |}.
Proof.
  intros Hs Hra. unfold aggregate_step.
  cbn [fst snd recent_addresses aggregated_accesses recent_originals].
  replace (existsb (Z.eqb (address v)) ra) with false.
  - cbn [negb]. unfold dict_get. rewrite dict_find_skip by exact Hs.
    cbn [dict_find]. rewrite Z.eqb_refl. cbn [bind].
    rewrite dict_set_skip by exact Hs. cbn [dict_set]. rewrite Z.eqb_refl.
    reflexivity.
  - symmetry. destruct (existsb (Z.eqb (address v)) ra) eqn:E; [|reflexivity].
    apply existsb_exists in E. destruct E as (x & Hx & He).
    apply Z.eqb_eq in He. subst x. contradiction.
Qed.

Lemma aggregate_loop_distinct (todo : list (Z * ReadAccess)) :
  forall (s : dict Z ReadAccess) (ra ro : list Z),
    NoDup (keys s ++ keys todo) ->
    NoDup (map address (values todo)) ->
    (forall a, In a ra -> ~ In a (map address (values todo))) ->
    exists ra' ro',
      aggregate_loop
        {| aggregated_accesses := s ++ todo;
           recent_addresses := ra;
           recent_originals := ro |} todo
      = Ok {| aggregated_accesses :=
                s ++ map (fun kv => (fst kv, set_duplicate_count (snd kv) 1)) todo;
              recent_addresses := ra';
              recent_originals := ro' |}.
Proof.
  induction todo as [|[t v] todo IH]; intros s ra ro Hnd Hna Hra.
  - cbn. eauto.
  - cbn [aggregate_loop].
    assert (~ In t (keys s)) as Hts.
    { intros Hin. cbn [keys map fst] in Hnd. apply NoDup_remove_2 in Hnd.
      apply Hnd. apply in_or_app. now left. }
    rewrite aggregate_step_unseen;
      [| exact Hts | intros Hin; apply (Hra _ Hin); now left].
    cbn [bind].
    cbn [values map snd] in Hna. inversion Hna as [|? ? Hv Hna']; subst.
    destruct (IH (s ++ [(t, set_duplicate_count v 1)])
                 (deque_append 200 (address v) ra) (deque_append 200 t ro))
      as (ra' & ro' & Hloop).
    + unfold keys in *. rewrite map_app. cbn [map fst] in *.
      now rewrite <- app_assoc.
    + exact Hna'.
    + intros a Hin Habs. apply deque_append_incl in Hin.
      destruct Hin as [<-|Hin]; [exact (Hv Habs)|].
      apply (Hra _ Hin). now right.
    + rewrite <- app_assoc in Hloop. cbn [app] in Hloop. rewrite Hloop.
      exists ra', ro'. now rewrite <- app_assoc.
Qed.

Lemma annotate_counts_ones (d : dict Z ReadAccess) :
  annotate_counts (map (fun kv => (fst kv, set_duplicate_count (snd kv) 1)) d)
  = Ok (map (fun kv => (fst kv, tagged (snd kv) 1)) d).
Proof.
  induction d as [|[t v] d IH]; [reflexivity|].
  cbn [map annotate_counts fst snd].
  change (get_duplicate_count (set_duplicate_count v 1)) with (Ok 1).
  cbn [bind]. rewrite IH. reflexivity.
Qed.

(** Accesses to pairwise different addresses, presented in start-time
    order, are all kept: each comes out under its key with multiplicity 1
    and the tag ["x1"], in the same order. *)
Theorem distinct_addresses_all_kept (read_accesses : dict Z ReadAccess) :
  StronglySorted Z.lt (keys read_accesses) ->
  NoDup (map address (values read_accesses)) ->
  aggregate_duplicates read_accesses
  = Ok (map (fun kv => (fst kv, tagged (snd kv) 1)) read_accesses).
Proof.
  intros Hsorted Hna. unfold aggregate_duplicates.
  rewrite sorted_items_sorted by exact Hsorted.
  destruct (aggregate_loop_distinct read_accesses [] [] [])
    as (ra & ro & Hloop).
  - cbn [app keys map]. apply sorted_keys_NoDup. exact Hsorted.
  - exact Hna.
  - intros a [].
  - cbn [app] in Hloop. rewrite Hloop. cbn [bind aggregated_accesses].
    apply annotate_counts_ones.
Qed.

Lemma distinct_addresses_all_kept_witness :
  let acc t a :=
    {| instr_index := t; start_time := t; end_time := t + 1; duration := 1;
       latency := 0; address := a; size := 4; type_ := None; info := [];
       duplicate_count := None |} in
  aggregate_duplicates [(1, acc 1 0x1000); (3, acc 3 0x2000); (5, acc 5 0x3000)]
  = Ok [(1, tagged (acc 1 0x1000) 1); (3, tagged (acc 3 0x2000) 1);
        (5, tagged (acc 5 0x3000) 1)].
Proof.
  intros acc.
  apply (distinct_addresses_all_kept
           [(1, acc 1 0x1000); (3, acc 3 0x2000); (5, acc 5 0x3000)]).
  - repeat constructor.
  - repeat constructor; cbn; intuition lia.
Defined.

(** ** Type collapsing on any collection *)

Lemma total_size_app (l1 l2 : list ReadAccess) :
  total_size (l1 ++ l2) = total_size l1 + total_size l2.
Proof. induction l1 as [|v l1 IH]; simpl; [reflexivity|]. rewrite IH. lia. Qed.

Lemma total_duration_app (l1 l2 : list ReadAccess) :
  total_duration (l1 ++ l2) = total_duration l1 + total_duration l2.
Proof. induction l1 as [|v l1 IH]; simpl; [reflexivity|]. rewrite IH. lia. Qed.

Lemma total_size_perm (l1 l2 : list ReadAccess) :
  Permutation l1 l2 -> total_size l1 = total_size l2.
Proof. induction 1; simpl; lia. Qed.

Lemma total_duration_perm (l1 l2 : list ReadAccess) :
  Permutation l1 l2 -> total_duration l1 = total_duration l2.
Proof. induction 1; simpl; lia. Qed.

(** One access more: the sizes and durations of the records grow by its
    own, and the start times of the records grow by its own or not at
    all. *)
Lemma collapse_step_conserves (st st' : collapse_state) (t : Z) (v : ReadAccess) :
  (last_access st = None \/ collapsed_read_accesses st <> []) ->
  collapse_step st (t, v) = Ok st' ->
  total_size (collapsed_read_accesses st')
  = total_size (collapsed_read_accesses st) + size v
  /\ total_duration (collapsed_read_accesses st')
     = total_duration (collapsed_read_accesses st) + duration v
  /\ (map start_time (collapsed_read_accesses st')
      = map start_time (collapsed_read_accesses st)
      \/ map start_time (collapsed_read_accesses st')
         = map start_time (collapsed_read_accesses st) ++ [start_time v])
  /\ collapsed_read_accesses st' <> [].
Proof.
  intros Hinv H.
  destruct (collapses (last_access st) v) eqn:E.
  - destruct Hinv as [Hn|Hne]; [rewrite Hn in E; discriminate|].
    destruct (exists_last Hne) as (l & prev & Hl).
    destruct (@collapse_step_merge st t v prev l E Hl)
      as (m & Hm & _ & Hstart & _ & Hdur & _ & _ & Hsize & _).
    rewrite Hm in H. inversion H; subst st'; clear H.
    cbn [collapsed_read_accesses]. rewrite Hl.
    rewrite !total_size_app, !total_duration_app, !map_app. cbn.
    rewrite Hsize, Hdur, Hstart.
    repeat split; try lia; [now left|].
    intros Habs. apply app_eq_nil in Habs. destruct Habs; discriminate.
  - rewrite (@collapse_step_append st t v E) in H.
    inversion H; subst st'; clear H. cbn [collapsed_read_accesses].
    rewrite total_size_app, total_duration_app, map_app. cbn.
    repeat split; try lia; [now right|].
    intros Habs. apply app_eq_nil in Habs. destruct Habs; discriminate.
Qed.

Lemma collapse_loop_conserves (items : list (Z * ReadAccess)) :
  forall st st',
    (last_access st = None \/ collapsed_read_accesses st <> []) ->
    collapse_loop st items = Ok st' ->
    total_size (collapsed_read_accesses st')
    = total_size (collapsed_read_accesses st) + total_size (values items)
    /\ total_duration (collapsed_read_accesses st')
       = total_duration (collapsed_read_accesses st)
         + total_duration (values items)
    /\ (NoDup (map start_time (collapsed_read_accesses st)
               ++ map start_time (values items)) ->
        NoDup (map start_time (collapsed_read_accesses st')))
    /\ (List.length (collapsed_read_accesses st')
        <= List.length (collapsed_read_accesses st) + List.length items)%nat
    /\ (items <> [] -> collapsed_read_accesses st' <> []).
Proof.
  induction items as [|[t v] items IH]; intros st st' Hinv H.
  - cbn in H. inversion H; subst. cbn. rewrite app_nil_r.
    repeat split; try lia; auto.
  - cbn [collapse_loop] in H. bind_ok H st1 Hst1.
    destruct (collapse_step_conserves st st1 t v Hinv Hst1)
      as (Hs1 & Hd1 & Hk1 & Hne1).
    destruct (IH st1 st' (or_intror Hne1) H) as (Hs & Hd & Hk & Hl & Hne).
    cbn [values map snd total_size total_duration fold_right].
    fold (values items). fold (total_size (values items)).
    fold (total_duration (values items)).
    split; [lia|]. split; [lia|]. split; [|split].
    + intros Hnd. apply Hk. destruct Hk1 as [->| ->].
      * cbn [map] in Hnd. now apply NoDup_remove_1 in Hnd.
      * rewrite <- app_assoc. exact Hnd.
    + assert (List.length (collapsed_read_accesses st1)
              <= S (List.length (collapsed_read_accesses st)))%nat as Hl1.
      { rewrite <- (length_map start_time (collapsed_read_accesses st1)).
        rewrite <- (length_map start_time (collapsed_read_accesses st)).
        destruct Hk1 as [->| ->]; [lia|]. rewrite length_app. simpl. lia. }
      simpl List.length. lia.
    + intros _. destruct items as [|x items'].
      * cbn in H. inversion H; subst. exact Hne1.
      * apply Hne. discriminate.
Qed.

Lemma by_start_time_fold (l : list ReadAccess) :
  forall acc : dict Z ReadAccess,
    NoDup (keys acc ++ map start_time l) ->
    fold_left (fun d values => dict_set Z.eqb (start_time values) values d) l acc
    = acc ++ map (fun v => (start_time v, v)) l.
Proof.
  induction l as [|v l IH]; intros acc H; cbn [fold_left map].
  - now rewrite app_nil_r.
  - cbn [map] in H. rewrite dict_set_new.
    + rewrite IH.
      * now rewrite <- app_assoc.
      * unfold keys in *. rewrite map_app. cbn [map fst].
        now rewrite <- app_assoc.
    + apply NoDup_remove_2 in H. intros Hin. apply H.
      apply in_or_app. now left.
Qed.

Lemma by_start_time_distinct (l : list ReadAccess) :
  NoDup (map start_time l) ->
  by_start_time l = map (fun v => (start_time v, v)) l.
Proof. intros Hnd. unfold by_start_time. now apply (by_start_time_fold l []). Qed.

Lemma collapse_entry_types_conserves (read_accesses : dict Z ReadAccess) :
  NoDup (map start_time (values read_accesses)) ->
  exists out,
    collapse_entry_types read_accesses = Ok out
    /\ total_size (values out) = total_size (values read_accesses)
    /\ total_duration (values out) = total_duration (values read_accesses)
    /\ len out <= len read_accesses
    /\ (read_accesses <> [] -> out <> [])
    /\ NoDup (keys out)
    /\ Forall (fun kv => start_time (snd kv) = fst kv) out.
Proof.
  intros Hnd. unfold collapse_entry_types.
  destruct (collapse_loop_total (sorted_items read_accesses)) as (st & Hst).
  rewrite Hst. cbn [bind].
  pose proof (sorted_items_perm _ read_accesses) as Hperm.
  destruct (collapse_loop_conserves (sorted_items read_accesses)
              initial_collapse_state st (or_introl eq_refl) Hst)
    as (Hs & Hd & Hk & Hl & Hne).
  cbn [initial_collapse_state collapsed_read_accesses total_size
       total_duration fold_right map app List.length] in Hs, Hd, Hk, Hl.
  assert (NoDup (map start_time (collapsed_read_accesses st))) as Hnd'.
  { apply Hk. eapply Permutation_NoDup; [|exact Hnd].
    apply Permutation_map. unfold values. apply Permutation_map. now symmetry. }
  rewrite (by_start_time_distinct _ Hnd').
  eexists. split; [reflexivity|].
  assert (values (map (fun v => (start_time v, v)) (collapsed_read_accesses st))
          = collapsed_read_accesses st) as Hv.
  { unfold values. rewrite map_map. cbn. apply map_id. }
  rewrite Hv.
  split.
  { rewrite Hs. apply total_size_perm. unfold values. now apply Permutation_map. }
  split.
  { rewrite Hd. apply total_duration_perm. unfold values.
    now apply Permutation_map. }
  split.
  { unfold len. rewrite length_map.
    rewrite <- (Permutation_length Hperm). lia. }
  split.
  { intros Hin Habs. apply map_eq_nil in Habs. revert Habs. apply Hne.
    intros Hs0. apply Hin. destruct read_accesses; [reflexivity|].
    apply Permutation_length in Hperm. rewrite Hs0 in Hperm. discriminate. }
  split.
  { unfold keys. rewrite map_map. cbn. exact Hnd'. }
  apply Forall_forall. intros kv Hkv. apply in_map_iff in Hkv.
  destruct Hkv as (v & <- & _). reflexivity.
Qed.

(** When the start times of the accesses are distinct, collapsing returns
    and nothing is lost in the merging: the sizes of the records sum to
    the sizes of the accesses, and so do the durations;
    there are at most as many records as accesses and at least one if there
    is an access; and each record is stored under its start time. *)
Theorem collapsing_conserves_size_and_duration (read_accesses : dict Z ReadAccess) :
  NoDup (map start_time (values read_accesses)) ->
  exists out,
    collapse_entry_types read_accesses = Ok out
    /\ total_size (values out) = total_size (values read_accesses)
    /\ total_duration (values out) = total_duration (values read_accesses)
    /\ len out <= len read_accesses
    /\ (read_accesses <> [] -> out <> [])
    /\ NoDup (keys out)
    /\ Forall (fun kv => start_time (snd kv) = fst kv) out.
Proof. exact (collapse_entry_types_conserves read_accesses). Qed.

Lemma collapsing_conserves_size_and_duration_witness :
  let acc t a ty :=
    {| instr_index := t; start_time := t; end_time := t + 7; duration := 7;
       latency := 0; address := a; size := 0x10; type_ := ty; info := [];
       duplicate_count := None |} in
  let d := [(0, acc 0 0x1000 (Some (EntryType 1)));
            (10, acc 10 0x1010 (Some (EntryType 1)));
            (20, acc 20 0x5000 None)] in
  exists out,
    collapse_entry_types d = Ok out
    /\ total_size (values out) = total_size (values d)
    /\ total_duration (values out) = total_duration (values d)
    /\ len out <= len d
    /\ (d <> [] -> out <> [])
    /\ NoDup (keys out)
    /\ Forall (fun kv => start_time (snd kv) = fst kv) out.
Proof.
  intros acc d. apply (collapsing_conserves_size_and_duration d).
  repeat constructor; cbn; intuition lia.
Defined.

(** ** Timestamp normalization as a shift *)





(** ** The stages of [display_all] together *)

Lemma collapse_entry_types_nonempty (read_accesses : dict Z ReadAccess) :
  exists out,
    collapse_entry_types read_accesses = Ok out
    /\ (read_accesses <> [] -> out <> []).
Proof.
  unfold collapse_entry_types.
  destruct (collapse_loop_total (sorted_items read_accesses)) as (st & Hst).
  rewrite Hst. cbn [bind]. eexists. split; [reflexivity|].
  intros Hne Habs.
  destruct (collapse_loop_conserves (sorted_items read_accesses)
              initial_collapse_state st (or_introl eq_refl) Hst)
    as (_ & _ & _ & _ & Hne').
  assert (sorted_items read_accesses <> []) as Hs.
  { intros Hs0. apply Hne. destruct read_accesses; [reflexivity|].
    pose proof (Permutation_length (sorted_items_perm _ (p :: read_accesses))) as Hl.
    rewrite Hs0 in Hl. discriminate. }
  specialize (Hne' Hs).
  destruct (collapsed_read_accesses st) as [|v l]; [congruence|].
  unfold by_start_time in Habs. cbn [fold_left] in Habs.
  assert (forall (l : list ReadAccess) (acc : dict Z ReadAccess),
             acc <> [] ->
             fold_left (fun d values => dict_set Z.eqb (start_time values) values d)
                       l acc <> []) as Hfold.
  { clear. induction l as [|x l IH]; intros acc Hacc; cbn [fold_left]; [exact Hacc|].
    apply IH. destruct acc as [|[k1 v1] acc]; [congruence|].
    cbn. destruct (start_time x =? k1); discriminate. }
  revert Habs. apply Hfold. discriminate.
Qed.

Lemma do_normalize_timestamps_nonempty (read_accesses : dict Z ReadAccess) :
  read_accesses <> [] ->
  exists out, do_normalize_timestamps read_accesses = Ok out /\ out <> [].
Proof.
  intros Hne. destruct read_accesses as [|[k v] d]; [congruence|].
  unfold do_normalize_timestamps. cbn [values map py_min bind].
  eexists. split; [reflexivity|]. cbn [fold_left].
  match goal with
  | |- fold_left ?f d ?acc <> [] =>
      assert (forall (l : dict Z ReadAccess) (a : dict Z ReadAccess),
                 a <> [] -> fold_left f l a <> []) as Hfold
  end.
  { clear. induction l as [|x l IH]; intros a Ha; cbn [fold_left]; [exact Ha|].
    apply IH. destruct a as [|[k1 v1] a]; [congruence|].
    cbn. destruct (fst x =? k1); discriminate. }
  apply Hfold. discriminate.
Qed.

(** Whatever stages are selected, they return on a non-empty collection
    with distinct keys, and what they return is not empty.  On the empty
    collection they raise [ValueError] exactly when timestamp normalization
    is selected, and return the empty collection otherwise. *)
Theorem display_all_stages_outcome (no_duplicates collapse normalize_timestamps : bool)
    (read_accesses : dict Z ReadAccess) :
  NoDup (keys read_accesses) ->
  (read_accesses <> [] ->
   exists out,
     display_all_stages no_duplicates collapse normalize_timestamps read_accesses
     = Ok out /\ out <> [])
  /\ display_all_stages no_duplicates collapse normalize_timestamps []
     = if normalize_timestamps then Raise ValueError else Ok [].
Proof.
  intros Hnd. split.
  - intros Hne. unfold display_all_stages.
    assert (exists ra1,
               (if no_duplicates then aggregate_duplicates read_accesses
                else Ok read_accesses) = Ok ra1 /\ ra1 <> []) as (ra1 & H1 & Hne1).
    { destruct no_duplicates; [|eauto].
      destruct (aggregate_duplicates_survivors read_accesses Hnd)
        as (out & Hout & _ & _ & _ & Hn & _). eauto. }
    rewrite H1. cbn [bind].
    assert (exists ra2,
               (if collapse then collapse_entry_types ra1 else Ok ra1) = Ok ra2
               /\ ra2 <> []) as (ra2 & H2 & Hne2).
    { destruct collapse; [|eauto].
      destruct (collapse_entry_types_nonempty ra1) as (out & Hout & Hn). eauto. }
    rewrite H2. cbn [bind].
    destruct normalize_timestamps; [|eauto].
    now apply do_normalize_timestamps_nonempty.
  - destruct no_duplicates, collapse, normalize_timestamps; reflexivity.
Qed.

Lemma display_all_stages_outcome_witness :
  let acc t a :=
    {| instr_index := t; start_time := t; end_time := t + 1; duration := 1;
       latency := 0; address := a; size := 4; type_ := None; info := [];
       duplicate_count := None |} in
  let d := [(5, acc 5 0x1000); (9, acc 9 0x1000); (12, acc 12 0x1004)] in
  (d <> [] ->
   exists out, display_all_stages true true true d = Ok out /\ out <> [])
  /\ display_all_stages true true true [] = Raise ValueError.
Proof.
  intros acc d. apply (display_all_stages_outcome true true true d).
  repeat constructor; cbn; intuition lia.
Defined.

(** ** The two opcode catalogs *)

(** The catalog of [winbond_instructions.py] agrees with the catalog that
    the decoder uses on every opcode but 0x13, Read Data with 4-Byte
    Address, which only the module's catalog holds: for the decoder 0x13 is
    no instruction. *)
Theorem catalogs_differ_in_0x13_only (b : Z) :
  dict_find Z.eqb b WINBOND_INSTRUCTIONS_MODULE
  = (if b =? 0x13
     then Some (Instruction "Read Data with 4-Byte Address" 5 true)
     else dict_find Z.eqb b WINBOND_INSTRUCTIONS)
  /\ is_instruction 0x13 = false.
Proof.
  split; [|reflexivity].
  destruct (b =? 19) eqn:E.
  - apply Z.eqb_eq in E. subst b. reflexivity.
  - unfold WINBOND_INSTRUCTIONS_MODULE, WINBOND_INSTRUCTIONS.
    cbn [dict_find]. rewrite E.
    repeat match goal with
           | |- context [b =? ?c] => destruct (b =? c); [reflexivity|]
           end.
    reflexivity.
Qed.

(** ** Overview reduction on any collection *)

Lemma known_key_eqb_eq (a b : known_key) : known_key_eqb a b = true -> a = b.
Proof.
  destruct a as [ta ca], b as [tb cb]. unfold known_key_eqb. cbn [fst snd].
  intros H. apply andb_prop in H. destruct H as [H1 H2].
  apply type_eqb_eq in H1. apply Bool.eqb_prop in H2. now subst.
Qed.

Lemma dict_set_absent (K V : Type) (eqb : K -> K -> bool) (k : K) (v : V)
    (d : dict K V) :
  dict_find eqb k d = None -> dict_set eqb k v d = d ++ [(k, v)].
Proof.
  induction d as [|[k1 v1] d IH]; simpl; [reflexivity|].
  destruct (eqb k k1); [discriminate|]. intros H. now rewrite IH.
Qed.

Lemma dict_find_absent (V : Type) (k : Z) (d : dict Z V) :
  ~ In k (keys d) -> dict_find Z.eqb k d = None.
Proof.
  intros H. destruct (dict_find Z.eqb k d) eqn:F; [|reflexivity].
  exfalso. apply H. apply dict_find_Some_In in F. now apply (In_keys _ (k, v)).
Qed.

Lemma overview_step_keeps_invariant (d : dict Z ReadAccess) (st : overview_state)
    (t : Z) (v : ReadAccess) (todo : list (Z * ReadAccess)) :
  overview_invariant d st ((t, v) :: todo) ->
  exists st',
    overview_step st (t, v) = Ok st'
    /\ overview_invariant d st' todo
    /\ (forall v', covered (overview_read_accesses st) v' ->
                   covered (overview_read_accesses st') v')
    /\ covered (overview_read_accesses st') v.
Proof.
  intros (Hnd & Hndt & Hind & Hfresh & Hknown & Hrows).
  set (ov := overview_read_accesses st) in *.
  cbn [keys map fst] in Hndt. inversion Hndt as [|? ? Htn Hndt']; subst.
  fold (keys todo) in Htn, Hndt'.
  assert (~ In t (keys ov)) as Htov.
  { intros Hin. apply (Hfresh _ Hin). now left. }
  set (known0 := if TIME_BLOCK_LATENCY_THRESHOLD <? latency_in_us v
                 then [] else known_types st).
  assert (forall key t0,
             In (key, t0) known0 ->
             exists row, dict_find Z.eqb t0 ov = Some row
                         /\ type_ (ov_values row) = fst key
                         /\ is_ccp (ov_values row) = snd key) as Hknown0.
  { unfold known0. destruct (TIME_BLOCK_LATENCY_THRESHOLD <? latency_in_us v);
      [intros ? ? []|exact Hknown]. }
  destruct (dict_find known_key_eqb (type_ v, is_ccp v) known0) as [t0|] eqn:Hk.
  - (* the pair is known in this block: its row is widened *)
    assert (latency_in_us v <= TIME_BLOCK_LATENCY_THRESHOLD) as Hlat.
    { unfold known0 in Hk.
      destruct (TIME_BLOCK_LATENCY_THRESHOLD <? latency_in_us v) eqn:E;
        [discriminate|]. now apply Z.ltb_ge in E. }
    assert (known0 = known_types st) as Hk0.
    { unfold known0. now rewrite (proj2 (Z.ltb_ge _ _) Hlat). }
    rewrite Hk0 in Hk.
    pose proof Hk as Hk'. apply dict_find_In in Hk'.
    destruct Hk' as (key' & Hin & Heq). apply known_key_eqb_eq in Heq.
    subst key'. destruct (Hknown _ _ Hin) as (row0 & Hrow0 & Hty0 & Hccp0).
    cbn [fst snd] in Hty0, Hccp0.
    rewrite (@overview_step_widen st t t0 v row0 Hlat Hk Hrow0).
    eexists. split; [reflexivity|].
    fold ov. set (row1 := {| ov_values := ov_values row0;
                             lowest_access := _; highest_access := _ |}).
    assert (forall k, dict_find Z.eqb k (dict_set Z.eqb t0 row1 ov)
                      = if k =? t0 then Some row1 else dict_find Z.eqb k ov)
      as Hfind by (intros k; apply dict_find_set).
    assert (keys (dict_set Z.eqb t0 row1 ov) = keys ov) as Hkeys.
    { apply keys_dict_set_present. apply dict_find_Some_In in Hrow0.
      now apply (In_keys _ (t0, row0)). }
    destruct (Hrows _ _ Hrow0) as (Hin0 & _ & _ & Hlo0 & Hhi0).
    split; [|split].
    + unfold overview_invariant. cbn [overview_read_accesses known_types].
      split; [now apply NoDup_keys_dict_set|]. split; [exact Hndt'|].
      split; [intros kv Hkv; apply Hind; now right|].
      split.
      { rewrite Hkeys. intros k Hk1 Hk2. apply (Hfresh _ Hk1). now right. }
      split.
      { intros key t1 Hin1. destruct (Hknown _ _ Hin1) as (row & Hr & Ht & Hc).
        rewrite Hfind. destruct (t1 =? t0) eqn:E; [|eauto].
        apply Z.eqb_eq in E. subst t1. exists row1. split; [reflexivity|].
        assert (row = row0) by congruence. subst row. cbn. auto. }
      intros k row Hr. rewrite Hfind in Hr. destruct (k =? t0) eqn:E.
      * apply Z.eqb_eq in E. subst k. inversion Hr; subst row. cbn.
        split; [exact Hin0|]. unfold covers. cbn. repeat split; lia.
      * now apply Hrows.
    + intros v' (k & row & Hr & Hc). destruct (Z.eq_dec k t0) as [->|Hne].
      * exists t0, row1. split; [rewrite Hfind, Z.eqb_refl; reflexivity|].
        assert (row = row0) by congruence. subst row.
        destruct Hc as (H1 & H2 & H3 & H4). unfold covers. cbn.
        repeat split; auto; lia.
      * exists k, row. split; [|exact Hc].
        rewrite Hfind. now rewrite (proj2 (Z.eqb_neq k t0) Hne).
    + exists t0, row1. split; [rewrite Hfind, Z.eqb_refl; reflexivity|].
      unfold covers. cbn. repeat split; auto; lia.
  - (* the pair is new in this block: a row is opened *)
    assert (dict_mem known_key_eqb (type_ v, is_ccp v) known0 = false) as Hmem.
    { unfold dict_mem.
      match goal with
      | |- match ?c with _ => _ end = _ =>
          replace c with (@None Z) by (symmetry; exact Hk)
      end. reflexivity. }
    rewrite (@overview_step_open st t v Hmem).
    eexists. split; [reflexivity|].
    fold ov. fold known0.
    rewrite (dict_set_new _ _ _ Htov).
    rewrite (dict_set_absent _ _ _ _ _ _ Hk).
    set (row1 := {| ov_values := v; lowest_access := address v;
                    highest_access := address v + size v |}).
    assert (forall k, dict_find Z.eqb k (ov ++ [(t, row1)])
                      = if k =? t then Some row1 else dict_find Z.eqb k ov)
      as Hfind.
    { intros k. rewrite <- (dict_set_new _ _ _ Htov). apply dict_find_set. }
    split; [|split].
    + unfold overview_invariant. cbn [overview_read_accesses known_types].
      split.
      { unfold keys. rewrite map_app. cbn [map fst].
        apply NoDup_app; [exact Hnd | repeat constructor; tauto |].
        intros x Hx [<-|[]]. contradiction. }
      split; [exact Hndt'|].
      split; [intros kv Hkv; apply Hind; now right|].
      split.
      { intros k Hk1 Hk2. unfold keys in Hk1. rewrite map_app in Hk1.
        apply in_app_or in Hk1. destruct Hk1 as [Hk1|[<-|[]]]; [|contradiction].
        apply (Hfresh _ Hk1). now right. }
      split.
      { intros key t1 Hin1. apply in_app_or in Hin1.
        destruct Hin1 as [Hin1|[Heq|[]]].
        - destruct (Hknown0 _ _ Hin1) as (row & Hr & Ht & Hc).
          exists row. rewrite Hfind. destruct (t1 =? t) eqn:E; [|auto].
          apply Z.eqb_eq in E. subst t1. rewrite dict_find_absent in Hr by exact Htov.
          discriminate.
        - inversion Heq; subst. exists row1.
          rewrite Hfind, Z.eqb_refl. cbn. auto. }
      intros k row Hr. rewrite Hfind in Hr. destruct (k =? t) eqn:E.
      * apply Z.eqb_eq in E. subst k. inversion Hr; subst row. cbn.
        split; [apply Hind; now left|]. unfold covers. cbn. repeat split; lia.
      * now apply Hrows.
    + intros v' (k & row & Hr & Hc). exists k, row. split; [|exact Hc].
      rewrite Hfind. destruct (k =? t) eqn:E; [|exact Hr].
      apply Z.eqb_eq in E. subst k. rewrite dict_find_absent in Hr by exact Htov.
      discriminate.
    + exists t, row1. split; [rewrite Hfind, Z.eqb_refl; reflexivity|].
      unfold covers. cbn. repeat split; lia.
Qed.

Lemma overview_loop_keeps_invariant (d : dict Z ReadAccess)
    (todo : list (Z * ReadAccess)) :
  forall st,
    overview_invariant d st todo ->
    exists st',
      overview_loop st todo = Ok st'
      /\ overview_invariant d st' []
      /\ (forall v', covered (overview_read_accesses st) v' ->
                     covered (overview_read_accesses st') v')
      /\ (forall kv, In kv todo -> covered (overview_read_accesses st') (snd kv)).
Proof.
  induction todo as [|[t v] todo IH]; intros st Hinv.
  - exists st. split; [reflexivity|]. split; [exact Hinv|].
    split; [auto|intros ? []].
  - destruct (overview_step_keeps_invariant d st t v todo Hinv)
      as (st1 & Hst1 & Hinv1 & Hmono1 & Hcov1).
    destruct (IH st1 Hinv1) as (st' & Hst' & Hinv' & Hmono' & Hcov').
    exists st'. cbn [overview_loop]. rewrite Hst1. cbn [bind].
    split; [exact Hst'|]. split; [exact Hinv'|].
    split; [auto|]. intros kv [<-|Hin]; [cbn; auto|auto].
Qed.

(** The overview of any collection with distinct keys is made without an
    exception.  Each row stands under the key of an access of the
    collection, the one that opened it, and spans at least that access;
    there are at most as many rows as accesses; and every access of the
    collection is accounted for by a row of its type and coprocessor flag
    whose span includes its own. *)
Theorem overview_accounts_for_every_access (read_accesses : dict Z ReadAccess) :
  NoDup (keys read_accesses) ->
  exists rows,
    get_overview_read_accesses read_accesses = Ok rows
    /\ NoDup (keys rows)
    /\ len rows <= len read_accesses
    /\ (forall k row, In (k, row) rows ->
          In (k, ov_values row) read_accesses /\ covers row (ov_values row))
    /\ (forall kv, In kv read_accesses -> covered rows (snd kv)).
Proof.
  intros Hnd. unfold get_overview_read_accesses.
  pose proof (sorted_items_perm _ read_accesses) as Hperm.
  destruct (overview_loop_keeps_invariant read_accesses
              (sorted_items read_accesses)
              {| overview_read_accesses := []; known_types := [] |})
    as (st & Hst & Hinv & _ & Hcov).
  { unfold overview_invariant. cbn [overview_read_accesses known_types].
    split; [constructor|].
    split.
    { unfold keys. eapply Permutation_NoDup; [|exact Hnd].
      apply Permutation_map. now symmetry. }
    split; [intros kv Hkv; eapply Permutation_in; eassumption|].
    split; [intros ? []|]. split; [intros ? ? []|]. intros ? ? H. discriminate. }
  rewrite Hst. cbn [bind].
  destruct Hinv as (Hnd' & _ & _ & _ & _ & Hrows).
  exists (overview_read_accesses st). split; [reflexivity|].
  split; [exact Hnd'|].
  assert (forall k row, In (k, row) (overview_read_accesses st) ->
            In (k, ov_values row) read_accesses /\ covers row (ov_values row))
    as Hrows'.
  { intros k row Hin. apply Hrows. now apply dict_find_In_NoDup. }
  split.
  { unfold len. apply inj_le.
    rewrite <- (length_map fst (overview_read_accesses st)).
    rewrite <- (length_map fst read_accesses).
    apply NoDup_incl_length; [exact Hnd'|].
    intros k Hk. unfold keys in Hk. apply in_map_iff in Hk.
    destruct Hk as ([k' row] & <- & Hin).
    apply (In_keys _ (k', ov_values row)). apply (Hrows' _ _ Hin). }
  split; [exact Hrows'|].
  intros kv Hkv. apply Hcov. eapply Permutation_in; [|exact Hkv]. now symmetry.
Qed.

Lemma overview_accounts_for_every_access_witness :
  let acc t lat a ty :=
    {| instr_index := t; start_time := t; end_time := t + 1; duration := 1;
       latency := lat; address := a; size := 0x10; type_ := ty; info := [];
       duplicate_count := None |} in
  let d := [(0, acc 0 0 0x1000 (Some (EntryType 1)));
            (5, acc 5 4000 0x3000 None);
            (9, acc 9 3000 0x1040 (Some (EntryType 1)))] in
  exists rows,
    get_overview_read_accesses d = Ok rows
    /\ NoDup (keys rows)
    /\ len rows <= len d
    /\ (forall k row, In (k, row) rows ->
          In (k, ov_values row) d /\ covers row (ov_values row))
    /\ (forall kv, In kv d -> covered rows (snd kv)).
Proof.
  intros acc d. apply (overview_accounts_for_every_access d).
  repeat constructor; cbn; intuition lia.
Defined.

(** ** Type collapsing of adjacent accesses, anywhere in a collection *)

(** The record that is last when the loop goes on stays where it is and
    keeps what it has from its first access; when the next access fails the
    test, or there is none, it stays as it is.  The records after it start
    with accesses that were still to come. *)
Lemma collapse_loop_keeps_record (items : list (Z * ReadAccess)) :
  forall (st st' : collapse_state) (l : list ReadAccess) (p : ReadAccess),
    collapsed_read_accesses st = l ++ [p] ->
    collapse_loop st items = Ok st' ->
    exists p' rest,
      collapsed_read_accesses st' = l ++ p' :: rest
      /\ start_time p' = start_time p
      /\ latency p' = latency p
      /\ address p' = address p
      /\ type_ p' = type_ p
      /\ (match items with
          | [] => True
          | item :: _ => collapses (last_access st) (snd item) = false
          end -> p' = p)
      /\ incl (map start_time rest) (map start_time (values items)).
Proof.
  induction items as [|[t v] items IH]; intros st st' l p Hl H.
  - cbn in H. inversion H; subst st'. exists p, [].
    repeat split; auto. intros x [].
  - cbn [collapse_loop] in H. bind_ok H st1 Hst1.
    destruct (collapses (last_access st) v) eqn:E.
    + destruct (@collapse_step_merge st t v p l E Hl)
        as (m & Hm & _ & Hstart & _ & _ & Hlat & Haddr & _ & Hty & _).
      rewrite Hm in Hst1. inversion Hst1; subst st1; clear Hst1.
      match type of H with
      | collapse_loop ?s _ = _ =>
          destruct (IH s st' l m eq_refl H)
            as (p' & rest & Hc & Hs' & Hl' & Ha' & Ht' & _ & Hincl)
      end.
      exists p', rest. split; [exact Hc|].
      split; [congruence|]. split; [congruence|]. split; [congruence|].
      split; [congruence|]. split.
      * cbn [snd]. intros Habs. congruence.
      * intros x Hx. right. now apply Hincl.
    + rewrite (@collapse_step_append st t v E) in Hst1.
      inversion Hst1; subst st1; clear Hst1.
      match type of H with
      | collapse_loop ?s _ = _ =>
          destruct (IH s st' (l ++ [p]) v (f_equal (fun x => x ++ [v]) Hl) H)
            as (v' & rest & Hc & Hs' & _ & _ & _ & _ & Hincl)
      end.
      exists p, (v' :: rest). split; [now rewrite Hc, <- app_assoc|].
      repeat split; auto.
      intros x [<-|Hx]; [left; cbn; now symmetry|right; now apply Hincl].
Qed.

(** Every record starts with an access of the input. *)
Lemma collapse_loop_start_times (items : list (Z * ReadAccess)) :
  forall st st',
    (last_access st = None \/ collapsed_read_accesses st <> []) ->
    collapse_loop st items = Ok st' ->
    incl (map start_time (collapsed_read_accesses st'))
         (map start_time (collapsed_read_accesses st)
          ++ map start_time (values items)).
Proof.
  induction items as [|[t v] items IH]; intros st st' Hinv H.
  - cbn in H. inversion H; subst. cbn. now rewrite app_nil_r.
  - cbn [collapse_loop] in H. bind_ok H st1 Hst1.
    destruct (collapse_step_conserves st st1 t v Hinv Hst1)
      as (_ & _ & Hk1 & Hne1).
    pose proof (IH st1 st' (or_intror Hne1) H) as Hincl.
    intros x Hx. apply Hincl in Hx. apply in_app_or in Hx.
    cbn [values map snd]. apply in_or_app.
    destruct Hx as [Hx|Hx]; [|right; now right].
    destruct Hk1 as [Hk1|Hk1]; rewrite Hk1 in Hx; [now left|].
    apply in_app_or in Hx. destruct Hx as [Hx|[<-|[]]]; [now left|right; now left].
Qed.

(** C5.  [a1] and [a2] are adjacent in start-time order, anywhere in a
    collection whose accesses have distinct start times.  If they have one
    type and [a2] starts at or before the end of [a1], then [a2] is merged
    into the record that holds [a1]: the collection returned has no record
    under the start time of [a2].  If moreover [a1] begins that record (it
    is the first access, or fails the test against its predecessor) and
    [a2] ends it (it is the last access, or its successor fails the test
    against it), the collection returned holds under the start time of
    [a1] a record of size [a1.size + a2.size], with the start time and
    latency of [a1] and the end time of [a2].  If the types differ, [a2] is
    not merged: the collection returned holds under the start time of [a2]
    a record that begins with [a2], and that is [a2] itself when [a2] ends
    it. *)
Theorem adjacent_accesses_collapse (read_accesses : dict Z ReadAccess)
    (pre post : list (Z * ReadAccess)) (t1 t2 : Z) (a1 a2 : ReadAccess) :
  sorted_items read_accesses = pre ++ (t1, a1) :: (t2, a2) :: post ->
  NoDup (map start_time (values read_accesses)) ->
  let a1_begins_a_record :=
    pre = []
    \/ exists pre' t0 a0,
         pre = pre' ++ [(t0, a0)]
         /\ collapses (Some (last_access_of a0)) a1 = false in
  let a2_ends_a_record :=
    post = []
    \/ exists t3 a3 post',
         post = (t3, a3) :: post'
         /\ collapses (Some (last_access_of a2)) a3 = false in
  exists out,
    collapse_entry_types read_accesses = Ok out
    /\ (type_ a2 = type_ a1 ->
        address a2 <= address a1 + size a1 ->
        dict_find Z.eqb (start_time a2) out = None
        /\ (a1_begins_a_record ->
            a2_ends_a_record ->
            exists merged,
              dict_find Z.eqb (start_time a1) out = Some merged
              /\ size merged = size a1 + size a2
              /\ start_time merged = start_time a1
              /\ latency merged = latency a1
              /\ end_time merged = end_time a2))
    /\ (type_ a2 <> type_ a1 ->
        exists record,
          dict_find Z.eqb (start_time a2) out = Some record
          /\ start_time record = start_time a2
          /\ latency record = latency a2
          /\ address record = address a2
          /\ type_ record = type_ a2
          /\ (a2_ends_a_record -> record = a2)).
Proof.
  intros Hs Hnd Hbegins Hends.
  (* the states of the loop before a1, after a1, after a2 and at the end *)
  destruct (collapse_loop_snoc pre t1 a1) as (st0 & st1 & H0 & Hstep1 & H1 & Hl1).
  assert (collapsed_read_accesses st1 <> []) as Hne1.
  { destruct (@collapse_loop_total_from (pre ++ [(t1, a1)]) initial_collapse_state)
      as (st1' & H1' & Hinv); [now left|].
    rewrite H1 in H1'. inversion H1'; subst st1'.
    destruct Hinv as [Hn|Hne]; [congruence|exact Hne]. }
  destruct (@collapse_step_total st1 (t2, a2) (or_intror Hne1))
    as (st2 & Hstep2 & Hne2 & Hl2).
  cbn [snd] in Hl2.
  destruct (@collapse_loop_total_from post st2 (or_intror Hne2))
    as (st' & Hpost & _).
  assert (collapse_loop initial_collapse_state (sorted_items read_accesses)
          = Ok st') as Hall.
  { rewrite Hs.
    change (pre ++ (t1, a1) :: (t2, a2) :: post)
      with (pre ++ [(t1, a1)] ++ (t2, a2) :: post).
    rewrite app_assoc, collapse_loop_app, H1. cbn [bind collapse_loop].
    rewrite Hstep2. exact Hpost. }
  (* the start times of the records are distinct *)
  pose proof (sorted_items_perm _ read_accesses) as Hperm.
  assert (NoDup (map start_time (values (sorted_items read_accesses)))) as Hnds.
  { eapply Permutation_NoDup; [|exact Hnd].
    apply Permutation_map. unfold values. apply Permutation_map. now symmetry. }
  assert (NoDup (map start_time (collapsed_read_accesses st'))) as Hndr.
  { destruct (collapse_loop_conserves (sorted_items read_accesses)
                initial_collapse_state st' (or_introl eq_refl) Hall)
      as (_ & _ & Hk & _).
    apply Hk. exact Hnds. }
  set (out := map (fun v => (start_time v, v)) (collapsed_read_accesses st')).
  assert (collapse_entry_types read_accesses = Ok out) as Hout.
  { unfold collapse_entry_types. rewrite Hall. cbn [bind].
    now rewrite (by_start_time_distinct _ Hndr). }
  assert (keys out = map start_time (collapsed_read_accesses st')) as Hkeys.
  { unfold out, keys. rewrite map_map. reflexivity. }
  assert (forall v, In v (collapsed_read_accesses st') ->
                    dict_find Z.eqb (start_time v) out = Some v) as Hfind.
  { intros v Hv. apply dict_find_In_NoDup; [now rewrite Hkeys|].
    unfold out. apply in_map_iff. now exists v. }
  (* the start time of a2 is that of no other access *)
  assert (~ In (start_time a2)
            (map start_time (values (pre ++ [(t1, a1)]))
             ++ map start_time (values post))) as Hfresh2.
  { rewrite Hs in Hnds.
    change (pre ++ (t1, a1) :: (t2, a2) :: post)
      with (pre ++ [(t1, a1)] ++ (t2, a2) :: post) in Hnds.
    rewrite app_assoc in Hnds. unfold values in *.
    rewrite !map_app in Hnds. cbn [map snd] in Hnds.
    rewrite !map_app. cbn [map snd].
    now apply NoDup_remove_2 in Hnds. }
  pose proof (collapse_loop_start_times (pre ++ [(t1, a1)])
                initial_collapse_state st1 (or_introl eq_refl) H1) as Hin1.
  cbn [initial_collapse_state collapsed_read_accesses map app] in Hin1.
  exists out. split; [exact Hout|]. split.
  - intros Hty Haddr.
    assert (collapses (last_access st1) a2 = true) as Hc.
    { rewrite Hl1. cbn. apply andb_true_intro. split.
      - now apply type_eqb_eq.
      - now apply Z.leb_le. }
    destruct (exists_last Hne1) as (l & prev & Hlast).
    destruct (@collapse_step_merge st1 t2 a2 prev l Hc Hlast)
      as (m & Hm & _ & Hstart & Hend & _ & Hlat & _ & Hsize & _).
    rewrite Hm in Hstep2. inversion Hstep2; subst st2; clear Hstep2.
    match type of Hpost with
    | collapse_loop ?s _ = _ =>
        destruct (collapse_loop_keeps_record post s st' l m eq_refl Hpost)
          as (m' & rest & Hrec & Hs' & _ & _ & _ & Hsame & Hrest)
    end.
    cbn [last_access] in Hsame.
    split.
    + apply dict_find_absent. rewrite Hkeys, Hrec. intros Hin.
      apply Hfresh2. rewrite map_app in Hin. cbn [map] in Hin.
      apply in_app_or in Hin. apply in_or_app.
      destruct Hin as [Hin|[Hin|Hin]].
      * left. apply Hin1. rewrite Hlast, map_app. apply in_or_app. now left.
      * left. apply Hin1. rewrite Hlast, map_app. apply in_or_app. right.
        left. congruence.
      * right. now apply Hrest.
    + intros Hb He.
      assert (collapses (last_access st0) a1 = false) as Hc0.
      { destruct Hb as [->|(pre' & t0 & a0 & -> & Hc0)].
        - cbn in H0. inversion H0; subst st0. reflexivity.
        - destruct (collapse_loop_snoc pre' t0 a0) as (s & s' & _ & _ & Hs0 & Hl0).
          rewrite H0 in Hs0. inversion Hs0; subst s'. now rewrite Hl0. }
      rewrite (@collapse_step_append st0 t1 a1 Hc0) in Hstep1.
      inversion Hstep1; subst st1; clear Hstep1.
      cbn [collapsed_read_accesses] in Hlast.
      apply app_inj_tail in Hlast. destruct Hlast as [<- <-].
      assert (m' = m) as ->.
      { apply Hsame. destruct He as [->|(t3 & a3 & post' & -> & Hc3)];
          [exact I|exact Hc3]. }
      exists m. split.
      * rewrite <- Hstart. apply Hfind. rewrite Hrec. apply in_or_app. right. now left.
      * repeat split; congruence.
  - intros Hty.
    assert (collapses (last_access st1) a2 = false) as Hc.
    { rewrite Hl1. cbn. apply andb_false_intro1.
      destruct (option_eqb region_type_eqb (type_ a2) (type_ a1)) eqn:E;
        [|reflexivity].
      apply type_eqb_eq in E. contradiction. }
    rewrite (@collapse_step_append st1 t2 a2 Hc) in Hstep2.
    inversion Hstep2; subst st2; clear Hstep2.
    match type of Hpost with
    | collapse_loop ?s _ = _ =>
        destruct (collapse_loop_keeps_record post s st'
                    (collapsed_read_accesses st1) a2 eq_refl Hpost)
          as (r & rest & Hrec & Hs' & Hl' & Ha' & Ht' & Hsame & _)
    end.
    cbn [last_access] in Hsame.
    exists r. split.
    + rewrite <- Hs'. apply Hfind. rewrite Hrec. apply in_or_app. right. now left.
    + repeat split; auto.
      intros He. apply Hsame. destruct He as [->|(t3 & a3 & post' & -> & Hc3)];
        [exact I|exact Hc3].
Qed.

Lemma adjacent_accesses_collapse_witness :
  let acc t a ty :=
    {| instr_index := t; start_time := t; end_time := t + 8; duration := 8;
       latency := 2; address := a; size := 0x10; type_ := ty; info := [];
       duplicate_count := None |} in
  let a0 := acc 0 0x9000 (Some (EntryType 8)) in
  let a1 := acc 10 0x1000 (Some (Label "BOOT")) in
  let a2 := acc 20 0x1010 (Some (Label "BOOT")) in
  let a3 := acc 30 0x5000 (Some (Label "BOOT")) in
  let d := [(0, a0); (10, a1); (20, a2); (30, a3)] in
  (exists out merged,
     collapse_entry_types d = Ok out
     /\ dict_find Z.eqb 20 out = None
     /\ dict_find Z.eqb 10 out = Some merged
     /\ size merged = 0x20
     /\ start_time merged = 10
     /\ latency merged = 2
     /\ end_time merged = 28)
  /\ (exists out record,
        collapse_entry_types d = Ok out
        /\ dict_find Z.eqb 10 out = Some record
        /\ start_time record = 10
        /\ address record = 0x1000).
Proof.
  intros acc a0 a1 a2 a3 d. split.
  - pose proof (adjacent_accesses_collapse d [(0, a0)] [(30, a3)] 10 20 a1 a2)
      as H.
    cbv zeta in H.
    destruct H as (out & Hout & Hmerge & _);
      [reflexivity | repeat constructor; cbn; intuition lia |].
    destruct Hmerge as [Hnone Hrec]; [reflexivity | cbn; lia |].
    destruct Hrec as (merged & Hfind & Hsize & Hstart & Hlat & Hend).
    + right. exists [], 0, a0. split; reflexivity.
    + right. exists 30, a3, []. split; reflexivity.
    + exists out, merged. repeat split; assumption.
  - pose proof (adjacent_accesses_collapse d [] [(20, a2); (30, a3)] 0 10 a0 a1)
      as H.
    cbv zeta in H.
    destruct H as (out & Hout & _ & Hdiffer);
      [reflexivity | repeat constructor; cbn; intuition lia |].
    destruct Hdiffer as (record & Hfind & Hstart & _ & Haddr & _);
      [discriminate|].
    exists out, record. repeat split; assumption.
Defined.

(** C5 as stated fails for a pair inside a longer chain: of three accesses
    of one type, each starting at the end of the one before, the first two
    are adjacent, of one type and contiguous, and so are the last two; but
    the stage returns a single record of all three, of size 0x30, that
    starts with the first and ends with the third.  No record has the size
    of a pair, none ends with the second access and none starts with
    it. *)
Lemma chained_accesses_collapse_further :
  let acc t a :=
    {| instr_index := t; start_time := t; end_time := t + 8; duration := 8;
       latency := 2; address := a; size := 0x10;
       type_ := Some (Label "BOOT"); info := []; duplicate_count := None |} in
  let a1 := acc 0 0x1000 in
  let a2 := acc 10 0x1010 in
  let a3 := acc 20 0x1020 in
  (type_ a2 = type_ a1 /\ address a2 <= address a1 + size a1)
  /\ (type_ a3 = type_ a2 /\ address a3 <= address a2 + size a2)
  /\ exists record,
       collapse_entry_types [(0, a1); (10, a2); (20, a3)] = Ok [(0, record)]
       /\ size record = 0x30
       /\ size record <> size a1 + size a2
       /\ start_time record = start_time a1
       /\ end_time record = end_time a3
       /\ end_time record <> end_time a2.
Proof.
  intros acc a1 a2 a3.
  split; [split; [reflexivity|cbn; lia]|].
  split; [split; [reflexivity|cbn; lia]|].
  eexists. split; [reflexivity|]. cbn. repeat split; lia.
Qed.
